(** * nbsafety: hyperedge extraction, instrumentation and tracing runtime

    A shallow embedding of
      - [nbsafety/analysis/hyperedge.py]        (module [Hyperedge]),
      - [nbsafety/tracing/stmt_inserter.py]     (module [StmtInserter]),
      - [nbsafety/tracing/attribute_tracing.py] (modules [AttrSubTransformer]
        and [AttrTracing]),
      - [nbsafety/tracing/trace_state.py]       (module [TraceStateM]),
    over the abstract syntax of module [Ast], followed by the properties of
    these programs (modules [FrameStack], [Hooks], [ReturnAfterException],
    [Markers], [LambdaReads], [HyperedgeHeaders] and [Rewriting]).

    Python sets are [gset]s, dictionaries are [gmap]s, Python integers are
    [Z] or [nat] (they do not wrap around).  Where the Python code shares a
    mutable object between several references, the objects live in a store
    and the references are indices into it. *)

From stdpp Require Import gmap strings list.
From Stdlib Require Import ZArith Lia.

Open Scope string_scope.
Open Scope list_scope.
Set Warnings "-register-all,-clear-no-such-hyp".

(** ** The abstract syntax of Python (module [ast], Python 3.7 layout)

    Fields are listed in the order of the [_fields] attribute of each node
    class: it is the order in which [generic_visit] walks the children. *)

Module Ast.

Inductive expr_context := Load | Store | Del | AugLoad | AugStore | Param.

Inductive constant :=
| CNone
| CBool (b : bool)
| CNum (n : Z)
| CStr (s : string).

Inductive operator := Add | Sub | Mult | Div.

Inductive expr :=
| Name (id : string) (ctx : expr_context)
| Constant (value : constant)
| Attribute (value : expr) (attr : string) (ctx : expr_context)
| Subscript (value : expr) (slice : slice) (ctx : expr_context)
| Call (func : expr) (args : list expr) (keywords : list keyword)
| BinOp (left : expr) (op : operator) (right : expr)
| List_ (elts : list expr) (ctx : expr_context)
| Tuple (elts : list expr) (ctx : expr_context)
| Lambda (args : arguments) (body : expr)
with slice :=
| Index (value : expr)
| Slice (lower upper step : option expr)
| ExtSlice (dims : list slice)
with keyword :=
| Keyword (arg : option string) (value : expr)
with arguments :=
| Arguments (args : list arg) (vararg : option arg) (kwonlyargs : list arg)
            (kw_defaults : list (option expr)) (kwarg : option arg)
            (defaults : list expr)
with arg :=
| Arg (arg : string) (annotation : option expr).

Record withitem := Withitem { context_expr : expr; optional_vars : option expr }.

Inductive stmt :=
| FunctionDef (name : string) (args : arguments) (body : list stmt)
              (decorator_list : list expr) (returns : option expr)
| AsyncFunctionDef (name : string) (args : arguments) (body : list stmt)
                   (decorator_list : list expr) (returns : option expr)
| ClassDef (name : string) (bases : list expr) (keywords : list keyword)
           (body : list stmt) (decorator_list : list expr)
| Return (value : option expr)
| Assign (targets : list expr) (value : expr)
| AugAssign (target : expr) (op : operator) (value : expr)
| For (target iter : expr) (body orelse : list stmt)
| While (test : expr) (body orelse : list stmt)
| If (test : expr) (body orelse : list stmt)
| With (items : list withitem) (body : list stmt)
| Try (body : list stmt) (handlers : list excepthandler)
      (orelse finalbody : list stmt)
| Expr (value : expr)
| Pass
with excepthandler :=
| ExceptHandler (type : option expr) (name : option string) (body : list stmt).

(** The argument names bound by an [arguments] node, the way
    [visit_Lambda] walks them: [args], [vararg], [kwonlyargs], [kwarg]. *)
Definition arg_name (a : arg) : string :=
  match a with Arg n _ => n end.

Definition bound_names (a : arguments) : list string :=
  match a with
  | Arguments args vararg kwonlyargs _ kwarg _ =>
      map arg_name args ++ option_list (arg_name <$> vararg)
      ++ map arg_name kwonlyargs ++ option_list (arg_name <$> kwarg)
  end.

End Ast.

(** ** [nbsafety/analysis/hyperedge.py] *)

Module Hyperedge.
Import Ast.

(** The visitor object.  [lval_name_set], [rval_name_set] and [to_add_set]
    are references to [set] objects: [to_add_set] is an alias of one of the
    two others, and [visit_Lambda] rebinds [rval_name_set] to new objects.
    [sets] is the store of the set objects, a reference is an index in it. *)
Record GetHyperEdgeNames := mkVisitor {
  sets : list (gset string);
  lval_name_set : nat;
  rval_name_set : nat;
  to_add_set : nat
}.

(** [__init__] *)
Definition init : GetHyperEdgeNames :=
  {| sets := [∅; ∅]; lval_name_set := 0; rval_name_set := 1; to_add_set := 1 |}.

(** The contents of the set object behind a reference. *)
Definition deref (v : GetHyperEdgeNames) (r : nat) : gset string :=
  default ∅ (sets v !! r).

(** [r.add(x)], in place. *)
Definition set_add (r : nat) (x : string) (v : GetHyperEdgeNames) : GetHyperEdgeNames :=
  {| sets := alter (fun s => {[x]} ∪ s) r (sets v);
     lval_name_set := lval_name_set v;
     rval_name_set := rval_name_set v;
     to_add_set := to_add_set v |}.

(** A new set object; returns its reference. *)
Definition new_set (s : gset string) (v : GetHyperEdgeNames) : nat * GetHyperEdgeNames :=
  (length (sets v),
   {| sets := sets v ++ [s];
      lval_name_set := lval_name_set v;
      rval_name_set := rval_name_set v;
      to_add_set := to_add_set v |}).

Definition set_to_add_set (r : nat) (v : GetHyperEdgeNames) : GetHyperEdgeNames :=
  {| sets := sets v; lval_name_set := lval_name_set v;
     rval_name_set := rval_name_set v; to_add_set := r |}.

Definition set_rval_name_set (r : nat) (v : GetHyperEdgeNames) : GetHyperEdgeNames :=
  {| sets := sets v; lval_name_set := lval_name_set v;
     rval_name_set := r; to_add_set := to_add_set v |}.

(** [visit_arg]: [self.rval_name_set.add(node.arg)] *)
Definition visit_arg (a : arg) (v : GetHyperEdgeNames) : GetHyperEdgeNames :=
  set_add (rval_name_set v) (arg_name a) v.

(** [self.visit(node.args.args)] and the like: a list goes through
    [generic_visit], which visits its items in order; [None] is skipped. *)
Definition visit_arg_list (l : list arg) (v : GetHyperEdgeNames) : GetHyperEdgeNames :=
  foldl (fun v a => visit_arg a v) v l.

Definition visit_arg_opt (o : option arg) (v : GetHyperEdgeNames) : GetHyperEdgeNames :=
  match o with Some a => visit_arg a v | None => v end.

(** The subtraction at the end of [visit_Lambda]:
    [old = self.rval_name_set; self.rval_name_set = set();
     visit args, vararg, kwonlyargs, kwarg;
     self.rval_name_set = old - self.rval_name_set]. *)
Definition remove_bound (a : arguments) (v : GetHyperEdgeNames) : GetHyperEdgeNames :=
  let old := rval_name_set v in
  let '(fresh, v) := new_set ∅ v in
  let v := set_rval_name_set fresh v in
  let v :=
    match a with
    | Arguments args vararg kwonlyargs _ kwarg _ =>
        visit_arg_opt kwarg
          (visit_arg_list kwonlyargs
             (visit_arg_opt vararg (visit_arg_list args v)))
    end in
  let '(diff, v) := new_set (deref v old ∖ deref v (rval_name_set v)) v in
  set_rval_name_set diff v.

(** [visit] on expressions and on the nodes below them.  Nodes without a
    [visit_X] method go through [generic_visit], which visits the children
    in field order. *)
Fixpoint visit_expr (e : expr) (v : GetHyperEdgeNames) {struct e} : GetHyperEdgeNames :=
  let visit_exprs :=
    fix go (l : list expr) (v : GetHyperEdgeNames) {struct l} :=
      match l with
      | [] => v
      | e :: l => go l (visit_expr e v)
      end in
  match e with
  | Name id _ => set_add (to_add_set v) id v                 (* visit_Name *)
  | Constant _ => v
  | Attribute value _ _ => visit_expr value v
  | Subscript value _ _ => visit_expr value v                 (* visit_Subscript *)
  | Call func args keywords =>
      let v := visit_expr func v in
      let v := visit_exprs args v in
      (fix go (l : list keyword) (v : GetHyperEdgeNames) {struct l} :=
         match l with
         | [] => v
         | Keyword _ value :: l => go l (visit_expr value v)
         end) keywords v
  | BinOp l _ r => visit_expr r (visit_expr l v)
  | List_ elts _ => visit_exprs elts v
  | Tuple elts _ => visit_exprs elts v
  | Lambda args body =>                                       (* visit_Lambda *)
      let v := visit_expr body v in
      let v := visit_arguments args v in
      remove_bound args v
  end
(** [visit_arguments]: only [defaults] and [kw_defaults] are visited. *)
with visit_arguments (a : arguments) (v : GetHyperEdgeNames) {struct a} : GetHyperEdgeNames :=
  match a with
  | Arguments _ _ _ kw_defaults _ defaults =>
      let v :=
        (fix go (l : list expr) (v : GetHyperEdgeNames) {struct l} :=
           match l with
           | [] => v
           | e :: l => go l (visit_expr e v)
           end) defaults v in
      (fix go (l : list (option expr)) (v : GetHyperEdgeNames) {struct l} :=
         match l with
         | [] => v
         | None :: l => go l v
         | Some e :: l => go l (visit_expr e v)
         end) kw_defaults v
  end.

(** The loops of [generic_visit] over lists of nodes, as functions of their
    own. *)
Fixpoint visit_exprs (l : list expr) (v : GetHyperEdgeNames) : GetHyperEdgeNames :=
  match l with
  | [] => v
  | e :: l => visit_exprs l (visit_expr e v)
  end.

Fixpoint visit_keywords (l : list keyword) (v : GetHyperEdgeNames) : GetHyperEdgeNames :=
  match l with
  | [] => v
  | Keyword _ value :: l => visit_keywords l (visit_expr value v)
  end.

Fixpoint visit_opt_exprs (l : list (option expr)) (v : GetHyperEdgeNames)
    : GetHyperEdgeNames :=
  match l with
  | [] => v
  | None :: l => visit_opt_exprs l v
  | Some e :: l => visit_opt_exprs l (visit_expr e v)
  end.

Definition visit_expr_opt (o : option expr) (v : GetHyperEdgeNames) : GetHyperEdgeNames :=
  match o with Some e => visit_expr e v | None => v end.

(** [withitem] has no method of its own: [context_expr], then
    [optional_vars]. *)
Definition visit_withitem (w : withitem) (v : GetHyperEdgeNames) : GetHyperEdgeNames :=
  visit_expr_opt (optional_vars w) (visit_expr (context_expr w) v).

Fixpoint visit_withitems (l : list withitem) (v : GetHyperEdgeNames) : GetHyperEdgeNames :=
  match l with
  | [] => v
  | w :: l => visit_withitems l (visit_withitem w v)
  end.

(** [visit_FunctionDef], shared by [visit_AsyncFunctionDef]. *)
Definition visit_FunctionDef (name : string) (args : arguments)
    (v : GetHyperEdgeNames) : GetHyperEdgeNames :=
  let v := set_add (lval_name_set v) name v in
  let v := set_to_add_set (rval_name_set v) v in
  visit_arguments args v.

Fixpoint visit_stmt (s : stmt) (v : GetHyperEdgeNames) {struct s} : GetHyperEdgeNames :=
  let visit_stmts :=
    fix go (l : list stmt) (v : GetHyperEdgeNames) {struct l} :=
      match l with
      | [] => v
      | s :: l => go l (visit_stmt s v)
      end in
  match s with
  | FunctionDef name args _ _ _ => visit_FunctionDef name args v
  | AsyncFunctionDef name args _ _ _ => visit_FunctionDef name args v
  | ClassDef _ bases keywords body decorator_list =>
      let v := visit_exprs bases v in
      let v := visit_keywords keywords v in
      let v := visit_stmts body v in
      visit_exprs decorator_list v
  | Return value => visit_expr_opt value v
  | Assign targets value =>                                   (* visit_Assign *)
      let v := set_to_add_set (lval_name_set v) v in
      let v := visit_exprs targets v in
      let v := set_to_add_set (rval_name_set v) v in
      visit_expr value v
  | AugAssign target _ value =>                               (* visit_AugAssign *)
      let v := set_to_add_set (lval_name_set v) v in
      let v := visit_expr target v in
      let v := set_to_add_set (rval_name_set v) v in
      visit_expr value v
  | For target iter _ _ =>                                    (* visit_For *)
      let v := set_to_add_set (lval_name_set v) v in
      let v := visit_expr target v in
      let v := set_to_add_set (rval_name_set v) v in
      visit_expr iter v
  | While test body orelse =>
      visit_stmts orelse (visit_stmts body (visit_expr test v))
  | If test body orelse =>
      visit_stmts orelse (visit_stmts body (visit_expr test v))
  | With items body =>
      visit_stmts body (visit_withitems items v)
  | Try body handlers orelse finalbody =>
      let v := visit_stmts body v in
      let v :=
        (fix go (l : list excepthandler) (v : GetHyperEdgeNames) {struct l} :=
           match l with
           | [] => v
           | ExceptHandler type _ hbody :: l =>
               go l (visit_stmts hbody (visit_expr_opt type v))
           end) handlers v in
      visit_stmts finalbody (visit_stmts orelse v)
  | Expr value => visit_expr value v
  | Pass => v
  end.

Fixpoint visit_stmts (l : list stmt) (v : GetHyperEdgeNames) : GetHyperEdgeNames :=
  match l with
  | [] => v
  | s :: l => visit_stmts l (visit_stmt s v)
  end.

(** [__call__] and [get_hyperedge_lvals_and_rvals]: the two sets the
    visitor's attributes refer to when the visit is over. *)
Definition result (v : GetHyperEdgeNames) : gset string * gset string :=
  (deref v (lval_name_set v), deref v (rval_name_set v)).

Definition get_hyperedge_lvals_and_rvals (node : stmt) : gset string * gset string :=
  result (visit_stmt node init).

(** *** The lambdas of a statement

    The parameter names of the lambdas that the visitor reaches in an
    expression: it does not go into the index of a subscript, nor into the
    annotations of parameters. *)
Fixpoint lambda_params (e : expr) {struct e} : list string :=
  let of_list :=
    fix go (l : list expr) {struct l} : list string :=
      match l with
      | [] => []
      | e :: l => lambda_params e ++ go l
      end in
  match e with
  | Name _ _ | Constant _ => []
  | Attribute value _ _ => lambda_params value
  | Subscript value _ _ => lambda_params value
  | Call func args keywords =>
      lambda_params func ++ of_list args
      ++ (fix go (l : list keyword) {struct l} : list string :=
            match l with
            | [] => []
            | Keyword _ value :: l => lambda_params value ++ go l
            end) keywords
  | BinOp l _ r => lambda_params l ++ lambda_params r
  | List_ elts _ => of_list elts
  | Tuple elts _ => of_list elts
  | Lambda args body =>
      lambda_params body ++ lambda_params_arguments args ++ bound_names args
  end
with lambda_params_arguments (a : arguments) {struct a} : list string :=
  match a with
  | Arguments _ _ _ kw_defaults _ defaults =>
      (fix go (l : list expr) {struct l} : list string :=
         match l with
         | [] => []
         | e :: l => lambda_params e ++ go l
         end) defaults
      ++ (fix go (l : list (option expr)) {struct l} : list string :=
            match l with
            | [] => []
            | None :: l => go l
            | Some e :: l => lambda_params e ++ go l
            end) kw_defaults
  end.

Fixpoint lambda_params_list (l : list expr) : list string :=
  match l with
  | [] => []
  | e :: l => lambda_params e ++ lambda_params_list l
  end.

Fixpoint lambda_params_keywords (l : list keyword) : list string :=
  match l with
  | [] => []
  | Keyword _ value :: l => lambda_params value ++ lambda_params_keywords l
  end.

Fixpoint lambda_params_opts (l : list (option expr)) : list string :=
  match l with
  | [] => []
  | None :: l => lambda_params_opts l
  | Some e :: l => lambda_params e ++ lambda_params_opts l
  end.

Definition lambda_params_withitem (w : withitem) : list string :=
  lambda_params (context_expr w)
  ++ match optional_vars w with Some e => lambda_params e | None => [] end.

(** The body the line-by-line visitor is given for a compound statement: a
    placeholder, [pass] statements only. *)
Definition placeholder (body : list stmt) : Prop := Forall (eq Pass) body.

(** The statements whose lambdas come last: the simple statements, the
    headers of loops and definitions, and the headers of the other compound
    statements with placeholder bodies.  In an assignment, an augmented
    assignment and a [for] header, what comes last is the assigned value or
    the iterable, and the lambdas meant are those of that part. *)
Inductive header : stmt → list string → Prop :=
| header_Expr value : header (Expr value) (lambda_params value)
| header_Return value : header (Return (Some value)) (lambda_params value)
| header_Assign targets value : header (Assign targets value) (lambda_params value)
| header_AugAssign target op value :
    header (AugAssign target op value) (lambda_params value)
| header_For target iter body orelse :
    header (For target iter body orelse) (lambda_params iter)
| header_FunctionDef name args body decorator_list returns :
    header (FunctionDef name args body decorator_list returns)
           (lambda_params_arguments args)
| header_AsyncFunctionDef name args body decorator_list returns :
    header (AsyncFunctionDef name args body decorator_list returns)
           (lambda_params_arguments args)
| header_While test body orelse :
    placeholder body → placeholder orelse →
    header (While test body orelse) (lambda_params test)
| header_If test body orelse :
    placeholder body → placeholder orelse →
    header (If test body orelse) (lambda_params test)
| header_With items body :
    placeholder body →
    header (With items body) (concat (map lambda_params_withitem items))
| header_ClassDef name bases keywords body decorator_list :
    placeholder body →
    header (ClassDef name bases keywords body decorator_list)
           (lambda_params_list bases ++ lambda_params_keywords keywords
            ++ lambda_params_list decorator_list).

(** *** The names of an expression

    The names the visitor meets in an expression: the [id] of its [Name]
    nodes, those in the index of a subscript left out; for a lambda, the
    names of its body and default values less its parameters. *)
Fixpoint names (e : expr) {struct e} : gset string :=
  let of_list :=
    fix go (l : list expr) {struct l} : gset string :=
      match l with
      | [] => ∅
      | e :: l => names e ∪ go l
      end in
  match e with
  | Name id _ => {[id]}
  | Constant _ => ∅
  | Attribute value _ _ => names value
  | Subscript value _ _ => names value
  | Call func args keywords =>
      names func ∪ of_list args
      ∪ (fix go (l : list keyword) {struct l} : gset string :=
           match l with
           | [] => ∅
           | Keyword _ value :: l => names value ∪ go l
           end) keywords
  | BinOp l _ r => names l ∪ names r
  | List_ elts _ => of_list elts
  | Tuple elts _ => of_list elts
  | Lambda args body =>
      (names body ∪ names_arguments args) ∖ list_to_set (bound_names args)
  end
with names_arguments (a : arguments) {struct a} : gset string :=
  match a with
  | Arguments _ _ _ kw_defaults _ defaults =>
      (fix go (l : list expr) {struct l} : gset string :=
         match l with
         | [] => ∅
         | e :: l => names e ∪ go l
         end) defaults
      ∪ (fix go (l : list (option expr)) {struct l} : gset string :=
           match l with
           | [] => ∅
           | None :: l => go l
           | Some e :: l => names e ∪ go l
           end) kw_defaults
  end.

Fixpoint names_list (l : list expr) : gset string :=
  match l with
  | [] => ∅
  | e :: l => names e ∪ names_list l
  end.

Fixpoint names_keywords (l : list keyword) : gset string :=
  match l with
  | [] => ∅
  | Keyword _ value :: l => names value ∪ names_keywords l
  end.

Fixpoint names_opts (l : list (option expr)) : gset string :=
  match l with
  | [] => ∅
  | None :: l => names_opts l
  | Some e :: l => names e ∪ names_opts l
  end.

(** Does the visitor meet a lambda in an expression? *)
Fixpoint has_lambda (e : expr) {struct e} : bool :=
  let in_list :=
    fix go (l : list expr) {struct l} : bool :=
      match l with
      | [] => false
      | e :: l => has_lambda e || go l
      end in
  match e with
  | Name _ _ | Constant _ => false
  | Attribute value _ _ => has_lambda value
  | Subscript value _ _ => has_lambda value
  | Call func args keywords =>
      has_lambda func || in_list args
      || (fix go (l : list keyword) {struct l} : bool :=
            match l with
            | [] => false
            | Keyword _ value :: l => has_lambda value || go l
            end) keywords
  | BinOp l _ r => has_lambda l || has_lambda r
  | List_ elts _ => in_list elts
  | Tuple elts _ => in_list elts
  | Lambda _ _ => true
  end.

Fixpoint has_lambda_list (l : list expr) : bool :=
  match l with
  | [] => false
  | e :: l => has_lambda e || has_lambda_list l
  end.

Fixpoint has_lambda_keywords (l : list keyword) : bool :=
  match l with
  | [] => false
  | Keyword _ value :: l => has_lambda value || has_lambda_keywords l
  end.

Fixpoint has_lambda_opts (l : list (option expr)) : bool :=
  match l with
  | [] => false
  | None :: l => has_lambda_opts l
  | Some e :: l => has_lambda e || has_lambda_opts l
  end.

Definition has_lambda_arguments (a : arguments) : bool :=
  match a with
  | Arguments _ _ _ kw_defaults _ defaults =>
      has_lambda_list defaults || has_lambda_opts kw_defaults
  end.

(** [s.update(names)] on the set [to_add_set] refers to. *)
Definition add_names (ns : gset string) (v : GetHyperEdgeNames) : GetHyperEdgeNames :=
  {| sets := alter (fun s => ns ∪ s) (to_add_set v) (sets v);
     lval_name_set := lval_name_set v;
     rval_name_set := rval_name_set v;
     to_add_set := to_add_set v |}.

End Hyperedge.

(** ** [nbsafety/tracing/stmt_inserter.py] *)

Module StmtInserter.
Import Ast.

(** A cell is parsed to an [ast.Module], whose only field is [body]. *)
Record module_ := Module { mod_body : list stmt }.

Section Inserter.

(** The constructor arguments.  [insert_stmt_template site_id] stands for
    [ast.parse(self._insert_stmt_template.format(site_id=site_id)).body[0]],
    the statement obtained from the template at a site identifier
    [(cell_counter, cur_line_id)].  Source positions are not part of the
    syntax here, so [ast.copy_location] has nothing to copy. *)
Variable insert_stmt_template : Z * nat → stmt.
Variable cell_counter : Z.

(** The only attribute that changes is [_cur_line_id]: the functions below
    take its value and return the new one with their result.

    [_get_parsed_insert_stmt] *)
Definition _get_parsed_insert_stmt (cur_line_id : nat) : stmt * nat :=
  (insert_stmt_template (cell_counter, cur_line_id), S cur_line_id).

(** [visit].  A node with a [handlers] attribute is a [Try]; the nodes with
    a [body] attribute that is a list of statements are the module, the
    compound statements and the exception handlers.  [orelse] and
    [finalbody] are not looked at. *)
Fixpoint visit (node : stmt) (cur_line_id : nat) {struct node} : stmt * nat :=
  let visit_body :=
    fix go (l : list stmt) (cur_line_id : nat) {struct l} : list stmt * nat :=
      match l with
      | [] => ([], cur_line_id)
      | s :: l =>
          let '(insert_stmt, cur_line_id) := _get_parsed_insert_stmt cur_line_id in
          let '(s', cur_line_id) := visit s cur_line_id in
          let '(l', cur_line_id) := go l cur_line_id in
          (insert_stmt :: s' :: l', cur_line_id)
      end in
  match node with
  | FunctionDef name args body decorator_list returns =>
      let '(body', cur_line_id) := visit_body body cur_line_id in
      (FunctionDef name args body' decorator_list returns, cur_line_id)
  | AsyncFunctionDef name args body decorator_list returns =>
      let '(body', cur_line_id) := visit_body body cur_line_id in
      (AsyncFunctionDef name args body' decorator_list returns, cur_line_id)
  | ClassDef name bases keywords body decorator_list =>
      let '(body', cur_line_id) := visit_body body cur_line_id in
      (ClassDef name bases keywords body' decorator_list, cur_line_id)
  | For target iter body orelse =>
      let '(body', cur_line_id) := visit_body body cur_line_id in
      (For target iter body' orelse, cur_line_id)
  | While test body orelse =>
      let '(body', cur_line_id) := visit_body body cur_line_id in
      (While test body' orelse, cur_line_id)
  | If test body orelse =>
      let '(body', cur_line_id) := visit_body body cur_line_id in
      (If test body' orelse, cur_line_id)
  | With items body =>
      let '(body', cur_line_id) := visit_body body cur_line_id in
      (With items body', cur_line_id)
  | Try body handlers orelse finalbody =>
      let '(handlers', cur_line_id) :=
        (fix go (l : list excepthandler) (cur_line_id : nat) {struct l}
           : list excepthandler * nat :=
           match l with
           | [] => ([], cur_line_id)
           | ExceptHandler type name hbody :: l =>
               let '(hbody', cur_line_id) := visit_body hbody cur_line_id in
               let '(l', cur_line_id) := go l cur_line_id in
               (ExceptHandler type name hbody' :: l', cur_line_id)
           end) handlers cur_line_id in
      let '(body', cur_line_id) := visit_body body cur_line_id in
      (Try body' handlers' orelse finalbody, cur_line_id)
  | Return _ | Assign _ _ | AugAssign _ _ _ | Expr _ | Pass =>
      (node, cur_line_id)                      (* no [body] attribute *)
  end.

(** The loop over [node.body], as a function of its own. *)
Fixpoint visit_body (l : list stmt) (cur_line_id : nat) : list stmt * nat :=
  match l with
  | [] => ([], cur_line_id)
  | s :: l =>
      let '(insert_stmt, cur_line_id) := _get_parsed_insert_stmt cur_line_id in
      let '(s', cur_line_id) := visit s cur_line_id in
      let '(l', cur_line_id) := visit_body l cur_line_id in
      (insert_stmt :: s' :: l', cur_line_id)
  end.

(** The loop over [node.handlers]: [visit] on an exception handler, which
    has a [body] and no [handlers]. *)
Fixpoint visit_handlers (l : list excepthandler) (cur_line_id : nat)
    : list excepthandler * nat :=
  match l with
  | [] => ([], cur_line_id)
  | ExceptHandler type name hbody :: l =>
      let '(hbody', cur_line_id) := visit_body hbody cur_line_id in
      let '(l', cur_line_id) := visit_handlers l cur_line_id in
      (ExceptHandler type name hbody' :: l', cur_line_id)
  end.

(** [visit] on the module of a cell; a new inserter starts at
    [_cur_line_id = 0]. *)
Definition visit_Module (m : module_) (cur_line_id : nat) : module_ * nat :=
  let '(body', cur_line_id) := visit_body (mod_body m) cur_line_id in
  (Module body', cur_line_id).

Definition instrument (m : module_) : module_ := (visit_Module m 0).1.

(** *** Where the markers are to be

    [marked_stmt ids node node'] says that [node'] is [node] with a marker
    in front of every statement of the statement sequences it holds, and
    that the site identifiers of these markers have the line numbers [ids],
    listed in the order in which the inserter makes the markers: the marker
    of a statement, the markers inside that statement, then those of the
    statements after it; for a [Try], those of the handlers come before
    those of the body, as the inserter visits [handlers] first.

    The sequences meant are the [body] of a compound statement and of an
    exception handler.  With [everywhere = true] the [orelse] of a loop, of
    an [If] and of a [Try] and the [finalbody] of a [Try] are meant as
    well; with [everywhere = false] these are to stay as they were. *)
Section Marked.

Variable everywhere : bool.

Inductive marked_stmt : list nat → stmt → stmt → Prop :=
| marked_FunctionDef ids name args body body' decorator_list returns :
    marked_body ids body body' →
    marked_stmt ids (FunctionDef name args body decorator_list returns)
                    (FunctionDef name args body' decorator_list returns)
| marked_AsyncFunctionDef ids name args body body' decorator_list returns :
    marked_body ids body body' →
    marked_stmt ids (AsyncFunctionDef name args body decorator_list returns)
                    (AsyncFunctionDef name args body' decorator_list returns)
| marked_ClassDef ids name bases keywords body body' decorator_list :
    marked_body ids body body' →
    marked_stmt ids (ClassDef name bases keywords body decorator_list)
                    (ClassDef name bases keywords body' decorator_list)
| marked_For ids ids_else target iter body body' orelse orelse' :
    marked_body ids body body' → marked_rest ids_else orelse orelse' →
    marked_stmt (ids ++ ids_else) (For target iter body orelse)
                                  (For target iter body' orelse')
| marked_While ids ids_else test body body' orelse orelse' :
    marked_body ids body body' → marked_rest ids_else orelse orelse' →
    marked_stmt (ids ++ ids_else) (While test body orelse) (While test body' orelse')
| marked_If ids ids_else test body body' orelse orelse' :
    marked_body ids body body' → marked_rest ids_else orelse orelse' →
    marked_stmt (ids ++ ids_else) (If test body orelse) (If test body' orelse')
| marked_With ids items body body' :
    marked_body ids body body' →
    marked_stmt ids (With items body) (With items body')
| marked_Try ids_handlers ids ids_else ids_final
             body body' handlers handlers' orelse orelse' finalbody finalbody' :
    marked_handlers ids_handlers handlers handlers' →
    marked_body ids body body' →
    marked_rest ids_else orelse orelse' →
    marked_rest ids_final finalbody finalbody' →
    marked_stmt (ids_handlers ++ ids ++ ids_else ++ ids_final)
                (Try body handlers orelse finalbody)
                (Try body' handlers' orelse' finalbody')
| marked_Return value : marked_stmt [] (Return value) (Return value)
| marked_Assign targets value : marked_stmt [] (Assign targets value) (Assign targets value)
| marked_AugAssign target op value :
    marked_stmt [] (AugAssign target op value) (AugAssign target op value)
| marked_Expr value : marked_stmt [] (Expr value) (Expr value)
| marked_Pass : marked_stmt [] Pass Pass
with marked_body : list nat → list stmt → list stmt → Prop :=
| marked_body_nil : marked_body [] [] []
| marked_body_cons line_id ids ids' s s' l l' :
    marked_stmt ids s s' → marked_body ids' l l' →
    marked_body (line_id :: ids ++ ids') (s :: l)
                (insert_stmt_template (cell_counter, line_id) :: s' :: l')
with marked_handlers : list nat → list excepthandler → list excepthandler → Prop :=
| marked_handlers_nil : marked_handlers [] [] []
| marked_handlers_cons ids ids' type name hbody hbody' l l' :
    marked_body ids hbody hbody' → marked_handlers ids' l l' →
    marked_handlers (ids ++ ids') (ExceptHandler type name hbody :: l)
                    (ExceptHandler type name hbody' :: l')
with marked_rest : list nat → list stmt → list stmt → Prop :=
| marked_rest_as_body ids l l' :
    everywhere = true → marked_body ids l l' → marked_rest ids l l'
| marked_rest_untouched l :
    everywhere = false → marked_rest [] l l.

End Marked.

(** The line numbers are handed out in strictly increasing order. *)
Definition strictly_increasing (ids : list nat) : Prop :=
  ∀ i j a b, ids !! i = Some a → ids !! j = Some b → i < j → a < b.

End Inserter.
End StmtInserter.

(** ** Python exceptions, as far as these programs raise or catch them *)

Module Py.

Inductive exception :=
| ValueError (msg : string)
| AssertionError
| AttributeError
| KeyError
| TypeError
| IndexError.

End Py.

(** ** [nbsafety/tracing/attribute_tracing.py]: the rewriting pass *)

Module AttrSubTransformer.
Import Ast Py.

(** [AttrSubTracingNodeTransformer]: the three hook names given to the
    constructor and the flag the pass changes while it runs. *)
Record AttrSubTracingNodeTransformer := mkTransformer {
  start_tracer : string;
  end_tracer : string;
  arg_recorder : string;
  inside_attrsub_load_chain : bool
}.

Definition set_inside (b : bool) (t : AttrSubTracingNodeTransformer)
    : AttrSubTracingNodeTransformer :=
  {| start_tracer := start_tracer t; end_tracer := end_tracer t;
     arg_recorder := arg_recorder t; inside_attrsub_load_chain := b |}.

(** A visit changes the transformer and returns a node, or raises. *)
Definition M (A : Type) : Type :=
  AttrSubTracingNodeTransformer → exception + (A * AttrSubTracingNodeTransformer).

Definition ret {A} (a : A) : M A := fun t => inr (a, t).
Definition raise {A} (e : exception) : M A := fun _ => inl e.
Definition bind {A B} (k : A → M B) (m : M A) : M B :=
  fun t => match m t with
           | inl e => inl e
           | inr (a, t) => k a t
           end.
Definition get : M AttrSubTracingNodeTransformer := fun t => inr (t, t).

#[local] Instance M_ret : MRet M := @ret.
#[local] Instance M_bind : MBind M := @bind.

(** [attrsub_load_context]: the flag is set for the block and put back to
    its former value when the block ends normally (the generator has no
    [try]: an exception leaves the flag as it is). *)
Definition attrsub_load_context {A} (override : bool) (block : M A) : M A :=
  fun t =>
    let old := inside_attrsub_load_chain t in
    match block (set_inside override t) with
    | inl e => inl e
    | inr (a, t) => inr (a, set_inside old t)
    end.

Definition ctx_name (c : expr_context) : string :=
  match c with
  | Load => "Load" | Store => "Store" | Del => "Del"
  | AugLoad => "AugLoad" | AugStore => "AugStore" | Param => "Param"
  end.

Definition is_Load (c : expr_context) : bool :=
  match c with Load => true | _ => false end.

(** The accessed part of an [Attribute] ([attr]) or a [Subscript] ([slice]). *)
Inductive accessor :=
| AttrOf (attr : string)
| SliceOf (s : slice).

Definition rebuild (value : expr) (a : accessor) (ctx : expr_context) : expr :=
  match a with
  | AttrOf attr => Attribute value attr ctx
  | SliceOf s => Subscript value s ctx
  end.

(** The call to the start tracer built by [visit_Attribute_or_Subscript]. *)
Definition start_call (tracer : string) (value attr_or_sub : expr)
    (is_subscript : bool) (ctx : expr_context)
    (call_context override_active_scope : bool) : expr :=
  Call (Name tracer Load)
       [value; attr_or_sub; Constant (CBool is_subscript);
        Constant (CStr (ctx_name ctx)); Constant (CBool call_context);
        Constant (CBool override_active_scope)]
       [].

Definition end_call (tracer : string) (node : expr) : expr :=
  Call (Name tracer Load) [node] [].

(** [visit_Attribute_or_Subscript], for the node [rebuild value a ctx];
    [visit] is the method [self.visit]. *)
Definition visit_Attribute_or_Subscript (visit : expr → M expr)
    (value : expr) (a : accessor) (ctx : expr_context) (call_context : bool)
    : M expr :=
  t ← get;
  let override_active_scope := is_Load ctx || inside_attrsub_load_chain t in
  let is_subscript := match a with SliceOf _ => true | AttrOf _ => false end in
  attr_or_sub ←
    match a with
    | SliceOf (Index v) => ret v
    | SliceOf (Slice _ _ _) => raise (ValueError "unimpled slice")
    | SliceOf (ExtSlice _) => raise (ValueError "unimpled slice")
    | AttrOf attr => ret (Constant (CStr attr))
    end;
  value' ← attrsub_load_context override_active_scope (visit value);
  let replacement_value :=
    start_call (start_tracer t) value' attr_or_sub is_subscript ctx
               call_context override_active_scope in
  let node := rebuild replacement_value a ctx in
  t ← get;
  if negb (inside_attrsub_load_chain t) && override_active_scope
  then ret (end_call (end_tracer t) node)
  else ret node.

(** [visit]: [Attribute], [Subscript] and [Call] have methods; every other
    node goes through [NodeTransformer.generic_visit], which visits the
    children in field order and puts the results in their place. *)
Fixpoint visit (e : expr) {struct e} : M expr :=
  let visit_list :=
    fix go (l : list expr) {struct l} : M (list expr) :=
      match l with
      | [] => ret []
      | e :: l => e' ← visit e; l' ← go l; ret (e' :: l')
      end in
  match e with
  | Attribute value attr ctx =>                           (* visit_Attribute *)
      visit_Attribute_or_Subscript visit value (AttrOf attr) ctx false
  | Subscript value s ctx =>                              (* visit_Subscript *)
      visit_Attribute_or_Subscript visit value (SliceOf s) ctx false
  | Call func args keywords =>                            (* visit_Call *)
      match func with
      | Attribute value attr ctx =>
          if negb (is_Load ctx) then raise AssertionError else
          func' ← attrsub_load_context true
                    (visit_Attribute_or_Subscript visit value (AttrOf attr) ctx true);
          replacement_args ←
            (fix go (l : list expr) {struct l} : M (list expr) :=
               match l with
               | [] => ret []
               | arg :: l =>
                   arg' ←
                     match arg with
                     | Name id _ =>
                         t ← get;
                         ret (Call (Name (arg_recorder t) Load)
                                   [arg; Constant (CStr id)] [])
                     | _ => attrsub_load_context false (visit arg)
                     end;
                   l' ← go l;
                   ret (arg' :: l')
               end) args;
          let node := Call func' replacement_args keywords in
          t ← get;
          if inside_attrsub_load_chain t then ret node
          else ret (end_call (end_tracer t) node)
      | _ => ret e
      end
  | Name _ _ | Constant _ => ret e
  | BinOp l op r => l' ← visit l; r' ← visit r; ret (BinOp l' op r')
  | List_ elts ctx => elts' ← visit_list elts; ret (List_ elts' ctx)
  | Tuple elts ctx => elts' ← visit_list elts; ret (Tuple elts' ctx)
  | Lambda args body =>
      args' ← visit_arguments args;
      body' ← visit body;
      ret (Lambda args' body')
  end
with visit_arguments (a : arguments) {struct a} : M arguments :=
  let visit_args :=
    fix go (l : list arg) {struct l} : M (list arg) :=
      match l with
      | [] => ret []
      | x :: l => x' ← visit_arg x; l' ← go l; ret (x' :: l')
      end in
  let visit_arg_opt (o : option arg) : M (option arg) :=
    match o with
    | None => ret None
    | Some x => x' ← visit_arg x; ret (Some x')
    end in
  match a with
  | Arguments args vararg kwonlyargs kw_defaults kwarg defaults =>
      args' ← visit_args args;
      vararg' ← visit_arg_opt vararg;
      kwonlyargs' ← visit_args kwonlyargs;
      kw_defaults' ←
        (fix go (l : list (option expr)) {struct l} : M (list (option expr)) :=
           match l with
           | [] => ret []
           | None :: l => l' ← go l; ret (None :: l')
           | Some e :: l => e' ← visit e; l' ← go l; ret (Some e' :: l')
           end) kw_defaults;
      kwarg' ← visit_arg_opt kwarg;
      defaults' ←
        (fix go (l : list expr) {struct l} : M (list expr) :=
           match l with
           | [] => ret []
           | e :: l => e' ← visit e; l' ← go l; ret (e' :: l')
           end) defaults;
      ret (Arguments args' vararg' kwonlyargs' kw_defaults' kwarg' defaults')
  end
with visit_arg (a : arg) {struct a} : M arg :=
  match a with
  | Arg name None => ret a
  | Arg name (Some ann) => ann' ← visit ann; ret (Arg name (Some ann'))
  end.

(** The loops of the pass over lists of nodes, as functions of their own:
    the loop of [generic_visit] over a list of expressions, the loop of
    [visit_Call] over the arguments, and the loops over the parts of an
    [arguments] node. *)
Fixpoint visit_list (l : list expr) : M (list expr) :=
  match l with
  | [] => ret []
  | e :: l => e' ← visit e; l' ← visit_list l; ret (e' :: l')
  end.

Fixpoint visit_call_args (l : list expr) : M (list expr) :=
  match l with
  | [] => ret []
  | arg :: l =>
      arg' ←
        match arg with
        | Name id _ =>
            t ← get;
            ret (Call (Name (arg_recorder t) Load) [arg; Constant (CStr id)] [])
        | _ => attrsub_load_context false (visit arg)
        end;
      l' ← visit_call_args l;
      ret (arg' :: l')
  end.

Fixpoint visit_args (l : list arg) : M (list arg) :=
  match l with
  | [] => ret []
  | x :: l => x' ← visit_arg x; l' ← visit_args l; ret (x' :: l')
  end.

Definition visit_arg_opt (o : option arg) : M (option arg) :=
  match o with
  | None => ret None
  | Some x => x' ← visit_arg x; ret (Some x')
  end.

Fixpoint visit_opt_list (l : list (option expr)) : M (list (option expr)) :=
  match l with
  | [] => ret []
  | None :: l => l' ← visit_opt_list l; ret (None :: l')
  | Some e :: l => e' ← visit e; l' ← visit_opt_list l; ret (Some e' :: l')
  end.

(** *** Accesses in an expression, before and after the pass *)

(** Does a node hold an attribute or a subscript access, anywhere below it
    (slices, keywords, annotations and default values included)? *)
Fixpoint has_access (e : expr) {struct e} : bool :=
  let in_list :=
    fix go (l : list expr) {struct l} : bool :=
      match l with
      | [] => false
      | e :: l => has_access e || go l
      end in
  match e with
  | Name _ _ | Constant _ => false
  | Attribute _ _ _ | Subscript _ _ _ => true
  | Call func args keywords =>
      has_access func || in_list args
      || (fix go (l : list keyword) {struct l} : bool :=
            match l with
            | [] => false
            | Keyword _ value :: l => has_access value || go l
            end) keywords
  | BinOp l _ r => has_access l || has_access r
  | List_ elts _ => in_list elts
  | Tuple elts _ => in_list elts
  | Lambda args body => has_access_arguments args || has_access body
  end
with has_access_arguments (a : arguments) {struct a} : bool :=
  let in_args :=
    fix go (l : list arg) {struct l} : bool :=
      match l with
      | [] => false
      | x :: l => has_access_arg x || go l
      end in
  let in_arg_opt (o : option arg) : bool :=
    match o with Some x => has_access_arg x | None => false end in
  match a with
  | Arguments args vararg kwonlyargs kw_defaults kwarg defaults =>
      in_args args || in_arg_opt vararg || in_args kwonlyargs
      || (fix go (l : list (option expr)) {struct l} : bool :=
            match l with
            | [] => false
            | None :: l => go l
            | Some e :: l => has_access e || go l
            end) kw_defaults
      || in_arg_opt kwarg
      || (fix go (l : list expr) {struct l} : bool :=
            match l with
            | [] => false
            | e :: l => has_access e || go l
            end) defaults
  end
with has_access_arg (a : arg) {struct a} : bool :=
  match a with
  | Arg _ None => false
  | Arg _ (Some ann) => has_access ann
  end.

Definition has_access_keyword (k : keyword) : bool :=
  match k with Keyword _ value => has_access value end.

Definition is_Name (e : expr) : bool :=
  match e with Name _ _ => true | _ => false end.

(** The expressions in which the pass reaches every access: a call has an
    attribute access as its callee, read in [Load] context, and no access
    in its keyword arguments, or else it holds no access at all; the index
    of a subscript is a plain index and holds no access. *)
Fixpoint covered (e : expr) {struct e} : Prop :=
  let all :=
    fix go (l : list expr) {struct l} : Prop :=
      match l with
      | [] => True
      | e :: l => covered e ∧ go l
      end in
  match e with
  | Name _ _ | Constant _ => True
  | Attribute value _ _ => covered value
  | Subscript value (Index key) _ => covered value ∧ has_access key = false
  | Subscript _ _ _ => False
  | Call func args keywords =>
      match func with
      | Attribute value _ ctx =>
          ctx = Load ∧ covered value ∧ all args
          ∧ forallb (fun k => negb (has_access_keyword k)) keywords = true
      | _ => has_access e = false
      end
  | BinOp l _ r => covered l ∧ covered r
  | List_ elts _ => all elts
  | Tuple elts _ => all elts
  | Lambda args body => covered_arguments args ∧ covered body
  end
with covered_arguments (a : arguments) {struct a} : Prop :=
  let all_args :=
    fix go (l : list arg) {struct l} : Prop :=
      match l with
      | [] => True
      | x :: l => covered_arg x ∧ go l
      end in
  let arg_opt (o : option arg) : Prop :=
    match o with Some x => covered_arg x | None => True end in
  match a with
  | Arguments args vararg kwonlyargs kw_defaults kwarg defaults =>
      all_args args ∧ arg_opt vararg ∧ all_args kwonlyargs
      ∧ (fix go (l : list (option expr)) {struct l} : Prop :=
           match l with
           | [] => True
           | None :: l => go l
           | Some e :: l => covered e ∧ go l
           end) kw_defaults
      ∧ arg_opt kwarg
      ∧ (fix go (l : list expr) {struct l} : Prop :=
           match l with
           | [] => True
           | e :: l => covered e ∧ go l
           end) defaults
  end
with covered_arg (a : arg) {struct a} : Prop :=
  match a with
  | Arg _ None => True
  | Arg _ (Some ann) => covered ann
  end.

(** The expressions in which every access is instrumented: the base of
    every attribute and subscript node, wherever it stands, is a call of
    the start tracer with six arguments, a base value, the literal of the
    accessed name or the index, the subscript flag of the node, the name of
    the context of the node, a call-position flag and an override flag. *)
Section Instrumented.

Variable tracer : string.

Definition is_start_call (value attr_or_sub : expr) (is_subscript : bool)
    (ctx : expr_context) : Prop :=
  ∃ base call_context override_active_scope,
    value = start_call tracer base attr_or_sub is_subscript ctx
              call_context override_active_scope.

Fixpoint instrumented (e : expr) {struct e} : Prop :=
  let all :=
    fix go (l : list expr) {struct l} : Prop :=
      match l with
      | [] => True
      | e :: l => instrumented e ∧ go l
      end in
  match e with
  | Name _ _ | Constant _ => True
  | Attribute value attr ctx =>
      is_start_call value (Constant (CStr attr)) false ctx ∧ instrumented value
  | Subscript value s ctx =>
      match s with
      | Index key => is_start_call value key true ctx
      | _ => False
      end
      ∧ instrumented value ∧ instrumented_slice s
  | Call func args keywords =>
      instrumented func ∧ all args
      ∧ (fix go (l : list keyword) {struct l} : Prop :=
           match l with
           | [] => True
           | Keyword _ value :: l => instrumented value ∧ go l
           end) keywords
  | BinOp l _ r => instrumented l ∧ instrumented r
  | List_ elts _ => all elts
  | Tuple elts _ => all elts
  | Lambda args body => instrumented_arguments args ∧ instrumented body
  end
with instrumented_slice (s : slice) {struct s} : Prop :=
  let opt (o : option expr) : Prop :=
    match o with Some e => instrumented e | None => True end in
  match s with
  | Index value => instrumented value
  | Slice lower upper step => opt lower ∧ opt upper ∧ opt step
  | ExtSlice dims =>
      (fix go (l : list slice) {struct l} : Prop :=
         match l with
         | [] => True
         | s :: l => instrumented_slice s ∧ go l
         end) dims
  end
with instrumented_arguments (a : arguments) {struct a} : Prop :=
  let all_args :=
    fix go (l : list arg) {struct l} : Prop :=
      match l with
      | [] => True
      | x :: l => instrumented_arg x ∧ go l
      end in
  let arg_opt (o : option arg) : Prop :=
    match o with Some x => instrumented_arg x | None => True end in
  match a with
  | Arguments args vararg kwonlyargs kw_defaults kwarg defaults =>
      all_args args ∧ arg_opt vararg ∧ all_args kwonlyargs
      ∧ (fix go (l : list (option expr)) {struct l} : Prop :=
           match l with
           | [] => True
           | None :: l => go l
           | Some e :: l => instrumented e ∧ go l
           end) kw_defaults
      ∧ arg_opt kwarg
      ∧ (fix go (l : list expr) {struct l} : Prop :=
           match l with
           | [] => True
           | e :: l => instrumented e ∧ go l
           end) defaults
  end
with instrumented_arg (a : arg) {struct a} : Prop :=
  match a with
  | Arg _ None => True
  | Arg _ (Some ann) => instrumented ann
  end.

End Instrumented.

End AttrSubTransformer.

(** ** [nbsafety/tracing/attribute_tracing.py]: the tracing runtime *)

Module AttrTracing.
Import Py.

(** *** The host: Python objects as the hooks see them

    The hooks look at an object's identity, at whether it is [None], at the
    identity of its class, and they read one attribute or one item of it. *)

(** An attribute name or the value of a subscript. *)
Inductive PyKey :=
| KStr (s : string)
| KInt (n : Z).

#[global] Instance PyKey_eq_dec : EqDecision PyKey.
Proof. solve_decision. Defined.

Inductive PyObject := mkObject {
  py_id : Z;                                (* [id(obj)] *)
  py_is_None : bool;                        (* [obj is None] *)
  py_class_id : Z;                          (* [id(obj.__class__)] *)
  py_attrs : list (string * PyObject);      (* what [getattr] finds *)
  py_items : list (PyKey * PyObject)        (* what [obj[key]] finds *)
}.

Fixpoint assoc {K V} `{EqDecision K} (k : K) (l : list (K * V)) : option V :=
  match l with
  | [] => None
  | (k', v) :: l => if decide (k = k') then Some v else assoc k l
  end.

(** [getattr(obj, name)]: [AttributeError] when there is no such attribute;
    a name that is not a string is a [TypeError]. *)
Definition getattr (obj : PyObject) (name : PyKey) : exception + PyObject :=
  match name with
  | KStr s => match assoc s (py_attrs obj) with
              | Some v => inr v
              | None => inl AttributeError
              end
  | KInt _ => inl TypeError
  end.

(** [obj[key]]: [KeyError] when there is no such item. *)
Definition getitem (obj : PyObject) (key : PyKey) : exception + PyObject :=
  match assoc key (py_items obj) with
  | Some v => inr v
  | None => inl KeyError
  end.

(** *** Scopes and DataCells

    Scope and DataCell objects are shared (by [namespaces], [aliases], the
    active scope, the buffered stores): they live in two stores and are
    referred to by their index. *)
Definition scope_ref := nat.
Definition cell_ref := nat.

(** Modelled from the spec: [DataCell] ([nbsafety/data_cell.py] is not among
    the sources): "a tracked attribute/subscript binding inside a scope:
    name, last observed value's identity, owning scope,
    subscript-vs-attribute flag".  The constructor is called as
    [DataCell(name, obj, scope, is_subscript=...)]. *)
Record DataCell := mkDataCell {
  dc_name : PyKey;
  dc_obj : PyObject;
  dc_scope : scope_ref;
  dc_is_subscript : bool
}.

(** Modelled from the spec: [NamespaceScope] ([nbsafety/scope.py] is not
    among the sources): "a symbol table", a namespace scope is "keyed by the
    runtime identity of a specific object", "every scope (except the root)
    has exactly one parent, set at creation"; the DataCells are "looked up
    by name within a scope".  The constructor is called as
    [NamespaceScope(obj_id, scope_name, parent_scope=...)]; a lexical scope
    has no object identity. *)
Record Scope := mkScope {
  scope_obj_id : option Z;
  scope_name : PyKey;
  parent_scope : option scope_ref;
  data_cells : list (PyKey * cell_ref)
}.

Definition Mutation : Type := Z * list string.
Definition MutCand : Type := option (Z * Z).
Definition SavedStoreData : Type := scope_ref * PyObject * PyKey * bool.
Definition Frame : Type :=
  list SavedStoreData * gset Mutation * MutCand * gset string * scope_ref * scope_ref.

(** [AttributeTracingManager].  [trace_event_counter] is the one-element
    list shared with the state machine; [scopes] and [cells] are the stores
    of the Scope and DataCell objects.  [loaded_data_cells] is a Python set
    to which the code adds the value of a variable that can be [None]. *)
Record AttributeTracingManager := mkManager {
  scopes : list Scope;
  cells : list DataCell;
  namespaces : gmap Z scope_ref;
  aliases : gmap Z (gset cell_ref);
  original_active_scope : scope_ref;
  active_scope : scope_ref;
  trace_event_counter : Z;
  loaded_data_cells : gset (option cell_ref);
  saved_store_data : list SavedStoreData;
  mutations : gset Mutation;
  recorded_args : gset string;
  stack : list Frame;
  mutation_candidate : MutCand
}.

(** [__init__] *)
Definition init (namespaces : gmap Z scope_ref) (aliases : gmap Z (gset cell_ref))
    (scopes : list Scope) (cells : list DataCell)
    (active_scope : scope_ref) (trace_event_counter : Z) : AttributeTracingManager :=
  {| scopes := scopes; cells := cells;
     namespaces := namespaces; aliases := aliases;
     original_active_scope := active_scope; active_scope := active_scope;
     trace_event_counter := trace_event_counter;
     loaded_data_cells := ∅; saved_store_data := [];
     mutations := ∅; recorded_args := ∅; stack := [];
     mutation_candidate := None |}.

(** What a hook does: it returns a value or raises, and leaves the manager
    in a new state either way. *)
Inductive outcome (A : Type) :=
| Returns (a : A) (m : AttributeTracingManager)
| Raises (e : exception) (m : AttributeTracingManager).
Arguments Returns {A} a m.
Arguments Raises {A} e m.

Definition state_of {A} (o : outcome A) : AttributeTracingManager :=
  match o with Returns _ m | Raises _ m => m end.

(** Field updates. *)
Definition with_scopes f (m : AttributeTracingManager) :=
  mkManager (f (scopes m)) (cells m) (namespaces m) (aliases m)
    (original_active_scope m) (active_scope m) (trace_event_counter m)
    (loaded_data_cells m) (saved_store_data m) (mutations m) (recorded_args m)
    (stack m) (mutation_candidate m).
Definition with_cells f (m : AttributeTracingManager) :=
  mkManager (scopes m) (f (cells m)) (namespaces m) (aliases m)
    (original_active_scope m) (active_scope m) (trace_event_counter m)
    (loaded_data_cells m) (saved_store_data m) (mutations m) (recorded_args m)
    (stack m) (mutation_candidate m).
Definition with_namespaces f (m : AttributeTracingManager) :=
  mkManager (scopes m) (cells m) (f (namespaces m)) (aliases m)
    (original_active_scope m) (active_scope m) (trace_event_counter m)
    (loaded_data_cells m) (saved_store_data m) (mutations m) (recorded_args m)
    (stack m) (mutation_candidate m).
Definition with_aliases f (m : AttributeTracingManager) :=
  mkManager (scopes m) (cells m) (namespaces m) (f (aliases m))
    (original_active_scope m) (active_scope m) (trace_event_counter m)
    (loaded_data_cells m) (saved_store_data m) (mutations m) (recorded_args m)
    (stack m) (mutation_candidate m).
Definition with_active_scope s (m : AttributeTracingManager) :=
  mkManager (scopes m) (cells m) (namespaces m) (aliases m)
    (original_active_scope m) s (trace_event_counter m)
    (loaded_data_cells m) (saved_store_data m) (mutations m) (recorded_args m)
    (stack m) (mutation_candidate m).
Definition with_trace_event_counter c (m : AttributeTracingManager) :=
  mkManager (scopes m) (cells m) (namespaces m) (aliases m)
    (original_active_scope m) (active_scope m) c
    (loaded_data_cells m) (saved_store_data m) (mutations m) (recorded_args m)
    (stack m) (mutation_candidate m).
Definition with_loaded_data_cells f (m : AttributeTracingManager) :=
  mkManager (scopes m) (cells m) (namespaces m) (aliases m)
    (original_active_scope m) (active_scope m) (trace_event_counter m)
    (f (loaded_data_cells m)) (saved_store_data m) (mutations m) (recorded_args m)
    (stack m) (mutation_candidate m).
Definition with_saved_store_data f (m : AttributeTracingManager) :=
  mkManager (scopes m) (cells m) (namespaces m) (aliases m)
    (original_active_scope m) (active_scope m) (trace_event_counter m)
    (loaded_data_cells m) (f (saved_store_data m)) (mutations m) (recorded_args m)
    (stack m) (mutation_candidate m).
Definition with_mutations f (m : AttributeTracingManager) :=
  mkManager (scopes m) (cells m) (namespaces m) (aliases m)
    (original_active_scope m) (active_scope m) (trace_event_counter m)
    (loaded_data_cells m) (saved_store_data m) (f (mutations m)) (recorded_args m)
    (stack m) (mutation_candidate m).
Definition with_recorded_args f (m : AttributeTracingManager) :=
  mkManager (scopes m) (cells m) (namespaces m) (aliases m)
    (original_active_scope m) (active_scope m) (trace_event_counter m)
    (loaded_data_cells m) (saved_store_data m) (mutations m) (f (recorded_args m))
    (stack m) (mutation_candidate m).
Definition with_mutation_candidate c (m : AttributeTracingManager) :=
  mkManager (scopes m) (cells m) (namespaces m) (aliases m)
    (original_active_scope m) (active_scope m) (trace_event_counter m)
    (loaded_data_cells m) (saved_store_data m) (mutations m) (recorded_args m)
    (stack m) c.

(** *** Methods of the scope and cell objects *)

(** A new Scope object; returns its reference. *)
Definition new_scope (s : Scope) (m : AttributeTracingManager)
    : scope_ref * AttributeTracingManager :=
  (length (scopes m), with_scopes (fun l => l ++ [s]) m).

(** A new DataCell object; returns its reference. *)
Definition new_cell (c : DataCell) (m : AttributeTracingManager)
    : cell_ref * AttributeTracingManager :=
  (length (cells m), with_cells (fun l => l ++ [c]) m).

(** Modelled from the spec: [NamespaceScope.clone(obj_id)], "a namespace
    scope may be cloned from a class's namespace scope when first observed
    on an instance": a new scope for [obj_id] with the name, the parent and
    the cells of the class's scope. *)
Definition clone (class_scope : scope_ref) (obj_id : Z) (m : AttributeTracingManager)
    : scope_ref * AttributeTracingManager :=
  match scopes m !! class_scope with
  | Some s =>
      new_scope (mkScope (Some obj_id) (scope_name s) (parent_scope s) (data_cells s)) m
  | None =>
      new_scope (mkScope (Some obj_id) (KStr "<unknown namespace>") None []) m
  end.

(** Modelled from the spec: [lookup_data_cell_by_name_this_indentation]:
    the DataCell of that name in this very scope, or [None]. *)
Definition lookup_data_cell_by_name_this_indentation
    (scope : scope_ref) (name : PyKey) (m : AttributeTracingManager) : option cell_ref :=
  s ← scopes m !! scope; assoc name (data_cells s).

(** Modelled from the spec: [scope.put(name, data_cell)], in place. *)
Definition put (scope : scope_ref) (name : PyKey) (data_cell : cell_ref)
    (m : AttributeTracingManager) : AttributeTracingManager :=
  with_scopes
    (alter (fun s => mkScope (scope_obj_id s) (scope_name s) (parent_scope s)
                             ((name, data_cell) :: data_cells s)) scope) m.

(** [self.aliases[i]]: [aliases] is indexed at identities it may not have
    seen, so it is a [defaultdict(set)]. *)
Definition aliases_at (i : Z) (m : AttributeTracingManager) : gset cell_ref :=
  default ∅ (aliases m !! i).


(** *** The methods of the manager *)

(** [push_stack] *)
Definition push_stack (new_scope : scope_ref) (m : AttributeTracingManager)
    : AttributeTracingManager :=
  {| scopes := scopes m; cells := cells m;
     namespaces := namespaces m; aliases := aliases m;
     original_active_scope := new_scope;
     active_scope := new_scope;
     trace_event_counter := trace_event_counter m;
     loaded_data_cells := loaded_data_cells m;
     saved_store_data := [];
     mutations := ∅;
     recorded_args := ∅;
     stack := stack m ++ [(saved_store_data m, mutations m, mutation_candidate m,
                           recorded_args m, active_scope m, original_active_scope m)];
     mutation_candidate := mutation_candidate m |}.

(** The last item of a list and the items before it: [l.pop()] and [l[-1]]. *)
Definition unsnoc {A} (l : list A) : option (list A * A) :=
  match reverse l with
  | [] => None
  | x :: l' => Some (reverse l', x)
  end.

(** [pop_stack]; [list.pop] raises [IndexError] on an empty list. *)
Definition pop_stack (m : AttributeTracingManager) : outcome unit :=
  match unsnoc (stack m) with
  | None => Raises IndexError m
  | Some (rest, (ssd, muts, cand, rargs, act, orig)) =>
      Returns tt
        {| scopes := scopes m; cells := cells m;
           namespaces := namespaces m; aliases := aliases m;
           original_active_scope := orig;
           active_scope := act;
           trace_event_counter := trace_event_counter m;
           loaded_data_cells := loaded_data_cells m;
           saved_store_data := ssd;
           mutations := muts;
           recorded_args := rargs;
           stack := rest;
           mutation_candidate := cand |}
  end.

(** The part of [attrsub_tracer] that finds or makes the scope of [obj]:
    [scope = self.namespaces.get(obj_id, None)] and the block under
    [if scope is None]. *)
Definition resolve_scope (obj : PyObject) (is_subscript : bool)
    (m : AttributeTracingManager) : scope_ref * AttributeTracingManager :=
  let obj_id := py_id obj in
  match namespaces m !! obj_id with
  | Some scope => (scope, m)
  | None =>
      let class_scope := namespaces m !! py_class_id obj in
      match class_scope, is_subscript with
      | Some class_scope, false =>
          let '(scope, m) := clone class_scope obj_id m in
          (scope, with_namespaces (insert obj_id scope) m)
      | _, _ =>
          let found := aliases_at obj_id m in
          let m := with_aliases (insert obj_id found) m in
          let scope_name :=
            match elements found with
            | c :: _ => default (KStr "<unknown namespace>") (dc_name <$> cells m !! c)
            | [] => KStr "<unknown namespace>"          (* StopIteration *)
            end in
          let '(scope, m) :=
            new_scope (mkScope (Some obj_id) scope_name (Some (active_scope m)) []) m in
          (scope, with_namespaces (insert obj_id scope) m)
      end
  end.

(** The block under [if data_cell is None] in [attrsub_tracer]: the live
    value is read and a DataCell is made for it; [AttributeError] is the
    only exception that is caught, and then [data_cell] stays [None]. *)
Definition make_data_cell (scope : scope_ref) (obj : PyObject)
    (attr_or_subscript : PyKey) (is_subscript : bool)
    (m : AttributeTracingManager) : outcome (option cell_ref) :=
  match (if is_subscript then getitem obj attr_or_subscript
         else getattr obj attr_or_subscript) with
  | inr obj_attr_or_sub =>
      let '(data_cell, m) :=
        new_cell (mkDataCell attr_or_subscript obj_attr_or_sub scope is_subscript) m in
      let m := put scope attr_or_subscript data_cell m in
      let i := py_id obj_attr_or_sub in
      let m := with_aliases (insert i ({[data_cell]} ∪ aliases_at i m)) m in
      Returns (Some data_cell) m
  | inl AttributeError => Returns None m
  | inl e => Raises e m
  end.

(** [attrsub_tracer], the "begin" hook.  [ctx] is the name of the access
    context, a string.  The test [if scope is None] after the scope has been
    found or made never succeeds: [scope] is a scope object by then. *)
Definition attrsub_tracer (obj : PyObject) (attr_or_subscript : PyKey)
    (is_subscript : bool) (ctx : string) (call_context override_active_scope : bool)
    (m : AttributeTracingManager) : outcome PyObject :=
  if py_is_None obj then Returns obj m else
  let obj_id := py_id obj in
  let '(scope, m) := resolve_scope obj is_subscript m in
  let m := if override_active_scope then with_active_scope scope m else m in
  let after_load : outcome unit :=
    if decide (ctx = "Load") then
      if call_context then
        Returns tt (with_mutation_candidate (Some (trace_event_counter m, obj_id)) m)
      else
        let m := with_mutation_candidate None m in
        let found :=
          match lookup_data_cell_by_name_this_indentation scope attr_or_subscript m with
          | Some c => Returns (Some c) m
          | None => make_data_cell scope obj attr_or_subscript is_subscript m
          end in
        match found with
        | Returns data_cell m =>
            Returns tt (with_loaded_data_cells (fun s => {[data_cell]} ∪ s) m)
        | Raises e m => Raises e m
        end
    else Returns tt m in
  match after_load with
  | Raises e m => Raises e m
  | Returns _ m =>
      let m :=
        if decide (ctx = "Store" ∨ ctx = "AugStore") then
          with_saved_store_data
            (fun l => l ++ [(scope, obj, attr_or_subscript, is_subscript)]) m
        else m in
      Returns obj m
  end.

(** [tuple(s)] for a set [s]: the items of the set, each once, in the
    iteration order of the set, which Python leaves unspecified and which
    does not depend on the order of the insertions. *)
Definition tuple_of_set (s : gset string) : list string := elements s.

(** [expr_tracer], the "end" hook. *)
Definition expr_tracer (obj : PyObject) (m : AttributeTracingManager) : outcome PyObject :=
  let m :=
    match mutation_candidate m with
    | Some (evt_counter, obj_id) =>
        let m := with_mutation_candidate None m in
        if bool_decide (evt_counter = trace_event_counter m) && py_is_None obj
        then with_mutations
               (fun s => {[(obj_id, tuple_of_set (recorded_args m))]} ∪ s) m
        else m
    | None => m
    end in
  let m := with_active_scope (original_active_scope m) m in
  let m := with_recorded_args (fun _ => ∅) m in
  Returns obj m.

(** [arg_recorder] *)
Definition arg_recorder (obj : PyObject) (name : string) (m : AttributeTracingManager)
    : outcome PyObject :=
  Returns obj (with_recorded_args (fun s => {[name]} ∪ s) m).

(** [reset] *)
Definition reset (m : AttributeTracingManager) : AttributeTracingManager :=
  let m := with_loaded_data_cells (fun _ => ∅) m in
  let m := with_saved_store_data (fun _ => []) m in
  let m := with_mutations (fun _ => ∅) m in
  let m := with_mutation_candidate None m in
  with_active_scope (original_active_scope m) m.

(** *** Sequences of operations on the manager

    The hooks are called by the instrumented code, [push_stack],
    [pop_stack] and [reset] by the state machine, which also increments
    the shared event counter ([trace_event_counter[0] += 1]). *)
Inductive operation :=
| Begin (obj : PyObject) (attr_or_subscript : PyKey) (is_subscript : bool)
        (ctx : string) (call_context override_active_scope : bool)
| End_ (obj : PyObject)
| RecordArg (obj : PyObject) (name : string)
| Push (new_scope : scope_ref)
| Pop
| Reset
| CountEvent.

Definition step (o : operation) (m : AttributeTracingManager) : AttributeTracingManager :=
  match o with
  | Begin obj k s ctx cc ov => state_of (attrsub_tracer obj k s ctx cc ov m)
  | End_ obj => state_of (expr_tracer obj m)
  | RecordArg obj name => state_of (arg_recorder obj name m)
  | Push sc => push_stack sc m
  | Pop => state_of (pop_stack m)
  | Reset => reset m
  | CountEvent => with_trace_event_counter (trace_event_counter m + 1)%Z m
  end.

Definition run (l : list operation) (m : AttributeTracingManager) : AttributeTracingManager :=
  foldl (fun m o => step o m) m l.

(** The mutation records of all frames: those of the current frame and
    those saved on the stack. *)
Definition frame_mutations (f : Frame) : gset Mutation := f.1.1.1.1.2.
Definition frame_candidate (f : Frame) : MutCand := f.1.1.1.2.

Definition all_mutations (m : AttributeTracingManager) : gset Mutation :=
  mutations m ∪ ⋃ (frame_mutations <$> stack m).

(** How deep in pushed frames a sequence of operations ends when it starts
    [d] frames deep, or [None] when it pops a frame it has not pushed. *)
Fixpoint nesting (l : list operation) (d : nat) : option nat :=
  match l with
  | [] => Some d
  | Push _ :: l => nesting l (S d)
  | Pop :: l => match d with 0 => None | S d => nesting l d end
  | _ :: l => nesting l d
  end.

(** The operations between a push and the matching pop. *)
Definition balanced (l : list operation) : Prop := nesting l 0 = Some 0.

(** The six attributes [push_stack] saves and [pop_stack] restores. *)
Definition saved_fields (m : AttributeTracingManager) : Frame :=
  (saved_store_data m, mutations m, mutation_candidate m, recorded_args m,
   active_scope m, original_active_scope m).

End AttrTracing.

(** ** [nbsafety/tracing/trace_state.py] *)

Module TraceStateM.

(** [nbsafety.tracing.trace_events.TraceEvent] *)
Inductive TraceEvent := call | line | return_ | exception.

#[global] Instance TraceEvent_eq_dec : EqDecision TraceEvent.
Proof. solve_decision. Defined.

Definition stmt_ref := nat.

(** Modelled from the spec: [TraceStatement]
    ([nbsafety/tracing/trace_stmt.py] is not among the sources): a statement
    has "a finished flag, a list of call-point dependency sets contributed
    by calls/lambdas evaluated within it, a one-shot flag preventing
    duplicate call-point aggregation per execution"; the code also reads its
    [stmt_node] and sets its [class_scope]. *)
Record TraceStatement := mkTraceStatement {
  stmt_node : Ast.stmt;
  finished : bool;
  class_scope : option AttrTracing.scope_ref;
  call_point_deps : list (gset AttrTracing.cell_ref);
  lambda_call_point_deps_done_once : bool
}.

(** [TraceState], with the fields its transitions use.  [statements] is the
    store of the [TraceStatement] objects, which the stack and the
    [prev_...] attributes share; [attr_trace_manager] is
    [self.safety.attr_trace_manager], and its [trace_event_counter] is
    [self.safety.trace_event_counter]. *)
Record TraceState := mkTraceState {
  attr_trace_manager : AttrTracing.AttributeTracingManager;
  statements : list TraceStatement;
  cur_frame_scope : AttrTracing.scope_ref;
  prev_trace_stmt_in_cur_frame : option stmt_ref;
  inside_lambda : bool;
  stack : list (option stmt_ref * bool);
  prev_trace_stmt : option stmt_ref;
  prev_event : option TraceEvent
}.

Definition isinstance_ClassDef (n : Ast.stmt) : bool :=
  match n with Ast.ClassDef _ _ _ _ _ => true | _ => false end.
Definition isinstance_Return (n : Ast.stmt) : bool :=
  match n with Ast.Return _ => true | _ => false end.
Definition isinstance_def (n : Ast.stmt) : bool :=
  match n with
  | Ast.FunctionDef _ _ _ _ _ | Ast.AsyncFunctionDef _ _ _ _ _
  | Ast.ClassDef _ _ _ _ _ => true
  | _ => false
  end.

(** A test on the statement object behind a reference (a reference always
    denotes an object of the store). *)
Definition stmt_test (p : TraceStatement → bool) (r : stmt_ref) (s : TraceState) : bool :=
  match statements s !! r with
  | Some st => p st
  | None => false
  end.

(** An assignment to attributes of the statement object behind [r]. *)
Definition update_stmt (f : TraceStatement → TraceStatement) (r : stmt_ref)
    (s : TraceState) : TraceState :=
  mkTraceState (attr_trace_manager s) (alter f r (statements s)) (cur_frame_scope s)
    (prev_trace_stmt_in_cur_frame s) (inside_lambda s) (stack s)
    (prev_trace_stmt s) (prev_event s).

Definition set_finished (st : TraceStatement) : TraceStatement :=
  mkTraceStatement (stmt_node st) true (class_scope st) (call_point_deps st)
    (lambda_call_point_deps_done_once st).
Definition set_class_scope (sc : AttrTracing.scope_ref) (st : TraceStatement) : TraceStatement :=
  mkTraceStatement (stmt_node st) (finished st) (Some sc) (call_point_deps st)
    (lambda_call_point_deps_done_once st).
Definition set_done_once (st : TraceStatement) : TraceStatement :=
  mkTraceStatement (stmt_node st) (finished st) (class_scope st) (call_point_deps st) true.
Definition append_call_point_deps (d : gset AttrTracing.cell_ref) (st : TraceStatement)
    : TraceStatement :=
  mkTraceStatement (stmt_node st) (finished st) (class_scope st)
    (call_point_deps st ++ [d]) (lambda_call_point_deps_done_once st).

(** Modelled from the spec: [TraceStatement.finished_execution_hook]:
    "mark it finished". *)
Definition finished_execution_hook (r : stmt_ref) (s : TraceState) : TraceState :=
  update_stmt set_finished r s.

Section Transitions.

(** The two other methods of [TraceStatement] the transitions call, which
    belong to the scope machinery:
    [trace_stmt.get_post_call_scope(cur_frame_scope)] and
    [trace_stmt.compute_rval_dependencies()]. *)
Variable get_post_call_scope : TraceStatement → AttrTracing.scope_ref → AttrTracing.scope_ref.
Variable compute_rval_dependencies : TraceState → stmt_ref → gset AttrTracing.cell_ref.

(** [_check_prev_stmt_done_executing_hook]; [self.stack[-1]] raises
    [IndexError] on an empty stack. *)
Definition _check_prev_stmt_done_executing_hook (event : TraceEvent)
    (trace_stmt : stmt_ref) (s : TraceState) : Py.exception + TraceState :=
  if negb (bool_decide (event = line ∨ event = return_))
     || bool_decide (prev_event s = Some call ∨ prev_event s = Some exception)
  then inr s
  else if bool_decide (event = return_) then
    match prev_trace_stmt s with
    | None => inr s
    | Some prev_overall =>
        match AttrTracing.unsnoc (stack s) with
        | None => inl Py.IndexError
        | Some (_, (top, _)) =>
            if bool_decide (Some prev_overall ≠ top)
            then inr (finished_execution_hook prev_overall s)
            else inr s
        end
    end
  else
    match prev_trace_stmt_in_cur_frame s with
    | None => inr s
    | Some prev_this_frame =>
        if stmt_test finished prev_this_frame s then inr s
        else if stmt_test (fun st => isinstance_ClassDef (stmt_node st)) prev_this_frame s then
          if bool_decide (prev_event s = Some return_) then
            if bool_decide (event = line) || bool_decide (prev_this_frame ≠ trace_stmt)
            then inr (finished_execution_hook prev_this_frame s)
            else inr s
          else inr s
        else if bool_decide (prev_this_frame ≠ trace_stmt)
        then inr (finished_execution_hook prev_this_frame s)
        else inr s
    end.

(** [_handle_call_transition] *)
Definition _handle_call_transition (trace_stmt : stmt_ref) (s : TraceState) : TraceState :=
  let inside_lambda' :=
    negb (stmt_test (fun st => isinstance_def (stmt_node st)) trace_stmt s) in
  let stack' := stack s ++ [(prev_trace_stmt_in_cur_frame s, inside_lambda s)] in
  let cur_frame_scope' :=
    match statements s !! trace_stmt with
    | Some st => get_post_call_scope st (cur_frame_scope s)
    | None => cur_frame_scope s
    end in
  mkTraceState (AttrTracing.push_stack cur_frame_scope' (attr_trace_manager s))
    (statements s) cur_frame_scope' None inside_lambda' stack'
    (prev_trace_stmt s) (prev_event s).

(** [_handle_return_transition]; [self.stack.pop()] raises [IndexError] on
    an empty stack, [assert return_to_stmt is not None] raises
    [AssertionError], and [pop_stack] of the manager can raise. *)
Definition _handle_return_transition (trace_stmt : stmt_ref) (s : TraceState)
    : Py.exception + TraceState :=
  match AttrTracing.unsnoc (stack s) with
  | None => inl Py.IndexError
  | Some (rest, (None, _)) => inl Py.AssertionError
  | Some (rest, (Some return_to_stmt, return_to_inside_lambda)) =>
      let s := mkTraceState (attr_trace_manager s) (statements s) (cur_frame_scope s)
                 (prev_trace_stmt_in_cur_frame s) (inside_lambda s) rest
                 (prev_trace_stmt s) (prev_event s) in
      let s :=
        if bool_decide (prev_event s ≠ Some exception) then
          if stmt_test (fun st => isinstance_ClassDef (stmt_node st)) return_to_stmt s then
            update_stmt (set_class_scope (cur_frame_scope s)) return_to_stmt s
          else if stmt_test (fun st => isinstance_Return (stmt_node st)) trace_stmt s
                  || inside_lambda s then
            if negb (stmt_test lambda_call_point_deps_done_once trace_stmt s) then
              let s := update_stmt set_done_once trace_stmt s in
              update_stmt (append_call_point_deps (compute_rval_dependencies s trace_stmt))
                          return_to_stmt s
            else s
          else s
        else s in
      match AttrTracing.pop_stack (attr_trace_manager s) with
      | AttrTracing.Raises e _ => inl e
      | AttrTracing.Returns _ m =>
          inr (mkTraceState m (statements s) (AttrTracing.active_scope m)
                 (Some return_to_stmt) return_to_inside_lambda (stack s)
                 (prev_trace_stmt s) (prev_event s))
      end
  end.

Definition increment_counter (s : TraceState) : TraceState :=
  let m := attr_trace_manager s in
  mkTraceState
    (AttrTracing.with_trace_event_counter (AttrTracing.trace_event_counter m + 1)%Z m)
    (statements s) (cur_frame_scope s) (prev_trace_stmt_in_cur_frame s)
    (inside_lambda s) (stack s) (prev_trace_stmt s) (prev_event s).

(** [state_transition_hook] *)
Definition state_transition_hook (event : TraceEvent) (trace_stmt : stmt_ref)
    (s : TraceState) : Py.exception + TraceState :=
  let s := increment_counter s in
  match _check_prev_stmt_done_executing_hook event trace_stmt s with
  | inl e => inl e
  | inr s =>
      let s := mkTraceState (attr_trace_manager s) (statements s) (cur_frame_scope s)
                 (prev_trace_stmt_in_cur_frame s) (inside_lambda s) (stack s)
                 (Some trace_stmt) (prev_event s) in
      let s :=
        if bool_decide (event = line)
        then mkTraceState (attr_trace_manager s) (statements s) (cur_frame_scope s)
               (Some trace_stmt) (inside_lambda s) (stack s)
               (prev_trace_stmt s) (prev_event s)
        else s in
      let s :=
        if bool_decide (event = call) then _handle_call_transition trace_stmt s else s in
      match (if bool_decide (event = return_)
             then _handle_return_transition trace_stmt s else inr s) with
      | inl e => inl e
      | inr s =>
          inr (mkTraceState (attr_trace_manager s) (statements s) (cur_frame_scope s)
                 (prev_trace_stmt_in_cur_frame s) (inside_lambda s) (stack s)
                 (prev_trace_stmt s) (Some event))
      end
  end.

End Transitions.
End TraceStateM.

(** * Properties *)

(** ** The frame stack of the tracing runtime *)

Module FrameStack.
Import AttrTracing.

Lemma unsnoc_snoc {A} (l : list A) (x : A) : unsnoc (l ++ [x]) = Some (l, x).
Proof. unfold unsnoc. by rewrite reverse_snoc, reverse_involutive. Qed.

Lemma unsnoc_Some {A} (l l' : list A) (x : A) :
  unsnoc l = Some (l', x) → l = l' ++ [x].
Proof.
  unfold unsnoc. destruct (reverse l) as [|y r] eqn:E; [done|].
  intros [= <- <-]. rewrite <- (reverse_involutive l), E. by rewrite reverse_cons.
Qed.

Lemma unsnoc_None {A} (l : list A) : unsnoc l = None → l = [].
Proof.
  unfold unsnoc. destruct (reverse l) as [|y r] eqn:E; [|done].
  intros _. by rewrite <- (reverse_involutive l), E.
Qed.

(** The attributes that finding or making a scope, and making a DataCell,
    leave alone. *)
Definition same_session (m m' : AttributeTracingManager) : Prop :=
  mutations m' = mutations m ∧ stack m' = stack m
  ∧ trace_event_counter m' = trace_event_counter m
  ∧ recorded_args m' = recorded_args m
  ∧ mutation_candidate m' = mutation_candidate m
  ∧ loaded_data_cells m' = loaded_data_cells m
  ∧ saved_store_data m' = saved_store_data m.

Lemma resolve_scope_session obj s m :
  same_session m (resolve_scope obj s m).2.
Proof.
  unfold resolve_scope, clone, new_scope, same_session.
  repeat case_match; simplify_eq/=; done.
Qed.

Lemma make_data_cell_session scope obj k s m :
  same_session m (state_of (make_data_cell scope obj k s m)).
Proof.
  unfold make_data_cell, new_cell, same_session.
  repeat case_match; simplify_eq/=; done.
Qed.

(** The hooks and [reset] leave the stack alone. *)
Lemma stack_attrsub_tracer obj k s ctx cc ov m :
  stack (state_of (attrsub_tracer obj k s ctx cc ov m)) = stack m.
Proof.
  unfold attrsub_tracer.
  destruct (py_is_None obj); [done|].
  pose proof (resolve_scope_session obj s m) as Hr.
  destruct (resolve_scope obj s m) as [scope m1]. simpl in Hr.
  destruct Hr as (_ & Hs & _).
  set (m2 := if ov then with_active_scope scope m1 else m1).
  assert (H2 : stack m2 = stack m) by (subst m2; by destruct ov).
  clearbody m2.
  destruct (decide (ctx = "Load")) as [->|Hctx].
  - destruct cc.
    + simpl. by repeat case_match.
    + destruct (lookup_data_cell_by_name_this_indentation scope k
                  (with_mutation_candidate None m2)) as [c|].
      * simpl. by repeat case_match.
      * pose proof (make_data_cell_session scope obj k s
                      (with_mutation_candidate None m2)) as Hd.
        destruct (make_data_cell scope obj k s (with_mutation_candidate None m2))
          as [dc m3|e m3]; simpl in Hd; destruct Hd as (_ & Hd & _);
          simpl in *; repeat case_match; simpl; congruence.
  - simpl. by repeat case_match.
Qed.

Lemma stack_expr_tracer obj m : stack (state_of (expr_tracer obj m)) = stack m.
Proof. unfold expr_tracer. repeat (case_match; simplify_eq/=; try done). Qed.

(** A pop restores the attributes saved in the last frame. *)
Lemma pop_stack_snoc m l f :
  stack m = l ++ [f] →
  ∃ m', pop_stack m = Returns tt m' ∧ saved_fields m' = f ∧ stack m' = l.
Proof.
  intros E. unfold pop_stack. rewrite E, unsnoc_snoc.
  destruct f as [[[[[ssd muts] cand] rargs] act] orig]. eauto.
Qed.

(** A sequence that never pops below the [d] frames it started with keeps
    the frames under them. *)
Lemma run_keeps_base l : ∀ d d' m base extra,
  stack m = base ++ extra → length extra = d → nesting l d = Some d' →
  ∃ extra', stack (run l m) = base ++ extra' ∧ length extra' = d'.
Proof.
  induction l as [|o l IH]; intros d d' m base extra Hs Hl Hn.
  - simpl in *. simplify_eq. eauto.
  - change (run (o :: l) m) with (run l (step o m)).
    destruct o; simpl in Hn; unfold step.
    + eapply IH; [|done..]. by rewrite stack_attrsub_tracer.
    + eapply IH; [|done..]. by rewrite stack_expr_tracer.
    + eapply IH; [|done..]. done.
    + eapply (IH _ _ _ base (extra ++ [saved_fields m])); [| |exact Hn].
      * simpl. rewrite Hs, <- app_assoc. done.
      * rewrite length_app, Nat.add_1_r. by f_equal.
    + destruct d as [|d]; [done|].
      destruct (unsnoc extra) as [[extra0 f]|] eqn:E.
      * apply unsnoc_Some in E. subst extra.
        rewrite length_app, Nat.add_1_r in Hl. simplify_eq.
        destruct (pop_stack_snoc m (base ++ extra0) f) as (m' & Hp & _ & Hst).
        { by rewrite Hs, app_assoc. }
        eapply IH; [|done..]. by rewrite Hp.
      * apply unsnoc_None in E. by subst extra.
    + eapply IH; [|done..]. done.
    + eapply IH; [|done..]. done.
Qed.

(** C9: [push_stack] gives the new frame an empty store buffer, mutation
    set and argument set and makes the new scope the active and the
    original scope; it leaves the mutation candidate of the caller in
    place, and saves the six attributes on the stack.  After any balanced
    sequence of operations, the matching [pop_stack] returns and restores
    the six attributes of the caller, and the stack of the caller. *)
Theorem push_pop_restores (new_scope : scope_ref) (m : AttributeTracingManager) :
  let m1 := push_stack new_scope m in
  (saved_store_data m1 = [] ∧ mutations m1 = ∅ ∧ recorded_args m1 = ∅
   ∧ active_scope m1 = new_scope ∧ original_active_scope m1 = new_scope)
  ∧ mutation_candidate m1 = mutation_candidate m
  ∧ stack m1 = stack m ++ [saved_fields m]
  ∧ ∀ l, balanced l →
      ∃ m2, pop_stack (run l m1) = Returns tt m2
            ∧ saved_fields m2 = saved_fields m ∧ stack m2 = stack m.
Proof.
  simpl. repeat split.
  intros l Hl.
  destruct (run_keeps_base l 0 0 (push_stack new_scope m)
              (stack m ++ [saved_fields m]) []) as (extra & Hs & Hlen);
    [by rewrite app_nil_r|done|done|].
  destruct extra; [|done]. rewrite app_nil_r in Hs.
  by apply pop_stack_snoc.
Qed.

End FrameStack.

(** ** The hooks of the tracing runtime *)

Module Hooks.
Import Py AttrTracing FrameStack.

(** A manager as [__init__] leaves it, over one lexical scope. *)
Definition global_scope : Scope := mkScope None (KStr "<module>") None [].
Definition manager0 : AttributeTracingManager := init ∅ ∅ [global_scope] [] 0 0.

(** An object with no attribute and no item, a list-like object with an
    [append] attribute, and [None]. *)
Definition bare_object : PyObject := mkObject 100 false 200 [] [].
Definition none_object : PyObject := mkObject 1 true 2 [] [].
Definition list_object : PyObject :=
  mkObject 101 false 201 [("append", mkObject 300 false 301 [] [])] [].

(** *** The end hook *)

(** What the end hook does with a pending candidate. *)
Lemma expr_tracer_candidate obj m evt_counter obj_id :
  mutation_candidate m = Some (evt_counter, obj_id) →
  ∃ m', expr_tracer obj m = Returns obj m'
    ∧ mutation_candidate m' = None
    ∧ mutations m' =
        (if bool_decide (evt_counter = trace_event_counter m) && py_is_None obj
         then {[(obj_id, tuple_of_set (recorded_args m))]} ∪ mutations m
         else mutations m)
    ∧ recorded_args m' = ∅
    ∧ active_scope m' = original_active_scope m
    ∧ stack m' = stack m
    ∧ trace_event_counter m' = trace_event_counter m.
Proof.
  intros Hc. unfold expr_tracer. rewrite Hc. simpl.
  eexists. split; [done|]. by case_match.
Qed.

Lemma expr_tracer_no_candidate obj m :
  mutation_candidate m = None →
  ∃ m', expr_tracer obj m = Returns obj m'
    ∧ mutation_candidate m' = None ∧ mutations m' = mutations m
    ∧ stack m' = stack m.
Proof. intros Hc. unfold expr_tracer. rewrite Hc. simpl. eauto. Qed.

(** The argument recorder adds names to a set. *)
Lemma recorded_args_run names obj m :
  recorded_args (run (RecordArg obj <$> names) m) = list_to_set names ∪ recorded_args m.
Proof.
  revert m. induction names as [|n names IH]; intros m; simpl.
  - set_solver.
  - change (run (RecordArg obj n :: (RecordArg obj <$> names)) m)
      with (run (RecordArg obj <$> names) (step (RecordArg obj n) m)).
    rewrite IH. simpl. set_solver.
Qed.

(** C7, as the code has it: when the end hook confirms a mutation, the
    record it adds pairs the identity of the candidate object with the tuple
    of the set of recorded argument names: every recorded name occurs in it,
    each distinct name once, in the iteration order of the set. *)
Theorem mutation_record_names (obj : PyObject) (m : AttributeTracingManager)
    (obj_id : Z) :
  mutation_candidate m = Some (trace_event_counter m, obj_id) →
  py_is_None obj = true →
  ∃ m' names,
    expr_tracer obj m = Returns obj m'
    ∧ mutations m' = {[(obj_id, names)]} ∪ mutations m
    ∧ names = tuple_of_set (recorded_args m)
    ∧ NoDup names
    ∧ (∀ x, x ∈ names ↔ x ∈ recorded_args m)
    ∧ ∀ recorded o m0, m = run (RecordArg o <$> recorded) m0 → recorded_args m0 = ∅ →
        ∀ x, x ∈ names ↔ x ∈ recorded.
Proof.
  intros Hc Hn.
  destruct (expr_tracer_candidate obj m _ _ Hc) as (m' & Hr & _ & Hm & _).
  rewrite Hn, bool_decide_eq_true_2 in Hm by done.
  assert (Hel : ∀ x, x ∈ tuple_of_set (recorded_args m) ↔ x ∈ recorded_args m)
    by (intros x; apply elem_of_elements).
  exists m', (tuple_of_set (recorded_args m)).
  split; [exact Hr|]. split; [exact Hm|]. split; [done|].
  split; [apply NoDup_elements|]. split; [exact Hel|].
  intros recorded o m0 -> H0 x. rewrite Hel, recorded_args_run, H0. set_solver.
Qed.

(** A call [lst.append(x, x)]-like sequence: the candidate is recorded by
    the start hook in call position, the name [x] is recorded twice, and the
    end hook receives [None]. *)
Definition two_recordings : list operation :=
  [Begin list_object (KStr "append") false "Load" true true;
   RecordArg bare_object "x"; RecordArg bare_object "x";
   End_ none_object].

Lemma mutation_record_names_witness :
  ∃ m' names,
    expr_tracer none_object
      (run [Begin list_object (KStr "append") false "Load" true true;
            RecordArg bare_object "x"] manager0) = Returns none_object m'
    ∧ mutations m' = {[(101%Z, names)]} ∪ ∅
    ∧ names = ["x"].
Proof.
  destruct (mutation_record_names none_object
              (run [Begin list_object (KStr "append") false "Load" true true;
                    RecordArg bare_object "x"] manager0) 101)
    as (m' & names & H1 & H2 & H3 & _); [reflexivity|reflexivity|].
  exists m', names. split; [exact H1|]. split; [exact H2|].
  rewrite H3. vm_compute. reflexivity.
Defined.

(** The names [a] and [b] recorded in the two orders. *)
Definition recorded_a_b : list operation :=
  [Begin list_object (KStr "append") false "Load" true true;
   RecordArg bare_object "a"; RecordArg bare_object "b"; End_ none_object].

Definition recorded_b_a : list operation :=
  [Begin list_object (KStr "append") false "Load" true true;
   RecordArg bare_object "b"; RecordArg bare_object "a"; End_ none_object].

(** C7 as the claim states it fails: two arguments are recorded and the
    record holds one name, so it is not the tuple of the recorded names; and
    the two orders of recording two names give the same record, so the
    record does not keep the order of the recordings. *)
Lemma mutation_record_not_per_argument :
  mutations (run two_recordings manager0) = {[(101%Z, ["x"])]}
  ∧ (101%Z, ["x"; "x"]) ∉ mutations (run two_recordings manager0)
  ∧ mutations (run recorded_a_b manager0) = mutations (run recorded_b_a manager0).
Proof.
  assert (H : mutations (run two_recordings manager0) = {[(101%Z, ["x"])]})
    by (by vm_compute).
  split; [done|]. split; [rewrite H; set_solver|].
  vm_compute. reflexivity.
Qed.

(** *** The start hook *)

(** The start hook never touches the mutation records, the stack, the
    event counter or the recorded arguments. *)
Lemma attrsub_tracer_frame obj k s ctx cc ov m :
  let m' := state_of (attrsub_tracer obj k s ctx cc ov m) in
  mutations m' = mutations m ∧ stack m' = stack m
  ∧ trace_event_counter m' = trace_event_counter m
  ∧ recorded_args m' = recorded_args m.
Proof.
  unfold attrsub_tracer.
  destruct (py_is_None obj); [done|].
  pose proof (resolve_scope_session obj s m) as Hr.
  destruct (resolve_scope obj s m) as [scope m1]. simpl in Hr.
  destruct Hr as (Hm & Hs & Hc & Ha & _).
  set (m2 := if ov then with_active_scope scope m1 else m1).
  assert (H2 : mutations m2 = mutations m ∧ stack m2 = stack m
               ∧ trace_event_counter m2 = trace_event_counter m
               ∧ recorded_args m2 = recorded_args m)
    by (subst m2; destruct ov; done).
  clearbody m2. clear Hm Hs Hc Ha. destruct H2 as (Hm & Hs & Hc & Ha).
  destruct (decide (ctx = "Load")) as [->|Hctx].
  - destruct cc.
    + simpl. by repeat case_match.
    + destruct (lookup_data_cell_by_name_this_indentation scope k
                  (with_mutation_candidate None m2)) as [c|].
      * simpl. by repeat case_match.
      * pose proof (make_data_cell_session scope obj k s
                      (with_mutation_candidate None m2)) as Hd.
        destruct (make_data_cell scope obj k s (with_mutation_candidate None m2))
          as [dc m3|e m3]; simpl in Hd; destruct Hd as (? & ? & ? & ? & _);
          simpl in *; repeat case_match; simpl; repeat split; congruence.
  - simpl. by repeat case_match.
Qed.

(** On [None] the start hook returns at once: it does not look at the
    context and changes nothing. *)
Lemma attrsub_tracer_None obj k s ctx cc ov m :
  py_is_None obj = true → attrsub_tracer obj k s ctx cc ov m = Returns obj m.
Proof. intros Hn. unfold attrsub_tracer. by rewrite Hn. Qed.

(** On an object that is not [None], a load in call position records the
    candidate at the current value of the event counter. *)
Lemma attrsub_tracer_call_load obj k s ov m :
  py_is_None obj = false →
  ∃ m', attrsub_tracer obj k s "Load" true ov m = Returns obj m'
    ∧ mutation_candidate m' = Some (trace_event_counter m, py_id obj)
    ∧ loaded_data_cells m' = loaded_data_cells m.
Proof.
  intros Hn. unfold attrsub_tracer. rewrite Hn.
  pose proof (resolve_scope_session obj s m) as Hr.
  destruct (resolve_scope obj s m) as [scope m1]. simpl in Hr.
  destruct Hr as (_ & _ & Hc & _ & _ & Hl & _).
  destruct ov; simpl; eexists; (split; [done|]); simpl; by rewrite Hc, Hl.
Qed.

(** On an object that is not [None], a load out of call position empties
    the candidate slot, whether the hook returns or raises. *)
Lemma attrsub_tracer_plain_load obj k s ov m :
  py_is_None obj = false →
  mutation_candidate (state_of (attrsub_tracer obj k s "Load" false ov m)) = None.
Proof.
  intros Hn. unfold attrsub_tracer. rewrite Hn.
  destruct (resolve_scope obj s m) as [scope m1].
  set (m2 := if ov then with_active_scope scope m1 else m1). clearbody m2.
  simpl.
  destruct (lookup_data_cell_by_name_this_indentation scope k
              (with_mutation_candidate None m2)) as [c|]; [done|].
  pose proof (make_data_cell_session scope obj k s
                (with_mutation_candidate None m2)) as Hd.
  destruct (make_data_cell scope obj k s (with_mutation_candidate None m2))
    as [dc m3|e m3]; simpl in Hd; destruct Hd as (_ & _ & _ & _ & Hd & _); done.
Qed.

(** C5 (what the code does): on a load out of call position of an attribute
    that has no DataCell in the scope of the object and that [getattr] does
    not find, the hook returns the object and makes no DataCell, but it adds
    the [None] left in [data_cell] to the loaded set. *)
Theorem missing_attribute_load (obj : PyObject) (attr : string) (ov : bool)
    (m : AttributeTracingManager) :
  py_is_None obj = false →
  lookup_data_cell_by_name_this_indentation
    (resolve_scope obj false m).1 (KStr attr) (resolve_scope obj false m).2 = None →
  getattr obj (KStr attr) = inl AttributeError →
  ∃ m', attrsub_tracer obj (KStr attr) false "Load" false ov m = Returns obj m'
    ∧ loaded_data_cells m' = {[None]} ∪ loaded_data_cells m
    ∧ cells m' = cells m
    ∧ scopes m' = scopes (resolve_scope obj false m).2.
Proof.
  intros Hn Hl Hg. unfold attrsub_tracer. rewrite Hn.
  pose proof (resolve_scope_session obj false m) as Hr.
  assert (Hcells : cells (resolve_scope obj false m).2 = cells m).
  { unfold resolve_scope, clone, new_scope. repeat case_match; simplify_eq/=; done. }
  destruct (resolve_scope obj false m) as [scope m1]. simpl in Hr, Hl, Hcells.
  destruct Hr as (_ & _ & _ & _ & _ & Hld & _).
  assert (Hl' : lookup_data_cell_by_name_this_indentation scope (KStr attr)
                  (with_mutation_candidate None
                     (if ov then with_active_scope scope m1 else m1)) = None)
    by (destruct ov; exact Hl).
  cbv zeta. rewrite decide_True by done. cbv iota.
  rewrite Hl'. unfold make_data_cell. cbv iota. rewrite Hg.
  rewrite decide_False by (intros [?|?]; discriminate).
  eexists. split; [done|]. destruct ov; simpl; by rewrite Hld, ?Hcells.
Qed.

Lemma missing_attribute_load_witness :
  ∃ m', attrsub_tracer bare_object (KStr "foo") false "Load" false true manager0
        = Returns bare_object m'
    ∧ loaded_data_cells m' = {[None]} ∪ ∅
    ∧ cells m' = []
    ∧ scopes m' = scopes (resolve_scope bare_object false manager0).2.
Proof.
  apply (missing_attribute_load bare_object "foo" true manager0); reflexivity.
Defined.

(** *** Mutation candidates along sequences of operations *)

Lemma all_mutations_push sc m : all_mutations (push_stack sc m) = all_mutations m.
Proof.
  unfold all_mutations.
  change (mutations (push_stack sc m)) with (∅ : gset Mutation).
  change (stack (push_stack sc m)) with (stack m ++ [saved_fields m]).
  rewrite fmap_app, union_list_app_L.
  change (⋃ (frame_mutations <$> [saved_fields m])) with (mutations m ∪ ∅).
  set_solver.
Qed.

Lemma all_mutations_pop m : all_mutations (state_of (pop_stack m)) ⊆ all_mutations m.
Proof.
  unfold pop_stack. destruct (unsnoc (stack m)) as [[rest f]|] eqn:E; [|done].
  apply FrameStack.unsnoc_Some in E.
  destruct f as [[[[[ssd muts] cand] rargs] act] orig].
  unfold all_mutations. rewrite E. cbn [state_of mutations stack].
  rewrite fmap_app, union_list_app_L.
  change (⋃ (frame_mutations <$> [(ssd, muts, cand, rargs, act, orig)]))
    with (muts ∪ ∅).
  set_solver.
Qed.

(** One operation adds a mutation record only when it is the end hook,
    called on [None] while the candidate carries the current value of the
    event counter. *)
Lemma new_mutation_step o m mu :
  mu ∈ all_mutations (step o m) → mu ∉ all_mutations m →
  ∃ obj obj_id,
    o = End_ obj ∧ py_is_None obj = true
    ∧ mutation_candidate m = Some (trace_event_counter m, obj_id)
    ∧ mu = (obj_id, tuple_of_set (recorded_args m)).
Proof.
  unfold all_mutations.
  destruct o as [obj k s ctx cc ov|obj|obj name|sc| | |]; unfold step.
  - destruct (attrsub_tracer_frame obj k s ctx cc ov m) as (-> & -> & _). done.
  - destruct (mutation_candidate m) as [[c obj_id]|] eqn:Hc.
    + destruct (expr_tracer_candidate obj m c obj_id Hc)
        as (m' & -> & _ & Hm & _ & _ & Hs & _).
      simpl. rewrite Hm, Hs.
      destruct (bool_decide (c = trace_event_counter m)) eqn:Hb;
        [apply bool_decide_eq_true_1 in Hb|]; simpl; [|done].
      destruct (py_is_None obj) eqn:Hn; [|done].
      intros Hin Hnin. exists obj, obj_id. subst c. repeat split; [done|].
      set_solver.
    + destruct (expr_tracer_no_candidate obj m Hc) as (m' & -> & _ & Hm & Hs).
      simpl. by rewrite Hm, Hs.
  - done.
  - fold (all_mutations (push_stack sc m)). fold (all_mutations m).
    by rewrite all_mutations_push.
  - fold (all_mutations (state_of (pop_stack m))). fold (all_mutations m).
    intros Hin Hnin. by apply all_mutations_pop in Hin.
  - simpl. set_solver.
  - done.
Qed.

(** C6: in every sequence of operations, a mutation record that was not
    there before comes from a call of the end hook on [None], made while
    the candidate slot holds a candidate whose counter value is the current
    value of the event counter; the record is for the object of that
    candidate.  The slot holds one candidate: a load in call position (on an
    object that is not [None]) puts the candidate of the current counter
    value in it, whatever it held.  The end hook empties the slot, and
    records nothing when the counter has moved or its argument is not
    [None]; a load out of call position (on an object that is not [None])
    empties the slot and records nothing; [reset] empties the slot and the
    mutation set. *)
Theorem mutation_candidate_discipline :
  (∀ l m mu,
     mu ∈ all_mutations (run l m) → mu ∉ all_mutations m →
     ∃ l1 obj l2 obj_id,
       l = l1 ++ End_ obj :: l2 ∧ py_is_None obj = true
       ∧ mutation_candidate (run l1 m)
         = Some (trace_event_counter (run l1 m), obj_id)
       ∧ mu = (obj_id, tuple_of_set (recorded_args (run l1 m))))
  ∧ (∀ obj k s ov m,
       py_is_None obj = false →
       mutation_candidate (step (Begin obj k s "Load" true ov) m)
       = Some (trace_event_counter m, py_id obj)
       ∧ all_mutations (step (Begin obj k s "Load" true ov) m) = all_mutations m)
  ∧ (∀ obj m c obj_id,
       mutation_candidate m = Some (c, obj_id) →
       mutation_candidate (step (End_ obj) m) = None
       ∧ (c ≠ trace_event_counter m ∨ py_is_None obj = false →
          all_mutations (step (End_ obj) m) = all_mutations m))
  ∧ (∀ obj k s ov m,
       py_is_None obj = false →
       mutation_candidate (step (Begin obj k s "Load" false ov) m) = None
       ∧ all_mutations (step (Begin obj k s "Load" false ov) m) = all_mutations m)
  ∧ (∀ m, mutation_candidate (step Reset m) = None ∧ mutations (step Reset m) = ∅).
Proof.
  repeat apply conj.
  - induction l as [|o l IH]; intros m mu Hin Hnin; [done|].
    change (run (o :: l) m) with (run l (step o m)) in Hin.
    destruct (decide (mu ∈ all_mutations (step o m))) as [Hs|Hs].
    + destruct (new_mutation_step o m mu Hs Hnin) as (obj & obj_id & -> & ? & ? & ?).
      by exists [], obj, l, obj_id.
    + destruct (IH _ _ Hin Hs) as (l1 & obj & l2 & obj_id & -> & ? & ? & ?).
      by exists (o :: l1), obj, l2, obj_id.
  - intros obj k s ov m Hn. unfold step.
    destruct (attrsub_tracer_call_load obj k s ov m Hn) as (m' & Hr & Hc & _).
    split; [by rewrite Hr|].
    unfold all_mutations.
    by destruct (attrsub_tracer_frame obj k s "Load" true ov m) as (-> & -> & _).
  - intros obj m c obj_id Hc. unfold step.
    destruct (expr_tracer_candidate obj m c obj_id Hc)
      as (m' & -> & Hc' & Hm & _ & _ & Hs & _).
    split; [done|]. intros Hd. unfold all_mutations. simpl. rewrite Hm, Hs.
    destruct Hd as [Hd| ->].
    + by rewrite bool_decide_eq_false_2.
    + by rewrite andb_false_r.
  - intros obj k s ov m Hn. unfold step. split.
    + by apply attrsub_tracer_plain_load.
    + unfold all_mutations.
      by destruct (attrsub_tracer_frame obj k s "Load" false ov m) as (-> & -> & _).
  - done.
Qed.

(** A caller with a pending candidate, and a callee that loads, records an
    argument, pushes and pops a frame of its own and is reset. *)
Definition caller_with_candidate : AttributeTracingManager :=
  run [Begin list_object (KStr "append") false "Load" true true] manager0.

Definition callee_operations : list operation :=
  [Begin bare_object (KStr "y") false "Store" false false;
   RecordArg bare_object "z"; Push 0; End_ none_object; Pop; Reset].

Lemma push_pop_restores_witness :
  mutation_candidate (push_stack 0 caller_with_candidate) = Some (0%Z, 101%Z)
  ∧ ∃ m2, pop_stack (run callee_operations (push_stack 0 caller_with_candidate))
          = Returns tt m2
          ∧ saved_fields m2 = saved_fields caller_with_candidate
          ∧ stack m2 = stack caller_with_candidate.
Proof.
  split; [reflexivity|].
  apply (proj2 (proj2 (proj2 (push_pop_restores 0 caller_with_candidate)))).
  reflexivity.
Defined.

(** The record of [two_recordings] comes from its end hook. *)
Lemma mutation_candidate_discipline_witness :
  ∃ l1 obj l2 obj_id,
    two_recordings = l1 ++ End_ obj :: l2 ∧ py_is_None obj = true
    ∧ mutation_candidate (run l1 manager0)
      = Some (trace_event_counter (run l1 manager0), obj_id)
    ∧ (101%Z, ["x"]) = (obj_id, tuple_of_set (recorded_args (run l1 manager0))).
Proof.
  apply (proj1 mutation_candidate_discipline two_recordings manager0 (101%Z, ["x"])).
  - vm_compute. reflexivity.
  - vm_compute. discriminate.
Defined.

End Hooks.

(** ** The return transition after an exception event *)

Module ReturnAfterException.
Import TraceStateM.

Section Return.

Variable get_post_call_scope :
  TraceStatement → AttrTracing.scope_ref → AttrTracing.scope_ref.
Variable compute_rval_dependencies :
  TraceState → stmt_ref → gset AttrTracing.cell_ref.

(** C8: a return event that follows an exception event, in a state where
    the call stack ends with an entry for a statement and the manager has a
    frame to pop.  The hook returns; no statement object changes (so the
    call-point dependency list and the class scope of the returned-to
    statement stay as they were, and nothing is marked finished); the call
    stack is popped, the inside-lambda flag is the one that was saved, the
    previous statement of the frame is the returned-to statement, the
    manager is the one [pop_stack] leaves behind (after the event counter
    went up by one), and the frame scope is its active scope. *)
Theorem return_after_exception (trace_stmt : stmt_ref) (s : TraceState)
    (rest : list (option stmt_ref * bool)) (return_to_stmt : stmt_ref)
    (return_to_inside_lambda : bool) :
  prev_event s = Some exception →
  stack s = rest ++ [(Some return_to_stmt, return_to_inside_lambda)] →
  AttrTracing.stack (attr_trace_manager s) ≠ [] →
  ∃ s' m',
    state_transition_hook get_post_call_scope compute_rval_dependencies
      return_ trace_stmt s = inr s'
    ∧ AttrTracing.pop_stack
        (AttrTracing.with_trace_event_counter
           (AttrTracing.trace_event_counter (attr_trace_manager s) + 1)%Z
           (attr_trace_manager s)) = AttrTracing.Returns tt m'
    ∧ statements s' = statements s
    ∧ stack s' = rest
    ∧ inside_lambda s' = return_to_inside_lambda
    ∧ prev_trace_stmt_in_cur_frame s' = Some return_to_stmt
    ∧ attr_trace_manager s' = m'
    ∧ cur_frame_scope s' = AttrTracing.active_scope m'
    ∧ prev_trace_stmt s' = Some trace_stmt
    ∧ prev_event s' = Some return_.
Proof.
  intros Hprev Hstack Hm.
  destruct s as [m sts cfs ptf il st pts pe]. simpl in Hprev, Hstack, Hm. subst pe st.
  destruct (AttrTracing.unsnoc (AttrTracing.stack m)) as [[mrest f]|] eqn:E;
    [|by apply FrameStack.unsnoc_None in E].
  apply FrameStack.unsnoc_Some in E.
  destruct (FrameStack.pop_stack_snoc
              (AttrTracing.with_trace_event_counter
                 (AttrTracing.trace_event_counter m + 1)%Z m) mrest f E)
    as (m' & Hp & _).
  unfold state_transition_hook, _check_prev_stmt_done_executing_hook,
    _handle_return_transition, increment_counter.
  cbn [prev_event stack attr_trace_manager statements cur_frame_scope
       prev_trace_stmt_in_cur_frame inside_lambda prev_trace_stmt].
  rewrite (bool_decide_eq_true_2 (Some exception = Some call ∨ _)) by (by right).
  rewrite orb_true_r.
  rewrite (bool_decide_eq_false_2 (return_ = line)) by done.
  rewrite (bool_decide_eq_false_2 (return_ = call)) by done.
  rewrite (bool_decide_eq_true_2 (return_ = return_)) by done.
  cbn [prev_event stack attr_trace_manager statements cur_frame_scope
       prev_trace_stmt_in_cur_frame inside_lambda prev_trace_stmt].
  rewrite FrameStack.unsnoc_snoc.
  cbn [prev_event stack attr_trace_manager statements cur_frame_scope
       prev_trace_stmt_in_cur_frame inside_lambda prev_trace_stmt].
  rewrite (bool_decide_eq_false_2 (Some exception ≠ Some exception)) by (by intros []).
  cbn [prev_event stack attr_trace_manager statements cur_frame_scope
       prev_trace_stmt_in_cur_frame inside_lambda prev_trace_stmt].
  rewrite Hp. eexists _, m'. split; [reflexivity|]. by repeat split.
Qed.

End Return.

(** A frame entered from statement 0 (a call [f()]), in which statement 1
    raised. *)
Definition sample_statement (n : Ast.stmt) : TraceStatement :=
  mkTraceStatement n false None [] false.

Definition sample_state : TraceState :=
  mkTraceState
    (AttrTracing.push_stack 0 Hooks.manager0)
    [sample_statement (Ast.Expr (Ast.Call (Ast.Name "f" Ast.Load) [] []));
     sample_statement (Ast.Return None)]
    0 (Some 1) false [(Some 0, false)] (Some 1) (Some exception).

Lemma return_after_exception_witness :
  ∃ s' m',
    state_transition_hook (fun _ sc => sc) (fun _ _ => ∅) return_ 1 sample_state = inr s'
    ∧ AttrTracing.pop_stack
        (AttrTracing.with_trace_event_counter
           (AttrTracing.trace_event_counter (attr_trace_manager sample_state) + 1)%Z
           (attr_trace_manager sample_state)) = AttrTracing.Returns tt m'
    ∧ statements s' = statements sample_state
    ∧ stack s' = []
    ∧ inside_lambda s' = false
    ∧ prev_trace_stmt_in_cur_frame s' = Some 0
    ∧ attr_trace_manager s' = m'
    ∧ cur_frame_scope s' = AttrTracing.active_scope m'
    ∧ prev_trace_stmt s' = Some 1
    ∧ prev_event s' = Some return_.
Proof.
  apply (return_after_exception (fun _ sc => sc) (fun _ _ => ∅) 1 sample_state [] 0 false);
    [reflexivity|reflexivity|discriminate].
Defined.

End ReturnAfterException.

(** ** The position markers *)

Module Markers.
Import Ast StmtInserter.

(** Induction on statements, with the induction hypothesis for every
    statement of the [body] sequences (the only ones [visit] goes into). *)
Section StmtInduction.

Variable P : stmt → Prop.

Hypothesis P_FunctionDef : ∀ name args body decorator_list returns,
  Forall P body → P (FunctionDef name args body decorator_list returns).
Hypothesis P_AsyncFunctionDef : ∀ name args body decorator_list returns,
  Forall P body → P (AsyncFunctionDef name args body decorator_list returns).
Hypothesis P_ClassDef : ∀ name bases keywords body decorator_list,
  Forall P body → P (ClassDef name bases keywords body decorator_list).
Hypothesis P_Return : ∀ value, P (Return value).
Hypothesis P_Assign : ∀ targets value, P (Assign targets value).
Hypothesis P_AugAssign : ∀ target op value, P (AugAssign target op value).
Hypothesis P_For : ∀ target iter body orelse, Forall P body → P (For target iter body orelse).
Hypothesis P_While : ∀ test body orelse, Forall P body → P (While test body orelse).
Hypothesis P_If : ∀ test body orelse, Forall P body → P (If test body orelse).
Hypothesis P_With : ∀ items body, Forall P body → P (With items body).
Hypothesis P_Try : ∀ body handlers orelse finalbody,
  Forall P body →
  Forall (fun h => match h with ExceptHandler _ _ hbody => Forall P hbody end) handlers →
  P (Try body handlers orelse finalbody).
Hypothesis P_Expr : ∀ value, P (Expr value).
Hypothesis P_Pass : P Pass.

Fixpoint stmt_body_ind (s : stmt) : P s :=
  let on_body :=
    fix go (l : list stmt) : Forall P l :=
      match l with
      | [] => List.Forall_nil P
      | s :: l => List.Forall_cons P s l (stmt_body_ind s) (go l)
      end in
  match s with
  | FunctionDef name args body decorator_list returns =>
      P_FunctionDef name args body decorator_list returns (on_body body)
  | AsyncFunctionDef name args body decorator_list returns =>
      P_AsyncFunctionDef name args body decorator_list returns (on_body body)
  | ClassDef name bases keywords body decorator_list =>
      P_ClassDef name bases keywords body decorator_list (on_body body)
  | Return value => P_Return value
  | Assign targets value => P_Assign targets value
  | AugAssign target op value => P_AugAssign target op value
  | For target iter body orelse => P_For target iter body orelse (on_body body)
  | While test body orelse => P_While test body orelse (on_body body)
  | If test body orelse => P_If test body orelse (on_body body)
  | With items body => P_With items body (on_body body)
  | Try body handlers orelse finalbody =>
      P_Try body handlers orelse finalbody (on_body body)
        ((fix go (l : list excepthandler)
            : Forall (fun h => match h with ExceptHandler _ _ hbody => Forall P hbody end) l :=
            match l with
            | [] => List.Forall_nil _
            | ExceptHandler type name hbody :: l =>
                List.Forall_cons _ (ExceptHandler type name hbody) l (on_body hbody) (go l)
            end) handlers)
  | Expr value => P_Expr value
  | Pass => P_Pass
  end.

End StmtInduction.

Section Facts.

Variable insert_stmt_template : Z * nat → stmt.
Variable cell_counter : Z.

#[local] Abbreviation visit := (visit insert_stmt_template cell_counter).
#[local] Abbreviation visit_body := (visit_body insert_stmt_template cell_counter).
#[local] Abbreviation visit_handlers := (visit_handlers insert_stmt_template cell_counter).
#[local] Abbreviation marked_stmt := (marked_stmt insert_stmt_template cell_counter false).
#[local] Abbreviation marked_body := (marked_body insert_stmt_template cell_counter false).
#[local] Abbreviation marked_handlers := (marked_handlers insert_stmt_template cell_counter false).
#[local] Abbreviation marked_rest := (marked_rest insert_stmt_template cell_counter false).

(** [visit node cur] hands out the line numbers [cur], [cur + 1], ... *)
Definition marks (node : stmt) : Prop :=
  ∀ cur, ∃ n, marked_stmt (seq cur n) node (visit node cur).1
              ∧ (visit node cur).2 = cur + n.

Lemma seq_cons_app cur n n' :
  seq cur (S (n + n')) = cur :: seq (S cur) n ++ seq (S cur + n) n'.
Proof. simpl. by rewrite seq_app. Qed.

Lemma visit_body_marks body :
  Forall marks body →
  ∀ cur, ∃ n, marked_body (seq cur n) body (visit_body body cur).1
              ∧ (visit_body body cur).2 = cur + n.
Proof.
  induction 1 as [|s l Hs _ IH]; intros cur.
  - exists 0. simpl. split; [constructor|lia].
  - simpl. destruct (Hs (S cur)) as (n & Hm & Hc).
    destruct (visit s (S cur)) as [s' c1]. simpl in Hm, Hc. subst c1.
    destruct (IH (S (cur + n))) as (n' & Hm' & Hc').
    destruct (visit_body l (S (cur + n))) as [l' c2]. simpl in Hm', Hc'. subst c2.
    exists (S (n + n')). simpl fst. simpl snd. split; [|lia].
    rewrite seq_cons_app. by constructor.
Qed.

Lemma visit_handlers_marks handlers :
  Forall (fun h => match h with ExceptHandler _ _ hbody => Forall marks hbody end) handlers →
  ∀ cur, ∃ n, marked_handlers (seq cur n) handlers (visit_handlers handlers cur).1
              ∧ (visit_handlers handlers cur).2 = cur + n.
Proof.
  induction 1 as [|[type name hbody] l Hh _ IH]; intros cur.
  - exists 0. simpl. split; [constructor|lia].
  - simpl. destruct (visit_body_marks hbody Hh cur) as (n & Hm & Hc).
    destruct (visit_body hbody cur) as [hbody' c1]. simpl in Hm, Hc. subst c1.
    destruct (IH (cur + n)) as (n' & Hm' & Hc').
    destruct (visit_handlers l (cur + n)) as [l' c2]. simpl in Hm', Hc'. subst c2.
    exists (n + n'). simpl fst. simpl snd. split; [|lia].
    rewrite seq_app. by constructor.
Qed.

Lemma marked_rest_untouched' l : marked_rest [] l l.
Proof. by apply marked_rest_untouched. Qed.

Lemma visit_marks node : marks node.
Proof.
  induction node using stmt_body_ind; intros cur;
    try (exists 0; simpl; split; [constructor|lia]).
  all: try (destruct (visit_body_marks body H cur) as (n & Hm & Hc);
            change (visit ?node cur) with
              (let '(body', c) := visit_body body cur in
               (match node with
                | FunctionDef name args _ d r => FunctionDef name args body' d r
                | AsyncFunctionDef name args _ d r => AsyncFunctionDef name args body' d r
                | ClassDef name bases kw _ d => ClassDef name bases kw body' d
                | For t i _ o => For t i body' o
                | While t _ o => While t body' o
                | If t _ o => If t body' o
                | With items _ => With items body'
                | other => other
                end, c));
            destruct (visit_body body cur) as [body' c1]; simpl in Hm, Hc; subst c1;
            exists n; split; [|done]; simpl fst).
  - by constructor.
  - by constructor.
  - by constructor.
  - rewrite <- (app_nil_r (seq cur n)). constructor; [done|apply marked_rest_untouched'].
  - rewrite <- (app_nil_r (seq cur n)). constructor; [done|apply marked_rest_untouched'].
  - rewrite <- (app_nil_r (seq cur n)). constructor; [done|apply marked_rest_untouched'].
  - by constructor.
  - destruct (visit_handlers_marks handlers H0 cur) as (n & Hm & Hc).
    destruct (visit_body_marks body H (cur + n)) as (n' & Hm' & Hc').
    change (visit (Try body handlers orelse finalbody) cur) with
      (let '(handlers', c) := visit_handlers handlers cur in
       let '(body', c) := visit_body body c in
       (Try body' handlers' orelse finalbody, c)).
    destruct (visit_handlers handlers cur) as [handlers' c1]. simpl in Hm, Hc. subst c1.
    destruct (visit_body body (cur + n)) as [body' c2]. simpl in Hm', Hc'. subst c2.
    exists (n + n'). split; [|simpl; lia]. simpl fst.
    rewrite seq_app.
    rewrite <- (app_nil_r (seq (cur + n) n')).
    rewrite <- (app_nil_r (seq (cur + n) n' ++ [])) at 1.
    rewrite <- !app_assoc.
    constructor; [done|done|apply marked_rest_untouched'..].
Qed.

Lemma seq_strictly_increasing cur n : strictly_increasing (seq cur n).
Proof.
  intros i j a b Hi Hj Hlt.
  apply lookup_seq in Hi as [-> _]. apply lookup_seq in Hj as [-> _]. lia.
Qed.

(** C3, as the code has it: in the module of a cell, the inserter puts a
    marker immediately before each statement of the body of the module and,
    inside these statements, of every [body] sequence of a compound
    statement or of an exception handler; the [orelse] and [finalbody]
    sequences are left as they were.  The line numbers of the site
    identifiers, taken in the order in which the markers are made, are
    [cur_line_id], [cur_line_id + 1], ...: they are strictly increasing and
    pairwise distinct. *)
Theorem markers_before_body_statements (m : module_) (cur_line_id : nat) :
  ∃ ids,
    marked_body ids (mod_body m)
      (mod_body (visit_Module insert_stmt_template cell_counter m cur_line_id).1)
    ∧ (visit_Module insert_stmt_template cell_counter m cur_line_id).2
      = cur_line_id + length ids
    ∧ ids = seq cur_line_id (length ids)
    ∧ strictly_increasing ids
    ∧ NoDup ids.
Proof.
  destruct (visit_body_marks (mod_body m)) with (cur := cur_line_id) as (n & Hm & Hc).
  { apply Forall_forall. intros s _. apply visit_marks. }
  exists (seq cur_line_id n). unfold visit_Module.
  destruct (visit_body (mod_body m) cur_line_id) as [body' c]. simpl in *.
  rewrite length_seq. repeat split; try done.
  - apply seq_strictly_increasing.
  - apply NoDup_seq.
Qed.

End Facts.

(** A template, and a cell with an [else] branch:
    [if c: pass] / [else: pass]. *)
Definition sample_template (site_id : Z * nat) : stmt :=
  Expr (Call (Name "marker" Load)
             [Tuple [Constant (CNum site_id.1);
                     Constant (CNum (Z.of_nat site_id.2))] Load] []).

Definition cell_with_else : module_ :=
  Module [If (Name "c" Load) [Pass] [Pass]].

(** C3 as the claim states it fails: the statement of the [else] branch
    gets no marker, so the output is not marked everywhere, whatever the
    line numbers. *)
Lemma else_branch_not_marked :
  instrument sample_template 7 cell_with_else
  = Module [sample_template (7%Z, 0);
            If (Name "c" Load) [sample_template (7%Z, 1); Pass] [Pass]]
  ∧ ¬ ∃ ids,
      marked_body sample_template 7 true ids (mod_body cell_with_else)
        (mod_body (instrument sample_template 7 cell_with_else)).
Proof.
  split; [reflexivity|].
  intros [ids H]. vm_compute in H.
  inversion H as [|? ? ? ? ? ? ? Hs _]; subst.
  inversion Hs as [| | | | |? ? ? ? ? ? ? _ Hr| | | | | | |]; subst.
  inversion Hr as [? ? ? _ Hb|]; subst; [|done].
  inversion Hb.
Qed.

(** An [elif] branch and a [finally] block: [if c: pass] / [elif d: pass]
    has its [elif] part in the [orelse] of the outer [If], and
    [try: pass] / [finally: pass] its last statement in [finalbody].  The
    inner [If], its body and the statement of the [finally] block are left
    as they were, with no marker. *)
Definition cell_with_elif : module_ :=
  Module [If (Name "c" Load) [Pass] [If (Name "d" Load) [Pass] []]].

Definition cell_with_finally : module_ :=
  Module [Try [Pass] [] [] [Pass]].

Lemma elif_and_finally_not_marked :
  instrument sample_template 7 cell_with_elif
  = Module [sample_template (7%Z, 0);
            If (Name "c" Load) [sample_template (7%Z, 1); Pass]
               [If (Name "d" Load) [Pass] []]]
  ∧ instrument sample_template 7 cell_with_finally
    = Module [sample_template (7%Z, 0);
              Try [sample_template (7%Z, 1); Pass] [] [] [Pass]].
Proof. split; reflexivity. Qed.

End Markers.

(** ** Induction on expressions *)

Module ExprInduction.
Import Ast.

(** A property of the expressions in the annotation of a parameter, and in
    the annotations and default values of an [arguments] node. *)
Definition arg_all (P : expr → Prop) (a : arg) : Prop :=
  match a with
  | Arg _ (Some ann) => P ann
  | Arg _ None => True
  end.

Definition opt_all {A} (P : A → Prop) (o : option A) : Prop :=
  match o with Some x => P x | None => True end.

Definition arguments_all (P : expr → Prop) (a : arguments) : Prop :=
  match a with
  | Arguments args vararg kwonlyargs kw_defaults kwarg defaults =>
      Forall (arg_all P) args ∧ opt_all (arg_all P) vararg
      ∧ Forall (arg_all P) kwonlyargs ∧ Forall (opt_all P) kw_defaults
      ∧ opt_all (arg_all P) kwarg ∧ Forall P defaults
  end.

Section Principle.

Variable P : expr → Prop.

Hypothesis P_Name : ∀ id ctx, P (Name id ctx).
Hypothesis P_Constant : ∀ value, P (Constant value).
Hypothesis P_Attribute : ∀ value attr ctx, P value → P (Attribute value attr ctx).
Hypothesis P_Subscript : ∀ value s ctx, P value → P (Subscript value s ctx).
Hypothesis P_Call : ∀ func args keywords,
  P func → Forall P args →
  Forall (fun k => match k with Keyword _ value => P value end) keywords →
  P (Call func args keywords).
Hypothesis P_BinOp : ∀ l op r, P l → P r → P (BinOp l op r).
Hypothesis P_List : ∀ elts ctx, Forall P elts → P (List_ elts ctx).
Hypothesis P_Tuple : ∀ elts ctx, Forall P elts → P (Tuple elts ctx).
Hypothesis P_Lambda : ∀ args body,
  arguments_all P args → P body → P (Lambda args body).

(** The slices of subscripts are left out: no visitor goes into them. *)
Fixpoint expr_ind' (e : expr) {struct e} : P e :=
  let on_list :=
    fix go (l : list expr) : Forall P l :=
      match l with
      | [] => List.Forall_nil P
      | e :: l => List.Forall_cons P e l (expr_ind' e) (go l)
      end in
  let on_arg (a : arg) : arg_all P a :=
    match a with
    | Arg _ (Some ann) => expr_ind' ann
    | Arg _ None => I
    end in
  let on_args :=
    fix go (l : list arg) : Forall (arg_all P) l :=
      match l with
      | [] => List.Forall_nil _
      | a :: l => List.Forall_cons _ a l (on_arg a) (go l)
      end in
  let on_arg_opt (o : option arg) : opt_all (arg_all P) o :=
    match o with
    | Some a => on_arg a
    | None => I
    end in
  match e with
  | Name id ctx => P_Name id ctx
  | Constant value => P_Constant value
  | Attribute value attr ctx => P_Attribute value attr ctx (expr_ind' value)
  | Subscript value s ctx => P_Subscript value s ctx (expr_ind' value)
  | Call func args keywords =>
      P_Call func args keywords (expr_ind' func) (on_list args)
        ((fix go (l : list keyword)
            : Forall (fun k => match k with Keyword _ value => P value end) l :=
            match l with
            | [] => List.Forall_nil _
            | Keyword a value :: l =>
                List.Forall_cons _ (Keyword a value) l (expr_ind' value) (go l)
            end) keywords)
  | BinOp l op r => P_BinOp l op r (expr_ind' l) (expr_ind' r)
  | List_ elts ctx => P_List elts ctx (on_list elts)
  | Tuple elts ctx => P_Tuple elts ctx (on_list elts)
  | Lambda args body =>
      P_Lambda args body
        (match args return arguments_all P args with
         | Arguments a vararg kwonlyargs kw_defaults kwarg defaults =>
             conj (on_args a)
               (conj (on_arg_opt vararg)
                  (conj (on_args kwonlyargs)
                     (conj
                        ((fix go (l : list (option expr)) : Forall (opt_all P) l :=
                            match l with
                            | [] => List.Forall_nil _
                            | None :: l => List.Forall_cons _ None l I (go l)
                            | Some e :: l =>
                                List.Forall_cons _ (Some e) l (expr_ind' e) (go l)
                            end) kw_defaults)
                        (conj (on_arg_opt kwarg) (on_list defaults)))))
         end)
        (expr_ind' body)
  end.

End Principle.
End ExprInduction.

(** ** The hyperedge extractor on lambdas *)

Module LambdaReads.
Import Ast Hyperedge.

(** The read-set of the visitor: the set its [rval_name_set] refers to. *)
Definition reads (v : GetHyperEdgeNames) : gset string := deref v (rval_name_set v).

(** The three references denote objects of the store. *)
Definition wf (v : GetHyperEdgeNames) : Prop :=
  lval_name_set v < length (sets v)
  ∧ rval_name_set v < length (sets v)
  ∧ to_add_set v < length (sets v).

(** [to_add_set] is not the object [rval_name_set] refers to. *)
Definition detached (v : GetHyperEdgeNames) : Prop := to_add_set v ≠ rval_name_set v.

Lemma wf_init : wf init.
Proof. unfold wf, init. simpl. lia. Qed.

(** *** The store operations *)

Lemma deref_set_add r x v r' :
  r < length (sets v) →
  deref (set_add r x v) r' = if decide (r' = r) then {[x]} ∪ deref v r else deref v r'.
Proof.
  intros Hr. unfold deref, set_add. simpl.
  destruct (decide (r' = r)) as [->|Hne].
  - rewrite list_lookup_alter_eq. by destruct (lookup_lt_is_Some_2 _ _ Hr) as [s ->].
  - by rewrite list_lookup_alter_ne.
Qed.

Lemma length_set_add r x v : length (sets (set_add r x v)) = length (sets v).
Proof. unfold set_add. simpl. apply length_alter. Qed.

(** Adding names to the newest set of the store. *)
Lemma visit_arg_last a sets0 s lv ta :
  visit_arg a (mkVisitor (sets0 ++ [s]) lv (length sets0) ta)
  = mkVisitor (sets0 ++ [{[arg_name a]} ∪ s]) lv (length sets0) ta.
Proof.
  unfold visit_arg, set_add. simpl. f_equal.
  rewrite <- (Nat.add_0_r (length sets0)) at 1. by rewrite alter_app_r.
Qed.

Lemma visit_arg_list_last l sets0 s lv ta :
  visit_arg_list l (mkVisitor (sets0 ++ [s]) lv (length sets0) ta)
  = mkVisitor (sets0 ++ [list_to_set (map arg_name l) ∪ s]) lv (length sets0) ta.
Proof.
  revert s. induction l as [|a l IH]; intros s.
  - simpl. f_equal. f_equal. f_equal. set_solver.
  - change (visit_arg_list (a :: l) ?V) with (visit_arg_list l (visit_arg a V)).
    rewrite visit_arg_last, IH. f_equal. f_equal. f_equal. set_solver.
Qed.

Lemma visit_arg_opt_last o sets0 s lv ta :
  visit_arg_opt o (mkVisitor (sets0 ++ [s]) lv (length sets0) ta)
  = mkVisitor (sets0 ++ [list_to_set (option_list (arg_name <$> o)) ∪ s])
      lv (length sets0) ta.
Proof.
  destruct o as [a|]; simpl.
  - rewrite visit_arg_last. f_equal. f_equal. f_equal. set_solver.
  - f_equal. f_equal. f_equal. set_solver.
Qed.

(** [remove_bound] makes two sets: the set of the bound names, and the
    difference, which becomes the read-set. *)
Lemma remove_bound_spec a v :
  wf v →
  remove_bound a v
  = mkVisitor (sets v ++ [list_to_set (bound_names a);
                          reads v ∖ list_to_set (bound_names a)])
      (lval_name_set v) (S (length (sets v))) (to_add_set v).
Proof.
  intros (Hl & Hr & Ht). destruct a as [args vararg kwonlyargs kwd kwarg dflt].
  unfold remove_bound, new_set, set_rval_name_set. simpl.
  rewrite visit_arg_list_last, visit_arg_opt_last, visit_arg_list_last,
    visit_arg_opt_last.
  simpl. unfold deref at 1 2. simpl.
  rewrite lookup_app_l by done.
  rewrite list_lookup_middle by done. simpl.
  rewrite length_app. simpl. rewrite Nat.add_1_r.
  rewrite <- app_assoc. simpl.
  unfold reads, deref.
  f_equal. f_equal. f_equal.
  - rewrite !list_to_set_app_L. set_solver.
  - f_equal. f_equal. rewrite !list_to_set_app_L. set_solver.
Qed.

(** *** What a visit does to the read-set

    [visits ps f]: the visit [f], of a part of the statement whose lambdas
    bind the names [ps], keeps the store well formed and [to_add_set] and
    [lval_name_set] as they are; once [to_add_set] is detached from the
    read-set it stays so and the read-set can only lose names; a visit of a
    lambda detaches it; the read-set holds none of [ps] afterwards; and the
    sets of the store other than the one [to_add_set] refers to are what
    they were. *)
Definition visits (ps : list string) (f : GetHyperEdgeNames → GetHyperEdgeNames) : Prop :=
  ∀ v, wf v →
    wf (f v)
    ∧ to_add_set (f v) = to_add_set v
    ∧ lval_name_set (f v) = lval_name_set v
    ∧ (detached v → detached (f v) ∧ reads (f v) ⊆ reads v)
    ∧ (ps ≠ [] → detached (f v))
    ∧ (∀ p, p ∈ ps → p ∉ reads (f v))
    ∧ (length (sets v) ≤ length (sets (f v)))%nat
    ∧ (∀ r, r < length (sets v) → r ≠ to_add_set v → deref (f v) r = deref v r).

Lemma visits_id : visits [] (fun v => v).
Proof.
  intros v Hv. split; [done|]. split; [done|]. split; [done|].
  split; [done|]. split; [done|]. split; [|done].
  intros p Hp. by apply elem_of_nil in Hp.
Qed.

Lemma visits_comp ps1 ps2 f g :
  visits ps1 f → visits ps2 g → visits (ps1 ++ ps2) (fun v => g (f v)).
Proof.
  intros Hf Hg v Hv.
  destruct (Hf v Hv) as (Hw1 & Ht1 & Hl1 & Hd1 & Hn1 & Hp1 & Hlen1 & Hu1).
  destruct (Hg (f v) Hw1) as (Hw2 & Ht2 & Hl2 & Hd2 & Hn2 & Hp2 & Hlen2 & Hu2).
  split; [done|]. split; [congruence|]. split; [congruence|].
  split; [|split; [|split; [|split]]].
  - intros Hd. destruct (Hd1 Hd) as [Hd' Hs]. destruct (Hd2 Hd') as [Hd'' Hs'].
    split; [done|]. set_solver.
  - intros Hne. destruct ps2 as [|p2 ps2].
    + rewrite app_nil_r in Hne. by apply Hd2, Hn1.
    + by apply Hn2.
  - intros p Hp. apply elem_of_app in Hp as [Hp|Hp].
    + assert (Hne : ps1 ≠ []) by (intros ->; by apply elem_of_nil in Hp).
      destruct (Hd2 (Hn1 Hne)) as [_ Hs]. specialize (Hp1 p Hp). set_solver.
    + by apply Hp2.
  - lia.
  - intros r Hr Hne. rewrite Hu2; [by apply Hu1|lia|congruence].
Qed.

(** [visit_Name] *)
Lemma visits_Name id :
  visits [] (fun v => set_add (to_add_set v) id v).
Proof.
  intros v (Hl & Hr & Ht). unfold wf, detached, reads.
  rewrite length_set_add. simpl.
  split; [done|]. split; [done|]. split; [done|].
  split; [|split; [|split; [|split]]]; [|done| |done|].
  - intros Hd. split; [done|]. rewrite deref_set_add by done.
    by rewrite decide_False by done.
  - intros p Hp. by apply elem_of_nil in Hp.
  - intros r _ Hne. rewrite deref_set_add by done. by rewrite decide_False.
Qed.

(** The end of [visit_Lambda] *)
Lemma visits_remove_bound a : visits (bound_names a) (remove_bound a).
Proof.
  intros v Hv. rewrite (remove_bound_spec a v Hv). destruct Hv as (Hl & Hr & Ht).
  unfold wf, detached, reads, deref. simpl.
  rewrite !length_app. simpl.
  assert (Hlast : (sets v ++ [list_to_set (bound_names a);
                              default ∅ (sets v !! rval_name_set v)
                              ∖ list_to_set (bound_names a)])
                  !! S (length (sets v))
                  = Some (default ∅ (sets v !! rval_name_set v)
                          ∖ list_to_set (bound_names a))).
  { rewrite lookup_app_r by lia. by replace (S _ - _) with 1 by lia. }
  rewrite Hlast. simpl.
  split; [lia|]. split; [done|]. split; [done|].
  split; [|split; [|split; [|split]]].
  - intros _. split; [lia|]. set_solver.
  - intros _. lia.
  - intros p Hp. set_solver.
  - lia.
  - intros r Hlt _. by rewrite lookup_app_l.
Qed.

Lemma visits_ext ps f g : (∀ v, f v = g v) → visits ps g → visits ps f.
Proof. intros E Hg v Hv. rewrite !E. by apply Hg. Qed.

(** *** The visit of an expression *)

Lemma visits_exprs l :
  Forall (fun e => visits (lambda_params e) (visit_expr e)) l →
  visits (lambda_params_list l) (visit_exprs l).
Proof.
  induction 1 as [|e l He _ IH]; [apply visits_id|].
  apply (visits_ext _ _ (fun v => visit_exprs l (visit_expr e v))); [done|].
  by apply (visits_comp _ _ (visit_expr e) (visit_exprs l)).
Qed.

Lemma visits_keywords l :
  Forall (fun k => match k with
                   | Keyword _ value => visits (lambda_params value) (visit_expr value)
                   end) l →
  visits (lambda_params_keywords l) (visit_keywords l).
Proof.
  induction 1 as [|[a value] l He _ IH]; [apply visits_id|].
  apply (visits_ext _ _ (fun v => visit_keywords l (visit_expr value v))); [done|].
  by apply (visits_comp _ _ (visit_expr value) (visit_keywords l)).
Qed.

Lemma visits_opt_exprs l :
  Forall (ExprInduction.opt_all (fun e => visits (lambda_params e) (visit_expr e))) l →
  visits (lambda_params_opts l) (visit_opt_exprs l).
Proof.
  induction 1 as [|[e|] l He _ IH]; [apply visits_id| |done].
  apply (visits_ext _ _ (fun v => visit_opt_exprs l (visit_expr e v))); [done|].
  by apply (visits_comp _ _ (visit_expr e) (visit_opt_exprs l)).
Qed.

Lemma visits_arguments a :
  ExprInduction.arguments_all (fun e => visits (lambda_params e) (visit_expr e)) a →
  visits (lambda_params_arguments a) (visit_arguments a).
Proof.
  destruct a as [args vararg kwonlyargs kwd kwarg dflt].
  intros (_ & _ & _ & Hk & _ & Hd).
  apply (visits_ext _ _ (fun v => visit_opt_exprs kwd (visit_exprs dflt v))); [done|].
  change (lambda_params_arguments (Arguments args vararg kwonlyargs kwd kwarg dflt))
    with (lambda_params_list dflt ++ lambda_params_opts kwd).
  apply (visits_comp _ _ (visit_exprs dflt) (visit_opt_exprs kwd));
    [by apply visits_exprs|by apply visits_opt_exprs].
Qed.

Lemma visits_expr e : visits (lambda_params e) (visit_expr e).
Proof.
  induction e as [id ctx|c|value attr ctx IH|value s ctx IH|func args kws IHf IHa IHk
                 |l op r IHl IHr|elts ctx IH|elts ctx IH|args body IHa IHb]
    using ExprInduction.expr_ind'.
  - apply visits_Name.
  - apply visits_id.
  - exact IH.
  - exact IH.
  - apply (visits_ext _ _ (fun v => visit_keywords kws (visit_exprs args (visit_expr func v))));
      [done|].
    change (lambda_params (Call func args kws))
      with (lambda_params func ++ lambda_params_list args ++ lambda_params_keywords kws).
    apply (visits_comp _ _ (visit_expr func)
             (fun v => visit_keywords kws (visit_exprs args v))); [done|].
    apply (visits_comp _ _ (visit_exprs args) (visit_keywords kws));
      [by apply visits_exprs|by apply visits_keywords].
  - apply (visits_ext _ _ (fun v => visit_expr r (visit_expr l v))); [done|].
    by apply (visits_comp _ _ (visit_expr l) (visit_expr r)).
  - by apply visits_exprs in IH.
  - by apply visits_exprs in IH.
  - apply (visits_ext _ _ (fun v => remove_bound args (visit_arguments args (visit_expr body v))));
      [done|].
    change (lambda_params (Lambda args body))
      with (lambda_params body ++ lambda_params_arguments args ++ bound_names args).
    apply (visits_comp _ _ (visit_expr body)
             (fun v => remove_bound args (visit_arguments args v))); [done|].
    apply (visits_comp _ _ (visit_arguments args) (remove_bound args));
      [by apply visits_arguments|apply visits_remove_bound].
Qed.

Lemma visits_all_exprs l : visits (lambda_params_list l) (visit_exprs l).
Proof. apply visits_exprs, Forall_forall. intros e _. apply visits_expr. Qed.

Lemma visits_all_keywords l : visits (lambda_params_keywords l) (visit_keywords l).
Proof. apply visits_keywords, Forall_forall. intros [a e] _. apply visits_expr. Qed.

Lemma visits_all_arguments a : visits (lambda_params_arguments a) (visit_arguments a).
Proof.
  apply visits_arguments. destruct a as [args vararg kwonlyargs kwd kwarg dflt].
  repeat split.
  - apply Forall_forall. intros [n [ann|]] _; [apply visits_expr|done].
  - destruct vararg as [[n [ann|]]|]; [apply visits_expr|done..].
  - apply Forall_forall. intros [n [ann|]] _; [apply visits_expr|done].
  - apply Forall_forall. intros [e|] _; [apply visits_expr|done].
  - destruct kwarg as [[n [ann|]]|]; [apply visits_expr|done..].
  - apply Forall_forall. intros e _. apply visits_expr.
Qed.

Lemma visits_withitems l :
  visits (concat (map lambda_params_withitem l)) (visit_withitems l).
Proof.
  induction l as [|[ce ov] l IH]; [apply visits_id|].
  apply (visits_ext _ _ (fun v => visit_withitems l (visit_withitem (Withitem ce ov) v)));
    [done|].
  change (concat (map lambda_params_withitem (Withitem ce ov :: l)))
    with (lambda_params_withitem (Withitem ce ov)
          ++ concat (map lambda_params_withitem l)).
  apply (visits_comp _ _ (visit_withitem (Withitem ce ov)) (visit_withitems l)); [|done].
  unfold visit_withitem, lambda_params_withitem. simpl.
  apply (visits_comp _ _ (visit_expr ce) (visit_expr_opt ov)); [apply visits_expr|].
  destruct ov as [e|]; [apply visits_expr|apply visits_id].
Qed.

(** *** The visit of a statement *)

Lemma visit_stmts_placeholder body v : placeholder body → visit_stmts body v = v.
Proof. induction 1 as [|s l <- _ IH]; [done|]. exact IH. Qed.

Lemma wf_set_to_add_set r v : wf v → r < length (sets v) → wf (set_to_add_set r v).
Proof. intros (? & ? & ?) ?. by repeat split. Qed.

Lemma header_reads s ps v :
  header s ps → wf v → ∀ p, p ∈ ps → p ∉ reads (visit_stmt s v).
Proof.
  intros Hh Hv.
  destruct Hh as [value|value|targets value|target op value|target iter body orelse
                 |name args body dl returns|name args body dl returns
                 |test body orelse Hb Ho|test body orelse Hb Ho|items body Hb
                 |name bases kws body dl Hb].
  - apply (visits_expr value v Hv).
  - apply (visits_expr value v Hv).
  - change (visit_stmt (Assign targets value) v)
      with (let v1 := visit_exprs targets (set_to_add_set (lval_name_set v) v) in
            visit_expr value (set_to_add_set (rval_name_set v1) v1)).
    assert (Hv1 : wf (set_to_add_set (lval_name_set v) v))
      by (apply wf_set_to_add_set; [done|apply Hv]).
    destruct (visits_all_exprs targets _ Hv1) as (Hv2 & _).
    cbv zeta. apply visits_expr. apply wf_set_to_add_set; [done|apply Hv2].
  - change (visit_stmt (AugAssign target op value) v)
      with (let v1 := visit_expr target (set_to_add_set (lval_name_set v) v) in
            visit_expr value (set_to_add_set (rval_name_set v1) v1)).
    assert (Hv1 : wf (set_to_add_set (lval_name_set v) v))
      by (apply wf_set_to_add_set; [done|apply Hv]).
    destruct (visits_expr target _ Hv1) as (Hv2 & _).
    cbv zeta. apply visits_expr. apply wf_set_to_add_set; [done|apply Hv2].
  - change (visit_stmt (For target iter body orelse) v)
      with (let v1 := visit_expr target (set_to_add_set (lval_name_set v) v) in
            visit_expr iter (set_to_add_set (rval_name_set v1) v1)).
    assert (Hv1 : wf (set_to_add_set (lval_name_set v) v))
      by (apply wf_set_to_add_set; [done|apply Hv]).
    destruct (visits_expr target _ Hv1) as (Hv2 & _).
    cbv zeta. apply visits_expr. apply wf_set_to_add_set; [done|apply Hv2].
  - change (visit_stmt (FunctionDef name args body dl returns) v)
      with (visit_FunctionDef name args v).
    unfold visit_FunctionDef. apply visits_all_arguments.
    destruct Hv as (Hl & Hr & Ht). unfold wf. simpl. by rewrite length_alter.
  - change (visit_stmt (AsyncFunctionDef name args body dl returns) v)
      with (visit_FunctionDef name args v).
    unfold visit_FunctionDef. apply visits_all_arguments.
    destruct Hv as (Hl & Hr & Ht). unfold wf. simpl. by rewrite length_alter.
  - change (visit_stmt (While test body orelse) v)
      with (visit_stmts orelse (visit_stmts body (visit_expr test v))).
    rewrite !visit_stmts_placeholder by done. by apply visits_expr.
  - change (visit_stmt (If test body orelse) v)
      with (visit_stmts orelse (visit_stmts body (visit_expr test v))).
    rewrite !visit_stmts_placeholder by done. by apply visits_expr.
  - change (visit_stmt (With items body) v)
      with (visit_stmts body (visit_withitems items v)).
    rewrite visit_stmts_placeholder by done. by apply visits_withitems.
  - change (visit_stmt (ClassDef name bases kws body dl) v)
      with (visit_exprs dl (visit_stmts body (visit_keywords kws (visit_exprs bases v)))).
    rewrite visit_stmts_placeholder by done.
    apply (visits_comp _ _ (visit_exprs bases)
             (fun v => visit_exprs dl (visit_keywords kws v)));
      [apply visits_all_exprs| |done].
    apply (visits_comp _ _ (visit_keywords kws) (visit_exprs dl));
      [apply visits_all_keywords|apply visits_all_exprs].
Qed.

(** C10, as the code has it.  [visit_Lambda] subtracts the parameter names
    of the lambda from the whole read-set, whatever put the names there.
    In the statements whose lambdas come last ([header]), no parameter name
    of these lambdas is in the final read-set, even when the name is read
    elsewhere in the statement, outside the lambda. *)
Theorem lambda_params_not_read :
  (∀ args body v,
     wf v →
     reads (visit_expr (Lambda args body) v)
     = reads (visit_arguments args (visit_expr body v)) ∖ list_to_set (bound_names args))
  ∧ (∀ s ps p,
       header s ps → p ∈ ps → p ∉ (get_hyperedge_lvals_and_rvals s).2).
Proof.
  split.
  - intros args body v Hv.
    change (visit_expr (Lambda args body) v)
      with (remove_bound args (visit_arguments args (visit_expr body v))).
    destruct (visits_expr body v Hv) as (Hv1 & _).
    destruct (visits_all_arguments args _ Hv1) as (Hv2 & _).
    rewrite (remove_bound_spec args _ Hv2). unfold reads at 1, deref. simpl.
    rewrite lookup_app_r by lia. by replace (S _ - _) with 1 by lia.
  - intros s ps p Hh Hp. by apply (header_reads s ps init Hh wf_init).
Qed.

(** [g = (x, lambda x: x + y)]: [x] is read outside the lambda, before it. *)
Definition read_then_bound : stmt :=
  Assign [Name "g" Store]
    (Tuple [Name "x" Load;
            Lambda (Arguments [Arg "x" None] None [] [] None [])
                   (BinOp (Name "x" Load) Add (Name "y" Load))] Load).

Lemma lambda_params_not_read_witness :
  "x" ∉ (get_hyperedge_lvals_and_rvals read_then_bound).2.
Proof.
  apply (proj2 lambda_params_not_read read_then_bound ["x"] "x").
  - apply (header_Assign [Name "g" Store]).
  - apply list_elem_of_here.
Defined.

(** [(lambda x: x).a = x]: the lambda is in the target, which is visited
    before [to_add_set] is bound to the read-set again. *)
Definition lambda_in_target : stmt :=
  Assign [Attribute (Lambda (Arguments [Arg "x" None] None [] [] None [])
                            (Name "x" Load)) "a" Store]
         (Name "x" Load).

(** C10 as the claim states it fails: the statement contains a lambda with
    the parameter [x], which the extractor visits, and [x] is in the final
    read-set. *)
Lemma lambda_param_read_after_lambda :
  "x" ∈ lambda_params_list [Attribute (Lambda (Arguments [Arg "x" None] None [] [] None [])
                                             (Name "x" Load)) "a" Store]
  ∧ get_hyperedge_lvals_and_rvals lambda_in_target = ({["x"]}, {["x"]})
  ∧ "x" ∈ (get_hyperedge_lvals_and_rvals lambda_in_target).2.
Proof.
  split; [|split].
  - simpl. apply list_elem_of_here.
  - by vm_compute.
  - replace (get_hyperedge_lvals_and_rvals lambda_in_target).2
      with ({["x"]} : gset string) by (by vm_compute).
    set_solver.
Qed.

End LambdaReads.

(** ** The hyperedge extractor on class and [with] headers *)

Module HyperedgeHeaders.
Import Ast Hyperedge LambdaReads.

(** The statements of the test module [test_stmt_edges.py], with the body
    the line-by-line visitor is given (a placeholder). *)
Definition class_Foo : stmt := ClassDef "Foo" [Name "object" Load] [] [Pass] [].
Definition class_Bar : stmt := ClassDef "Bar" [Name "Foo" Load] [] [Pass] [].
Definition class_Baz : stmt :=
  ClassDef "Baz" [Name "Foo" Load; Name "Bar" Load] [] [Pass] [].

(** [with open(fname) as f:] *)
Definition with_open : stmt :=
  With [Withitem (Call (Name "open" Load) [Name "fname" Load] [])
                 (Some (Name "f" Store))]
       [Pass].

(** A visit of expressions that starts from a new visitor, where
    [to_add_set] is the read-set, leaves the write-set empty. *)
Lemma visits_no_write ps f : visits ps f → (result (f init)).1 = ∅.
Proof.
  intros Hf. destruct (Hf init wf_init) as (_ & _ & Hl & _ & _ & _ & _ & Hu).
  unfold result. simpl. rewrite Hl. simpl. by rewrite Hu by (simpl; lia).
Qed.

(** C1 (what the code does): the extractor has no [visit_ClassDef], and
    [generic_visit] never adds the name of the class, a string, to a set.
    On every class header the write-set is empty; on the three headers of
    the claim the extractor returns an empty write-set, not the name of the
    class, and the names of the base classes as the read-set. *)
Theorem class_header_hyperedges :
  (∀ name bases keywords body decorator_list,
     placeholder body →
     (get_hyperedge_lvals_and_rvals
        (ClassDef name bases keywords body decorator_list)).1 = ∅)
  ∧ get_hyperedge_lvals_and_rvals class_Foo = (∅, {["object"]})
  ∧ get_hyperedge_lvals_and_rvals class_Bar = (∅, {["Foo"]})
  ∧ get_hyperedge_lvals_and_rvals class_Baz = (∅, {["Foo"; "Bar"]}).
Proof.
  split; [|repeat split; by vm_compute].
  intros name bases kws body dl Hb. unfold get_hyperedge_lvals_and_rvals.
  change (visit_stmt (ClassDef name bases kws body dl) init)
    with (visit_exprs dl (visit_stmts body (visit_keywords kws (visit_exprs bases init)))).
  rewrite visit_stmts_placeholder by done.
  apply (visits_no_write
           (lambda_params_list bases
            ++ lambda_params_keywords kws ++ lambda_params_list dl)
           (fun v => visit_exprs dl (visit_keywords kws (visit_exprs bases v)))).
  apply (visits_comp _ _ (visit_exprs bases)
           (fun v => visit_exprs dl (visit_keywords kws v)));
    [apply visits_all_exprs|].
  apply (visits_comp _ _ (visit_keywords kws) (visit_exprs dl));
    [apply visits_all_keywords|apply visits_all_exprs].
Qed.

(** C2 (what the code does): [With] and [withitem] have no visit method,
    so [optional_vars] is visited as any other name, while [to_add_set] is
    the read-set.  On every [with] header the write-set is empty; on
    [with open(fname) as f:] the as-bound name [f] is in the read-set with
    [open] and [fname]. *)
Theorem with_header_hyperedge :
  (∀ items body,
     placeholder body → (get_hyperedge_lvals_and_rvals (With items body)).1 = ∅)
  ∧ get_hyperedge_lvals_and_rvals with_open = (∅, {["open"; "fname"; "f"]}).
Proof.
  split; [|by vm_compute].
  intros items body Hb. unfold get_hyperedge_lvals_and_rvals.
  change (visit_stmt (With items body) init)
    with (visit_stmts body (visit_withitems items init)).
  rewrite visit_stmts_placeholder by done.
  apply (visits_no_write _ _ (visits_withitems items)).
Qed.

End HyperedgeHeaders.

(** ** The rewriting pass *)

Module Rewriting.
Import Ast Py AttrSubTransformer.

(** The conjunctions over lists that [covered] and [instrumented] build. *)
Section Conjunctions.

Context {A : Type} (P : A → Prop).

Fixpoint all_list (l : list A) : Prop :=
  match l with
  | [] => True
  | x :: l => P x ∧ all_list l
  end.

Fixpoint all_opt_list (l : list (option A)) : Prop :=
  match l with
  | [] => True
  | None :: l => all_opt_list l
  | Some x :: l => P x ∧ all_opt_list l
  end.

End Conjunctions.

Section KeywordConjunction.

Variable P : expr → Prop.

Fixpoint all_keywords (l : list keyword) : Prop :=
  match l with
  | [] => True
  | Keyword _ value :: l => P value ∧ all_keywords l
  end.

End KeywordConjunction.

Fixpoint any_list (l : list expr) : bool :=
  match l with
  | [] => false
  | e :: l => has_access e || any_list l
  end.

Fixpoint any_keywords (l : list keyword) : bool :=
  match l with
  | [] => false
  | Keyword _ value :: l => has_access value || any_keywords l
  end.

Fixpoint any_opt_list (l : list (option expr)) : bool :=
  match l with
  | [] => false
  | None :: l => any_opt_list l
  | Some e :: l => has_access e || any_opt_list l
  end.

Fixpoint any_args (l : list arg) : bool :=
  match l with
  | [] => false
  | x :: l => has_access_arg x || any_args l
  end.

Section Tracer.

Variable tracer : string.

#[local] Abbreviation instrumented := (instrumented tracer).
#[local] Abbreviation instrumented_arg := (instrumented_arg tracer).
#[local] Abbreviation instrumented_arguments := (instrumented_arguments tracer).

(** *** An expression without accesses is instrumented as it is *)

Lemma no_access_list l :
  Forall (fun e => has_access e = false → instrumented e) l →
  any_list l = false → all_list instrumented l.
Proof.
  induction 1 as [|e l He _ IH]; [done|]. simpl.
  intros [H1 H2]%orb_false_elim. split; [by apply He|by apply IH].
Qed.

Lemma no_access_keywords l :
  Forall (fun k => match k with
                   | Keyword _ value => has_access value = false → instrumented value
                   end) l →
  any_keywords l = false → all_keywords instrumented l.
Proof.
  induction 1 as [|[a e] l He _ IH]; [done|]. simpl.
  intros [H1 H2]%orb_false_elim. split; [by apply He|by apply IH].
Qed.

Lemma no_access_opt_list l :
  Forall (ExprInduction.opt_all (fun e => has_access e = false → instrumented e)) l →
  any_opt_list l = false → all_opt_list instrumented l.
Proof.
  induction 1 as [|[e|] l He _ IH]; [done| |done]. simpl.
  intros [H1 H2]%orb_false_elim. split; [by apply He|by apply IH].
Qed.

Lemma no_access_arg x :
  ExprInduction.arg_all (fun e => has_access e = false → instrumented e) x →
  has_access_arg x = false → instrumented_arg x.
Proof. destruct x as [n [ann|]]; simpl; [auto|done]. Qed.

Lemma no_access_args l :
  Forall (ExprInduction.arg_all (fun e => has_access e = false → instrumented e)) l →
  any_args l = false → all_list instrumented_arg l.
Proof.
  induction 1 as [|x l Hx _ IH]; [done|]. simpl.
  intros [H1 H2]%orb_false_elim. split; [by apply no_access_arg|by apply IH].
Qed.

Lemma no_access_instrumented e : has_access e = false → instrumented e.
Proof.
  induction e as [id ctx|c|value attr ctx IH|value s ctx IH|func args kws IHf IHa IHk
                 |l op r IHl IHr|elts ctx IH|elts ctx IH|args body IHa IHb]
    using ExprInduction.expr_ind'; try done.
  - change (has_access (Call func args kws))
      with (has_access func || any_list args || any_keywords kws).
    change (instrumented (Call func args kws))
      with (instrumented func ∧ all_list instrumented args
            ∧ all_keywords instrumented kws).
    intros [[H1 H2]%orb_false_elim H3]%orb_false_elim.
    split; [by apply IHf|]. split; [by apply no_access_list|by apply no_access_keywords].
  - simpl. intros [H1 H2]%orb_false_elim. split; [by apply IHl|by apply IHr].
  - change (has_access (List_ elts ctx)) with (any_list elts).
    change (instrumented (List_ elts ctx)) with (all_list instrumented elts).
    by apply no_access_list.
  - change (has_access (Tuple elts ctx)) with (any_list elts).
    change (instrumented (Tuple elts ctx)) with (all_list instrumented elts).
    by apply no_access_list.
  - destruct args as [a vararg kwonlyargs kwd kwarg dflt].
    destruct IHa as (Ha & Hva & Hko & Hkd & Hkw & Hd).
    change (has_access (Lambda (Arguments a vararg kwonlyargs kwd kwarg dflt) body))
      with (any_args a
            || match vararg with Some x => has_access_arg x | None => false end
            || any_args kwonlyargs || any_opt_list kwd
            || match kwarg with Some x => has_access_arg x | None => false end
            || any_list dflt || has_access body).
    change (instrumented (Lambda (Arguments a vararg kwonlyargs kwd kwarg dflt) body))
      with ((all_list instrumented_arg a
             ∧ match vararg with Some x => instrumented_arg x | None => True end
             ∧ all_list instrumented_arg kwonlyargs
             ∧ all_opt_list instrumented kwd
             ∧ match kwarg with Some x => instrumented_arg x | None => True end
             ∧ all_list instrumented dflt)
            ∧ instrumented body).
    intros [[[[[[H1 H2]%orb_false_elim H3]%orb_false_elim H4]%orb_false_elim
                H5]%orb_false_elim H6]%orb_false_elim H7]%orb_false_elim.
    repeat split.
    + by apply no_access_args.
    + destruct vararg; [by apply no_access_arg|done].
    + by apply no_access_args.
    + by apply no_access_opt_list.
    + destruct kwarg; [by apply no_access_arg|done].
    + by apply no_access_list.
    + by apply IHb.
Qed.

(** *** Visits that return and leave the transformer as it was *)

(** [yields m Q]: run on a transformer whose start tracer is [tracer], the
    visit [m] returns a node that satisfies [Q], and the transformer is
    afterwards what it was before. *)
Definition yields {A} (m : M A) (Q : A → Prop) : Prop :=
  ∀ t, start_tracer t = tracer → ∃ a, m t = inr (a, t) ∧ Q a.

Lemma yields_ret {A} (a : A) (Q : A → Prop) : Q a → yields (ret a) Q.
Proof. intros HQ t _. by exists a. Qed.

Lemma yields_bind {A B} (m : M A) (k : A → M B) (Q : A → Prop) (Q' : B → Prop) :
  yields m Q → (∀ a, Q a → yields (k a) Q') → yields (bind k m) Q'.
Proof.
  intros Hm Hk t Ht. destruct (Hm t Ht) as (a & Ha & HQ).
  destruct (Hk a HQ t Ht) as (b & Hb & HQ').
  exists b. unfold bind. by rewrite Ha.
Qed.

Lemma yields_get : yields get (fun t => start_tracer t = tracer).
Proof. intros t Ht. by exists t. Qed.

Lemma set_inside_same t : set_inside (inside_attrsub_load_chain t) t = t.
Proof. by destruct t. Qed.

Lemma yields_context {A} (b : bool) (m : M A) (Q : A → Prop) :
  yields m Q → yields (attrsub_load_context b m) Q.
Proof.
  intros Hm t Ht. destruct (Hm (set_inside b t) Ht) as (a & Ha & HQ).
  exists a. unfold attrsub_load_context. rewrite Ha. split; [|done].
  f_equal. f_equal. by destruct t.
Qed.

(** *** The visit of an attribute or a subscript node *)

Lemma instrumented_start_call base key is_subscript ctx cc ov :
  instrumented base → instrumented key →
  instrumented (start_call tracer base key is_subscript ctx cc ov).
Proof.
  intros Hb Hk. split; [done|]. split; [|done].
  split; [done|]. split; [done|]. by repeat split.
Qed.

Lemma instrumented_end_call name node :
  instrumented node → instrumented (end_call name node).
Proof. intros Hn. split; [done|]. split; [|done]. by split. Qed.

Lemma yields_Attribute value attr ctx cc :
  yields (visit value) instrumented →
  yields (visit_Attribute_or_Subscript visit value (AttrOf attr) ctx cc) instrumented.
Proof.
  intros Hv. unfold visit_Attribute_or_Subscript.
  eapply yields_bind; [apply yields_get|]. intros t Ht. cbv beta.
  eapply yields_bind; [apply (yields_ret _ (fun k => k = Constant (CStr attr))); done|].
  intros key ->. cbv beta.
  eapply yields_bind; [apply yields_context, Hv|]. intros value' Hvalue'. cbv beta.
  eapply yields_bind; [apply yields_get|]. intros t' Ht'. cbv beta.
  assert (Hnode : instrumented
            (Attribute (start_call (start_tracer t) value' (Constant (CStr attr)) false ctx cc
                          (is_Load ctx || inside_attrsub_load_chain t)) attr ctx)).
  { rewrite Ht. split; [by eexists _, _, _|]. by apply instrumented_start_call. }
  destruct (negb (inside_attrsub_load_chain t') && _); apply yields_ret; [|done].
  by apply instrumented_end_call.
Qed.

Lemma yields_Subscript value key ctx cc :
  yields (visit value) instrumented → has_access key = false →
  yields (visit_Attribute_or_Subscript visit value (SliceOf (Index key)) ctx cc)
         instrumented.
Proof.
  intros Hv Hk. apply (no_access_instrumented key) in Hk.
  unfold visit_Attribute_or_Subscript.
  eapply yields_bind; [apply yields_get|]. intros t Ht. cbv beta.
  eapply yields_bind; [apply (yields_ret _ (fun k => k = key)); done|].
  intros ? ->. cbv beta.
  eapply yields_bind; [apply yields_context, Hv|]. intros value' Hvalue'. cbv beta.
  eapply yields_bind; [apply yields_get|]. intros t' Ht'. cbv beta.
  assert (Hnode : instrumented
            (Subscript (start_call (start_tracer t) value' key true ctx cc
                          (is_Load ctx || inside_attrsub_load_chain t))
                       (Index key) ctx)).
  { rewrite Ht. split; [by eexists _, _, _|].
    split; [by apply instrumented_start_call|done]. }
  destruct (negb (inside_attrsub_load_chain t') && _); apply yields_ret; [|done].
  by apply instrumented_end_call.
Qed.

(** *** The visit of an expression *)

Lemma yields_visit_list l :
  Forall (fun e => covered e → yields (visit e) instrumented) l →
  all_list covered l → yields (visit_list l) (all_list instrumented).
Proof.
  induction 1 as [|e l He _ IH]; intros Hc; [by apply yields_ret|].
  destruct Hc as [Hce Hcl].
  change (visit_list (e :: l))
    with (bind (fun e' => bind (fun l' => ret (e' :: l')) (visit_list l)) (visit e)).
  eapply yields_bind; [by apply He|]. intros e' He'. cbv beta.
  eapply yields_bind; [by apply IH|]. intros l' Hl'. cbv beta.
  by apply yields_ret.
Qed.

Lemma yields_call_arg e :
  (covered e → yields (visit e) instrumented) → covered e →
  yields (match e with
          | Name id _ =>
              bind (fun t => ret (Call (Name (arg_recorder t) Load)
                                       [e; Constant (CStr id)] []))
                   get
          | _ => attrsub_load_context false (visit e)
          end) instrumented.
Proof.
  intros He Hc.
  destruct e; try (by apply yields_context, He).
  eapply yields_bind; [apply yields_get|]. intros t _. cbv beta.
  apply yields_ret. by repeat split.
Qed.

Lemma yields_call_args l :
  Forall (fun e => covered e → yields (visit e) instrumented) l →
  all_list covered l → yields (visit_call_args l) (all_list instrumented).
Proof.
  induction 1 as [|e l He _ IH]; intros Hc; [by apply yields_ret|].
  destruct Hc as [Hce Hcl].
  change (visit_call_args (e :: l))
    with (bind (fun e' => bind (fun l' => ret (e' :: l')) (visit_call_args l))
               (match e with
                | Name id _ =>
                    bind (fun t => ret (Call (Name (arg_recorder t) Load)
                                             [e; Constant (CStr id)] []))
                         get
                | _ => attrsub_load_context false (visit e)
                end)).
  eapply yields_bind; [by apply yields_call_arg|]. intros e' He'. cbv beta.
  eapply yields_bind; [by apply IH|]. intros l' Hl'. cbv beta.
  by apply yields_ret.
Qed.

Lemma yields_visit_opt_list l :
  Forall (ExprInduction.opt_all (fun e => covered e → yields (visit e) instrumented)) l →
  all_opt_list covered l → yields (visit_opt_list l) (all_opt_list instrumented).
Proof.
  induction 1 as [|[e|] l He _ IH]; intros Hc; [by apply yields_ret| |].
  - destruct Hc as [Hce Hcl].
    change (visit_opt_list (Some e :: l))
      with (bind (fun e' => bind (fun l' => ret (Some e' :: l')) (visit_opt_list l))
                 (visit e)).
    eapply yields_bind; [by apply He|]. intros e' He'. cbv beta.
    eapply yields_bind; [by apply IH|]. intros l' Hl'. cbv beta.
    by apply yields_ret.
  - change (visit_opt_list (None :: l))
      with (bind (fun l' => ret (None :: l')) (visit_opt_list l)).
    eapply yields_bind; [by apply IH|]. intros l' Hl'. cbv beta.
    by apply yields_ret.
Qed.

Lemma yields_visit_arg x :
  ExprInduction.arg_all (fun e => covered e → yields (visit e) instrumented) x →
  covered_arg x → yields (visit_arg x) instrumented_arg.
Proof.
  destruct x as [n [ann|]]; intros Hx Hc; [|by apply yields_ret].
  change (visit_arg (Arg n (Some ann)))
    with (bind (fun ann' => ret (Arg n (Some ann'))) (visit ann)).
  eapply yields_bind; [by apply Hx|]. intros ann' Hann'. by apply yields_ret.
Qed.

Lemma yields_visit_args l :
  Forall (ExprInduction.arg_all (fun e => covered e → yields (visit e) instrumented)) l →
  all_list covered_arg l → yields (visit_args l) (all_list instrumented_arg).
Proof.
  induction 1 as [|x l Hx _ IH]; intros Hc; [by apply yields_ret|].
  destruct Hc as [Hcx Hcl].
  change (visit_args (x :: l))
    with (bind (fun x' => bind (fun l' => ret (x' :: l')) (visit_args l)) (visit_arg x)).
  eapply yields_bind; [by apply yields_visit_arg|]. intros x' Hx'. cbv beta.
  eapply yields_bind; [by apply IH|]. intros l' Hl'. cbv beta.
  by apply yields_ret.
Qed.

Lemma yields_visit_arg_opt o :
  ExprInduction.opt_all
    (ExprInduction.arg_all (fun e => covered e → yields (visit e) instrumented)) o →
  match o with Some x => covered_arg x | None => True end →
  yields (AttrSubTransformer.visit_arg_opt o)
         (fun o' => match o' with Some x => instrumented_arg x | None => True end).
Proof.
  destruct o as [x|]; intros Ho Hc; [|by apply yields_ret].
  change (AttrSubTransformer.visit_arg_opt (Some x))
    with (bind (fun x' => ret (Some x')) (visit_arg x)).
  eapply yields_bind; [by apply yields_visit_arg|]. intros x' Hx'. by apply yields_ret.
Qed.

Lemma yields_visit_arguments a :
  ExprInduction.arguments_all (fun e => covered e → yields (visit e) instrumented) a →
  covered_arguments a → yields (visit_arguments a) instrumented_arguments.
Proof.
  destruct a as [args vararg kwonlyargs kwd kwarg dflt].
  intros (Ha & Hva & Hko & Hkd & Hkw & Hd).
  change (covered_arguments (Arguments args vararg kwonlyargs kwd kwarg dflt))
    with (all_list covered_arg args
          ∧ match vararg with Some x => covered_arg x | None => True end
          ∧ all_list covered_arg kwonlyargs
          ∧ all_opt_list covered kwd
          ∧ match kwarg with Some x => covered_arg x | None => True end
          ∧ all_list covered dflt).
  intros (Ca & Cva & Cko & Ckd & Ckw & Cd).
  change (visit_arguments (Arguments args vararg kwonlyargs kwd kwarg dflt))
    with (bind (fun args' =>
            bind (fun vararg' =>
              bind (fun kwonlyargs' =>
                bind (fun kwd' =>
                  bind (fun kwarg' =>
                    bind (fun dflt' =>
                      ret (Arguments args' vararg' kwonlyargs' kwd' kwarg' dflt'))
                      (visit_list dflt))
                    (AttrSubTransformer.visit_arg_opt kwarg))
                  (visit_opt_list kwd))
                (visit_args kwonlyargs))
              (AttrSubTransformer.visit_arg_opt vararg))
            (visit_args args)).
  eapply yields_bind; [by apply yields_visit_args|]. intros args' ?. cbv beta.
  eapply yields_bind; [by apply yields_visit_arg_opt|]. intros vararg' ?. cbv beta.
  eapply yields_bind; [by apply yields_visit_args|]. intros kwonlyargs' ?. cbv beta.
  eapply yields_bind; [by apply yields_visit_opt_list|]. intros kwd' ?. cbv beta.
  eapply yields_bind; [by apply yields_visit_arg_opt|]. intros kwarg' ?. cbv beta.
  eapply yields_bind; [by apply yields_visit_list|]. intros dflt' ?. cbv beta.
  apply yields_ret. by repeat split.
Qed.

(** What the induction proves of [e]: the visit of a covered [e] yields an
    instrumented node; and if [e] is an attribute access, so does the visit
    of its base (what [visit_Call] needs for its callee). *)
Definition rewrites (e : expr) : Prop :=
  (covered e → yields (visit e) instrumented)
  ∧ match e with
    | Attribute value _ _ => covered value → yields (visit value) instrumented
    | _ => True
    end.

Lemma rewrites_list l :
  Forall rewrites l → Forall (fun e => covered e → yields (visit e) instrumented) l.
Proof. intros H. eapply Forall_impl; [exact H|]. by intros e [He _]. Qed.

Lemma no_access_keywords_forallb kws :
  forallb (fun k => negb (has_access_keyword k)) kws = true →
  all_keywords instrumented kws.
Proof.
  induction kws as [|[a value] kws IH]; [done|]. simpl.
  intros [H1 H2]%andb_prop. split; [|by apply IH].
  apply no_access_instrumented. by destruct (has_access value).
Qed.

Lemma rewrites_expr e : rewrites e.
Proof.
  induction e as [id ctx|c|value attr ctx IH|value s ctx IH|func args kws IHf IHa IHk
                 |l op r IHl IHr|elts ctx IH|elts ctx IH|args body IHa IHb]
    using ExprInduction.expr_ind'.
  - split; [|done]. intros _. by apply yields_ret.
  - split; [|done]. intros _. by apply yields_ret.
  - destruct IH as [IH _]. split; [|exact IH].
    intros Hc. apply yields_Attribute. by apply IH.
  - destruct IH as [IH _]. split; [|done].
    destruct s as [key|lo up st|dims]; [|done..].
    intros [Hc Hk]. apply yields_Subscript; [by apply IH|done].
  - split; [|done]. intros Hc.
    destruct func as [| |value attr ctx| | | | | |];
      try (apply yields_ret; by apply no_access_instrumented).
    destruct IHf as [_ IHv].
    change (covered (Call (Attribute value attr ctx) args kws))
      with (ctx = Load ∧ covered value ∧ all_list covered args
            ∧ forallb (fun k => negb (has_access_keyword k)) kws = true) in Hc.
    destruct Hc as (-> & Hcv & Hca & Hck).
    change (visit (Call (Attribute value attr Load) args kws))
      with (bind (fun func' =>
              bind (fun replacement_args =>
                bind (fun t =>
                  if inside_attrsub_load_chain t
                  then ret (Call func' replacement_args kws)
                  else ret (end_call (end_tracer t) (Call func' replacement_args kws)))
                  get)
                (visit_call_args args))
              (attrsub_load_context true
                 (visit_Attribute_or_Subscript visit value (AttrOf attr) Load true))).
    eapply yields_bind; [by apply yields_context, yields_Attribute, IHv|].
    intros func' Hfunc'. cbv beta.
    eapply yields_bind; [by apply yields_call_args; [apply rewrites_list|]|].
    intros args' Hargs'. cbv beta.
    eapply yields_bind; [apply yields_get|]. intros t _. cbv beta.
    assert (Hnode : instrumented (Call func' args' kws)).
    { split; [done|]. split; [done|]. by apply no_access_keywords_forallb. }
    destruct (inside_attrsub_load_chain t); apply yields_ret; [done|].
    by apply instrumented_end_call.
  - split; [|done]. intros [Hcl Hcr].
    change (visit (BinOp l op r))
      with (bind (fun l' => bind (fun r' => ret (BinOp l' op r')) (visit r)) (visit l)).
    eapply yields_bind; [by apply IHl|]. intros l' Hl'. cbv beta.
    eapply yields_bind; [by apply IHr|]. intros r' Hr'. cbv beta.
    by apply yields_ret.
  - split; [|done]. intros Hc.
    change (visit (List_ elts ctx))
      with (bind (fun elts' => ret (List_ elts' ctx)) (visit_list elts)).
    eapply yields_bind; [by apply yields_visit_list; [apply rewrites_list|]|].
    intros elts' Helts'. by apply yields_ret.
  - split; [|done]. intros Hc.
    change (visit (Tuple elts ctx))
      with (bind (fun elts' => ret (Tuple elts' ctx)) (visit_list elts)).
    eapply yields_bind; [by apply yields_visit_list; [apply rewrites_list|]|].
    intros elts' Helts'. by apply yields_ret.
  - split; [|done]. intros [Hca Hcb].
    change (visit (Lambda args body))
      with (bind (fun args' => bind (fun body' => ret (Lambda args' body')) (visit body))
                 (visit_arguments args)).
    eapply yields_bind.
    { apply yields_visit_arguments; [|done].
      destruct args as [a vararg kwonlyargs kwd kwarg dflt].
      destruct IHa as (Ha & Hva & Hko & Hkd & Hkw & Hd).
      repeat split.
      - eapply Forall_impl; [exact Ha|]. intros [n [ann|]]; [by intros [? _]|done].
      - destruct vararg as [[n [ann|]]|]; [by destruct Hva|done..].
      - eapply Forall_impl; [exact Hko|]. intros [n [ann|]]; [by intros [? _]|done].
      - eapply Forall_impl; [exact Hkd|]. intros [e|]; [by intros [? _]|done].
      - destruct kwarg as [[n [ann|]]|]; [by destruct Hkw|done..].
      - by apply rewrites_list. }
    intros args' Hargs'. cbv beta.
    eapply yields_bind; [by apply IHb|]. intros body' Hbody'. by apply yields_ret.
Qed.

End Tracer.

(** C4, as the code has it: on an expression in which the pass reaches
    every access ([covered]), the pass returns, leaves the transformer as it
    was, and its result has every attribute and subscript access
    instrumented: the base of each is a call of the start tracer with the
    six arguments. *)
Theorem covered_accesses_instrumented (e : expr) (t : AttrSubTracingNodeTransformer) :
  covered e →
  ∃ e', visit e t = inr (e', t) ∧ instrumented (start_tracer t) e'.
Proof.
  intros Hc. by apply (proj1 (rewrites_expr (start_tracer t) e) Hc t).
Qed.

(** [visit_Call] returns a call whose callee is not an attribute access as
    it is: nothing below it is visited. *)
Lemma visit_plain_call func args keywords t :
  match func with Attribute _ _ _ => False | _ => True end →
  visit (Call func args keywords) t = inr (Call func args keywords, t).
Proof. by destruct func. Qed.

(** The transformer of [AttributeTracingManager.__init__], and the
    expressions [a.f(x, y.z)] and [f(a.b)]. *)
Definition transformer0 : AttrSubTracingNodeTransformer :=
  mkTransformer "_NBSAFETY_ATTR_TRACER_START" "_NBSAFETY_ATTR_TRACER_END"
                "_NBSAFETY_ARG_RECORDER" false.

Definition method_call : expr :=
  Call (Attribute (Name "a" Load) "f" Load)
       [Name "x" Load; Attribute (Name "y" Load) "z" Load] [].

Definition plain_call : expr :=
  Call (Name "f" Load) [Attribute (Name "a" Load) "b" Load] [].

Lemma covered_accesses_instrumented_witness :
  ∃ e', visit method_call transformer0 = inr (e', transformer0)
        ∧ instrumented "_NBSAFETY_ATTR_TRACER_START" e'.
Proof.
  apply (covered_accesses_instrumented method_call transformer0).
  vm_compute. tauto.
Defined.

(** C4 as the claim states it fails: a call whose callee is a plain name is
    returned as it is, and the attribute access in its argument is not
    instrumented. *)
Lemma plain_call_not_rewritten :
  visit plain_call transformer0 = inr (plain_call, transformer0)
  ∧ ¬ instrumented "_NBSAFETY_ATTR_TRACER_START" plain_call.
Proof.
  split; [reflexivity|].
  intros H. simpl in H. destruct H as (_ & (((base & cc & ov & H) & _) & _) & _).
  discriminate H.
Qed.

End Rewriting.

(** ** The hyperedge of a statement without lambdas *)

Module HyperedgeNames.
Import Ast Hyperedge LambdaReads.

(** *** Adding names to the set [to_add_set] refers to *)

Lemma add_names_empty v : add_names ∅ v = v.
Proof.
  destruct v as [l lv rv ta]. unfold add_names. simpl. f_equal.
  apply list_alter_id. intros s. set_solver.
Qed.

Lemma add_names_union ns1 ns2 v :
  add_names ns2 (add_names ns1 v) = add_names (ns1 ∪ ns2) v.
Proof.
  unfold add_names. simpl. f_equal. rewrite list_alter_alter_eq.
  apply list_alter_ext; [|done]. intros s _. simpl. set_solver.
Qed.

(** [adds ns f]: the visit [f] adds the names [ns] to the set [to_add_set]
    refers to, and does nothing else. *)
Definition adds (ns : gset string) (f : GetHyperEdgeNames → GetHyperEdgeNames) : Prop :=
  ∀ v, f v = add_names ns v.

Lemma adds_id : adds ∅ (fun v => v).
Proof. intros v. by rewrite add_names_empty. Qed.

Lemma adds_comp ns1 ns2 f g :
  adds ns1 f → adds ns2 g → adds (ns1 ∪ ns2) (fun v => g (f v)).
Proof. intros Hf Hg v. by rewrite Hf, Hg, add_names_union. Qed.

Lemma adds_ext ns f g : (∀ v, f v = g v) → adds ns g → adds ns f.
Proof. intros E Hg v. by rewrite E. Qed.

(** *** Expressions *)

Lemma adds_exprs l :
  Forall (fun e => has_lambda e = false → adds (names e) (visit_expr e)) l →
  has_lambda_list l = false → adds (names_list l) (visit_exprs l).
Proof.
  induction 1 as [|e l He _ IH]; [intros _; apply adds_id|].
  simpl. intros [H1 H2]%orb_false_elim.
  apply (adds_ext _ _ (fun v => visit_exprs l (visit_expr e v))); [done|].
  apply (adds_comp _ _ (visit_expr e) (visit_exprs l)); auto.
Qed.

Lemma adds_keywords l :
  Forall (fun k => match k with
                   | Keyword _ value =>
                       has_lambda value = false → adds (names value) (visit_expr value)
                   end) l →
  has_lambda_keywords l = false → adds (names_keywords l) (visit_keywords l).
Proof.
  induction 1 as [|[a e] l He _ IH]; [intros _; apply adds_id|].
  simpl. intros [H1 H2]%orb_false_elim.
  apply (adds_ext _ _ (fun v => visit_keywords l (visit_expr e v))); [done|].
  apply (adds_comp _ _ (visit_expr e) (visit_keywords l)); auto.
Qed.

Lemma adds_expr e : has_lambda e = false → adds (names e) (visit_expr e).
Proof.
  induction e as [id ctx|c|value attr ctx IH|value s ctx IH|func args kws IHf IHa IHk
                 |l op r IHl IHr|elts ctx IH|elts ctx IH|args body IHa IHb]
    using ExprInduction.expr_ind'.
  - intros _ v. reflexivity.
  - intros _. apply adds_id.
  - exact IH.
  - exact IH.
  - change (has_lambda (Call func args kws))
      with (has_lambda func || has_lambda_list args || has_lambda_keywords kws).
    intros [[H1 H2]%orb_false_elim H3]%orb_false_elim.
    apply (adds_ext _ _ (fun v => visit_keywords kws (visit_exprs args (visit_expr func v))));
      [done|].
    change (names (Call func args kws))
      with (names func ∪ names_list args ∪ names_keywords kws).
    apply (adds_comp _ _ (fun v => visit_exprs args (visit_expr func v))
             (visit_keywords kws)); [|by apply adds_keywords].
    apply (adds_comp _ _ (visit_expr func) (visit_exprs args)); [auto|by apply adds_exprs].
  - simpl. intros [H1 H2]%orb_false_elim.
    apply (adds_ext _ _ (fun v => visit_expr r (visit_expr l v))); [done|].
    apply (adds_comp _ _ (visit_expr l) (visit_expr r)); auto.
  - change (has_lambda (List_ elts ctx)) with (has_lambda_list elts).
    intros H. by apply (adds_exprs elts IH).
  - change (has_lambda (Tuple elts ctx)) with (has_lambda_list elts).
    intros H. by apply (adds_exprs elts IH).
  - done.
Qed.

Lemma adds_all_exprs l :
  has_lambda_list l = false → adds (names_list l) (visit_exprs l).
Proof. apply adds_exprs, Forall_forall. intros e _. apply adds_expr. Qed.

Lemma adds_opt_exprs l :
  has_lambda_opts l = false → adds (names_opts l) (visit_opt_exprs l).
Proof.
  induction l as [|[e|] l IH]; [intros _; apply adds_id| |exact IH].
  simpl. intros [H1 H2]%orb_false_elim.
  apply (adds_ext _ _ (fun v => visit_opt_exprs l (visit_expr e v))); [done|].
  apply (adds_comp _ _ (visit_expr e) (visit_opt_exprs l)); [by apply adds_expr|auto].
Qed.

Lemma adds_arguments a :
  has_lambda_arguments a = false → adds (names_arguments a) (visit_arguments a).
Proof.
  destruct a as [args vararg kwonlyargs kwd kwarg dflt]. simpl.
  intros [H1 H2]%orb_false_elim.
  apply (adds_ext _ _ (fun v => visit_opt_exprs kwd (visit_exprs dflt v))); [done|].
  change (names_arguments (Arguments args vararg kwonlyargs kwd kwarg dflt))
    with (names_list dflt ∪ names_opts kwd).
  apply (adds_comp _ _ (visit_exprs dflt) (visit_opt_exprs kwd));
    [by apply adds_all_exprs|by apply adds_opt_exprs].
Qed.

(** *** Statements *)

(** The result of a visit that adds [ws] in write mode and then [rs] in
    read mode, from a new visitor. *)
Lemma result_write_read ws rs :
  result (add_names rs (set_to_add_set 1 (add_names ws (set_to_add_set 0 init))))
  = (ws, rs).
Proof.
  unfold result, deref, add_names, set_to_add_set, init.
  cbn [sets lval_name_set rval_name_set to_add_set alter list_alter lookup list_lookup
       default from_option].
  f_equal; set_solver.
Qed.

(** X1: in an assignment, an augmented assignment and a [for] header
    without lambdas, the write-set is the set of the names of the targets
    and the read-set the set of the names of the assigned value or of the
    iterable.  The names in a subscript index are in neither; the target of
    an augmented assignment is not read; the body of the loop is not
    visited. *)
Theorem targets_written_values_read :
  (∀ targets value,
     has_lambda_list targets = false → has_lambda value = false →
     get_hyperedge_lvals_and_rvals (Assign targets value)
     = (names_list targets, names value))
  ∧ (∀ target op value,
       has_lambda target = false → has_lambda value = false →
       get_hyperedge_lvals_and_rvals (AugAssign target op value)
       = (names target, names value))
  ∧ (∀ target iter body orelse,
       has_lambda target = false → has_lambda iter = false →
       get_hyperedge_lvals_and_rvals (For target iter body orelse)
       = (names target, names iter)).
Proof.
  split; [|split].
  - intros targets value Ht Hv. unfold get_hyperedge_lvals_and_rvals.
    change (visit_stmt (Assign targets value) init)
      with (let v1 := visit_exprs targets (set_to_add_set 0 init) in
            visit_expr value (set_to_add_set (rval_name_set v1) v1)).
    cbv zeta. rewrite (adds_all_exprs targets Ht), (adds_expr value Hv).
    apply result_write_read.
  - intros target op value Ht Hv. unfold get_hyperedge_lvals_and_rvals.
    change (visit_stmt (AugAssign target op value) init)
      with (let v1 := visit_expr target (set_to_add_set 0 init) in
            visit_expr value (set_to_add_set (rval_name_set v1) v1)).
    cbv zeta. rewrite (adds_expr target Ht), (adds_expr value Hv).
    apply result_write_read.
  - intros target iter body orelse Ht Hv. unfold get_hyperedge_lvals_and_rvals.
    change (visit_stmt (For target iter body orelse) init)
      with (let v1 := visit_expr target (set_to_add_set 0 init) in
            visit_expr iter (set_to_add_set (rval_name_set v1) v1)).
    cbv zeta. rewrite (adds_expr target Ht), (adds_expr iter Hv).
    apply result_write_read.
Qed.

(** [for i in range(10):] with the body [a = i; b = a + i; lst = [a, b]],
    and [d[k] += n]. *)
Definition for_range : stmt :=
  For (Name "i" Store) (Call (Name "range" Load) [Constant (CNum 10)] [])
      [Assign [Name "a" Store] (Name "i" Load);
       Assign [Name "b" Store] (BinOp (Name "a" Load) Add (Name "i" Load));
       Assign [Name "lst" Store] (List_ [Name "a" Load; Name "b" Load] Load)]
      [].

Definition aug_subscript : stmt :=
  AugAssign (Subscript (Name "d" Load) (Index (Name "k" Load)) Store) Add
            (Name "n" Load).

Lemma targets_written_values_read_witness :
  get_hyperedge_lvals_and_rvals for_range = ({["i"]}, {["range"]})
  ∧ get_hyperedge_lvals_and_rvals aug_subscript = ({["d"]}, {["n"]}).
Proof.
  split.
  - unfold for_range.
    rewrite (proj2 (proj2 targets_written_values_read)) by reflexivity.
    by vm_compute.
  - apply (proj1 (proj2 targets_written_values_read)); reflexivity.
Defined.

(** X2: a function definition (plain or async) without lambdas in its
    default values writes its own name and reads the names of the default
    values; the parameter names, the annotations, the decorators and the
    body contribute nothing. *)
Theorem function_header_hyperedge (name : string) (args : arguments)
    (body : list stmt) (decorator_list : list expr) (returns : option expr) :
  has_lambda_arguments args = false →
  get_hyperedge_lvals_and_rvals (FunctionDef name args body decorator_list returns)
  = ({[name]}, names_arguments args)
  ∧ get_hyperedge_lvals_and_rvals
      (AsyncFunctionDef name args body decorator_list returns)
    = ({[name]}, names_arguments args).
Proof.
  intros Ha.
  assert (H : result (visit_FunctionDef name args init)
              = ({[name]}, names_arguments args)).
  { unfold visit_FunctionDef. rewrite (adds_arguments args Ha).
    unfold result, deref, add_names, set_to_add_set, set_add, init.
    cbn [sets lval_name_set rval_name_set to_add_set alter list_alter lookup list_lookup
         default from_option].
    f_equal; set_solver. }
  by split.
Qed.

(** [def f(a, b=x, *, c=y): return a + z] under a decorator. *)
Definition def_with_defaults : stmt :=
  FunctionDef "f"
    (Arguments [Arg "a" None; Arg "b" (Some (Name "int" Load))] None
               [Arg "c" None] [Some (Name "y" Load)] None [Name "x" Load])
    [Return (Some (BinOp (Name "a" Load) Add (Name "z" Load)))]
    [Name "decorate" Load] None.

Lemma function_header_hyperedge_witness :
  get_hyperedge_lvals_and_rvals def_with_defaults = ({["f"]}, {["x"; "y"]}).
Proof.
  unfold def_with_defaults.
  etrans; [apply function_header_hyperedge; reflexivity|].
  by vm_compute.
Defined.

(** *** Lambdas *)

Lemma wf_add_names ns v : wf v → wf (add_names ns v).
Proof.
  intros (? & ? & ?). unfold wf, add_names. simpl. by rewrite length_alter.
Qed.

Lemma reads_add_names ns v :
  wf v → to_add_set v = rval_name_set v → reads (add_names ns v) = ns ∪ reads v.
Proof.
  intros (_ & Hr & _) E. unfold reads, deref, add_names. simpl. rewrite E.
  rewrite list_lookup_alter_eq.
  by destruct (lookup_lt_is_Some_2 _ _ Hr) as [s ->].
Qed.

(** X3: a lambda whose body and default values hold no other lambda, as
    an expression statement or as the value of an assignment without
    lambdas in its targets: the read-set is the set of the names of the body
    and of the default values less the parameter names (so a name that is
    both a parameter and read by a default value is not in it). *)
Theorem lambda_free_names (args : arguments) (body : expr) :
  has_lambda body = false → has_lambda_arguments args = false →
  get_hyperedge_lvals_and_rvals (Expr (Lambda args body))
  = (∅, (names body ∪ names_arguments args) ∖ list_to_set (bound_names args))
  ∧ ∀ targets,
      has_lambda_list targets = false →
      get_hyperedge_lvals_and_rvals (Assign targets (Lambda args body))
      = (names_list targets,
         (names body ∪ names_arguments args) ∖ list_to_set (bound_names args)).
Proof.
  intros Hb Ha.
  assert (H : ∀ v, wf v → to_add_set v = rval_name_set v →
            visit_expr (Lambda args body) v
            = mkVisitor
                (sets (add_names (names body ∪ names_arguments args) v)
                 ++ [list_to_set (bound_names args);
                     ((names body ∪ names_arguments args) ∪ reads v)
                     ∖ list_to_set (bound_names args)])
                (lval_name_set v) (S (length (sets v))) (to_add_set v)).
  { intros v Hv E.
    change (visit_expr (Lambda args body) v)
      with (remove_bound args (visit_arguments args (visit_expr body v))).
    rewrite (adds_expr body Hb), (adds_arguments args Ha), add_names_union.
    rewrite remove_bound_spec by by apply wf_add_names.
    rewrite reads_add_names by done.
    unfold add_names. simpl. by rewrite length_alter. }
  split.
  - unfold get_hyperedge_lvals_and_rvals.
    change (visit_stmt (Expr (Lambda args body)) init)
      with (visit_expr (Lambda args body) init).
    rewrite H by (done || apply wf_init).
    unfold result, deref, reads, deref, add_names, init.
    cbn [sets lval_name_set rval_name_set to_add_set alter list_alter lookup list_lookup
         default from_option app length].
    f_equal. set_solver.
  - intros targets Ht. unfold get_hyperedge_lvals_and_rvals.
    change (visit_stmt (Assign targets (Lambda args body)) init)
      with (let v1 := visit_exprs targets (set_to_add_set 0 init) in
            visit_expr (Lambda args body) (set_to_add_set (rval_name_set v1) v1)).
    cbv zeta. rewrite (adds_all_exprs targets Ht).
    rewrite H.
    + unfold result, deref, reads, deref, add_names, set_to_add_set, init.
      cbn [sets lval_name_set rval_name_set to_add_set alter list_alter lookup
           list_lookup default from_option app length].
      f_equal; set_solver.
    + unfold wf, add_names, set_to_add_set, init. simpl. lia.
    + done.
Qed.

(** [f = lambda x, n=x: x + y + n] *)
Definition lambda_with_default : stmt :=
  Assign [Name "f" Store]
    (Lambda (Arguments [Arg "x" None; Arg "n" None] None [] [] None [Name "x" Load])
            (BinOp (BinOp (Name "x" Load) Add (Name "y" Load)) Add (Name "n" Load))).

Lemma lambda_free_names_witness :
  get_hyperedge_lvals_and_rvals lambda_with_default = ({["f"]}, {["y"]}).
Proof.
  unfold lambda_with_default.
  etrans; [apply lambda_free_names; reflexivity|].
  by vm_compute.
Defined.

End HyperedgeNames.

(** ** Names met after a lambda *)

Module LambdaDetaches.
Import Ast Hyperedge LambdaReads.

(** What every visit keeps: the references denote objects, and a detached
    [to_add_set] stays detached while the read-set does not grow. *)
Lemma visits_wf ps f v : visits ps f → wf v → wf (f v).
Proof. intros Hf Hv. by destruct (Hf v Hv) as (? & _). Qed.

Lemma visits_detached ps f v :
  visits ps f → wf v → detached v → detached (f v) ∧ reads (f v) ⊆ reads v.
Proof. intros Hf Hv Hd. destruct (Hf v Hv) as (_ & _ & _ & H & _). by apply H. Qed.

Definition detaches (e : expr) : Prop :=
  has_lambda e = true → ∀ v, wf v → detached (visit_expr e v).

Lemma detaches_exprs l :
  Forall detaches l → has_lambda_list l = true →
  ∀ v, wf v → detached (visit_exprs l v).
Proof.
  induction 1 as [|e l He _ IH]; simpl; [done|].
  intros Hl v Hv. destruct (has_lambda e) eqn:E.
  - apply (visits_detached _ _ _ (visits_all_exprs l)).
    + apply (visits_wf _ _ _ (visits_expr e) Hv).
    + by apply He.
  - apply IH; [done|]. apply (visits_wf _ _ _ (visits_expr e) Hv).
Qed.

Lemma detaches_keywords l :
  Forall (fun k => match k with Keyword _ value => detaches value end) l →
  has_lambda_keywords l = true →
  ∀ v, wf v → detached (visit_keywords l v).
Proof.
  induction 1 as [|[a e] l He _ IH]; simpl; [done|].
  intros Hl v Hv. destruct (has_lambda e) eqn:E.
  - apply (visits_detached _ _ _ (visits_all_keywords l)).
    + apply (visits_wf _ _ _ (visits_expr e) Hv).
    + by apply He.
  - apply IH; [done|]. apply (visits_wf _ _ _ (visits_expr e) Hv).
Qed.

Lemma lambda_detaches e : detaches e.
Proof.
  induction e using ExprInduction.expr_ind'; unfold detaches in *; try done.
  - (* Call *)
    intros Hl v Hv.
    change (visit_expr (Call e args keywords) v)
      with (visit_keywords keywords (visit_exprs args (visit_expr e v))).
    change (has_lambda (Call e args keywords))
      with (has_lambda e || has_lambda_list args || has_lambda_keywords keywords) in Hl.
    assert (W1 := visits_wf _ _ _ (visits_expr e) Hv).
    assert (W2 := visits_wf _ _ _ (visits_all_exprs args) W1).
    destruct (has_lambda e) eqn:E1.
    { apply (visits_detached _ _ _ (visits_all_keywords keywords)); [done|].
      apply (visits_detached _ _ _ (visits_all_exprs args)); [done|].
      by apply IHe. }
    destruct (has_lambda_list args) eqn:E2.
    { apply (visits_detached _ _ _ (visits_all_keywords keywords)); [done|].
      by apply detaches_exprs. }
    by apply detaches_keywords.
  - (* BinOp *)
    simpl. intros Hl v Hv.
    assert (W1 := visits_wf _ _ _ (visits_expr e1) Hv).
    destruct (has_lambda e1) eqn:E1.
    + apply (visits_detached _ _ _ (visits_expr e2)); [done|]. by apply IHe1.
    + by apply IHe2.
  - (* List *)
    intros Hl v Hv. by apply (detaches_exprs elts).
  - (* Tuple *)
    intros Hl v Hv. by apply (detaches_exprs elts).
  - (* Lambda *)
    intros _ v Hv.
    change (visit_expr (Lambda args e) v)
      with (remove_bound args (visit_arguments args (visit_expr e v))).
    assert (W1 := visits_wf _ _ _ (visits_expr e) Hv).
    assert (W2 := visits_wf _ _ _ (visits_all_arguments args) W1).
    rewrite remove_bound_spec by done.
    unfold detached. simpl. destruct W2 as (_ & _ & ?). lia.
Qed.

(** X4: once an expression with a lambda has been visited, the names the
    visitor meets afterwards in the same expression statement are not added
    to the read-set: [visit_Lambda] has rebound [rval_name_set] to a new set
    while [to_add_set] still refers to the old one.  So in [e1 op e2] with a
    lambda in [e1], the read-set is a subset of that of [e1] alone. *)
Theorem names_after_lambda_dropped (e1 e2 : expr) :
  has_lambda e1 = true →
  (∀ v, wf v →
     detached (visit_expr e1 v)
     ∧ reads (visit_expr e2 (visit_expr e1 v)) ⊆ reads (visit_expr e1 v))
  ∧ ∀ op, (get_hyperedge_lvals_and_rvals (Expr (BinOp e1 op e2))).2
          ⊆ (get_hyperedge_lvals_and_rvals (Expr e1)).2.
Proof.
  intros Hl.
  assert (H : ∀ v, wf v →
     detached (visit_expr e1 v)
     ∧ reads (visit_expr e2 (visit_expr e1 v)) ⊆ reads (visit_expr e1 v)).
  { intros v Hv. split; [by apply lambda_detaches|].
    apply (visits_detached _ _ _ (visits_expr e2)).
    - apply (visits_wf _ _ _ (visits_expr e1) Hv).
    - by apply lambda_detaches. }
  split; [done|]. intros op. apply (H init wf_init).
Qed.

(** [(lambda: 0) + y]: [y] is not in the read-set. *)
Definition lambda_then_name : stmt :=
  Expr (BinOp (Lambda (Arguments [] None [] [] None []) (Constant CNone)) Add
              (Name "y" Load)).

Lemma names_after_lambda_dropped_witness :
  "y" ∉ (get_hyperedge_lvals_and_rvals lambda_then_name).2.
Proof.
  intros Hy.
  apply (proj2 (names_after_lambda_dropped
                  (Lambda (Arguments [] None [] [] None []) (Constant CNone))
                  (Name "y" Load) eq_refl) Add) in Hy.
  assert (E : (get_hyperedge_lvals_and_rvals
                 (Expr (Lambda (Arguments [] None [] [] None []) (Constant CNone)))).2
              = ∅) by (by vm_compute).
  rewrite E in Hy. set_solver.
Defined.

End LambdaDetaches.

(** ** Statements without a visitor method *)

Module ReadOnlyStatements.
Import Ast Hyperedge LambdaReads HyperedgeNames.

(** X5: the statements without a method of their own go through
    [generic_visit]: an expression statement, a [return], and the headers of
    [if] and [while] with placeholder bodies write no name and read the
    names of their expression, when it has no lambda. *)
Theorem generic_statements_read_only (e : expr) :
  has_lambda e = false →
  get_hyperedge_lvals_and_rvals (Expr e) = (∅, names e)
  ∧ get_hyperedge_lvals_and_rvals (Return (Some e)) = (∅, names e)
  ∧ get_hyperedge_lvals_and_rvals (Return None) = (∅, ∅)
  ∧ ∀ body orelse,
      placeholder body → placeholder orelse →
      get_hyperedge_lvals_and_rvals (If e body orelse) = (∅, names e)
      ∧ get_hyperedge_lvals_and_rvals (While e body orelse) = (∅, names e).
Proof.
  intros He.
  assert (H : result (visit_expr e init) = (∅, names e)).
  { rewrite (adds_expr e He). unfold result, deref, add_names, init. simpl.
    f_equal. set_solver. }
  split; [exact H|]. split; [exact H|]. split; [done|].
  intros body orelse Hb Ho. unfold get_hyperedge_lvals_and_rvals.
  change (visit_stmt (If e body orelse) init)
    with (visit_stmts orelse (visit_stmts body (visit_expr e init))).
  change (visit_stmt (While e body orelse) init)
    with (visit_stmts orelse (visit_stmts body (visit_expr e init))).
  by rewrite !visit_stmts_placeholder.
Qed.

(** [while n < len(xs[i]): pass] *)
Definition while_header : stmt :=
  While (BinOp (Name "n" Load) Sub
               (Call (Name "len" Load)
                     [Subscript (Name "xs" Load) (Index (Name "i" Load)) Load] []))
        [Pass] [].

Lemma generic_statements_read_only_witness :
  get_hyperedge_lvals_and_rvals while_header = (∅, {["n"; "len"; "xs"]}).
Proof.
  unfold while_header.
  etrans.
  { apply generic_statements_read_only; [reflexivity| |];
      unfold placeholder; repeat constructor. }
  by vm_compute.
Defined.

End ReadOnlyStatements.

(** ** Taking the position markers out again *)

Module Unmarking.
Import Ast StmtInserter Markers.

(** The statement sequences the inserter rewrites, with the statements at
    the even positions (the markers) taken out again. *)
Fixpoint unmark (node : stmt) {struct node} : stmt :=
  let unmark_body :=
    fix go (l : list stmt) {struct l} : list stmt :=
      match l with
      | _ :: s :: l => unmark s :: go l
      | _ => []
      end in
  match node with
  | FunctionDef name args body decorator_list returns =>
      FunctionDef name args (unmark_body body) decorator_list returns
  | AsyncFunctionDef name args body decorator_list returns =>
      AsyncFunctionDef name args (unmark_body body) decorator_list returns
  | ClassDef name bases keywords body decorator_list =>
      ClassDef name bases keywords (unmark_body body) decorator_list
  | For target iter body orelse => For target iter (unmark_body body) orelse
  | While test body orelse => While test (unmark_body body) orelse
  | If test body orelse => If test (unmark_body body) orelse
  | With items body => With items (unmark_body body)
  | Try body handlers orelse finalbody =>
      Try (unmark_body body)
          ((fix go (l : list excepthandler) {struct l} : list excepthandler :=
              match l with
              | [] => []
              | ExceptHandler type name hbody :: l =>
                  ExceptHandler type name (unmark_body hbody) :: go l
              end) handlers)
          orelse finalbody
  | Return _ | Assign _ _ | AugAssign _ _ _ | Expr _ | Pass => node
  end.

Fixpoint unmark_body (l : list stmt) : list stmt :=
  match l with
  | _ :: s :: l => unmark s :: unmark_body l
  | _ => []
  end.

Fixpoint unmark_handlers (l : list excepthandler) : list excepthandler :=
  match l with
  | [] => []
  | ExceptHandler type name hbody :: l =>
      ExceptHandler type name (unmark_body hbody) :: unmark_handlers l
  end.

(** The number of statements in the [body] sequences of a statement and of
    its exception handlers, at any depth. *)
Fixpoint sites (node : stmt) {struct node} : nat :=
  let sites_body :=
    fix go (l : list stmt) {struct l} : nat :=
      match l with
      | [] => 0
      | s :: l => S (sites s + go l)
      end in
  match node with
  | FunctionDef _ _ body _ _ | AsyncFunctionDef _ _ body _ _ | ClassDef _ _ _ body _
  | For _ _ body _ | While _ body _ | If _ body _ | With _ body => sites_body body
  | Try body handlers _ _ =>
      (fix go (l : list excepthandler) {struct l} : nat :=
         match l with
         | [] => 0
         | ExceptHandler _ _ hbody :: l => sites_body hbody + go l
         end) handlers
      + sites_body body
  | Return _ | Assign _ _ | AugAssign _ _ _ | Expr _ | Pass => 0
  end.

Fixpoint sites_body (l : list stmt) : nat :=
  match l with
  | [] => 0
  | s :: l => S (sites s + sites_body l)
  end.

Fixpoint sites_handlers (l : list excepthandler) : nat :=
  match l with
  | [] => 0
  | ExceptHandler _ _ hbody :: l => sites_body hbody + sites_handlers l
  end.

Section Facts.

Variable insert_stmt_template : Z * nat → stmt.
Variable cell_counter : Z.

#[local] Abbreviation visit := (visit insert_stmt_template cell_counter).
#[local] Abbreviation visit_body := (visit_body insert_stmt_template cell_counter).
#[local] Abbreviation visit_handlers := (visit_handlers insert_stmt_template cell_counter).

Definition restored (node : stmt) : Prop :=
  ∀ cur, unmark (visit node cur).1 = node ∧ (visit node cur).2 = cur + sites node.

Lemma visit_body_restored body :
  Forall restored body →
  ∀ cur, unmark_body (visit_body body cur).1 = body
         ∧ (visit_body body cur).2 = cur + sites_body body
         ∧ length (visit_body body cur).1 = 2 * length body.
Proof.
  induction 1 as [|s l Hs _ IH]; intros cur.
  - simpl. split; [done|]. split; lia.
  - simpl. destruct (Hs (S cur)) as (Hu & Hc).
    destruct (visit s (S cur)) as [s' c1]. simpl in Hu, Hc. subst c1.
    destruct (IH (S (cur + sites s))) as (Hu' & Hc' & Hl').
    destruct (visit_body l (S (cur + sites s))) as [l' c2]. simpl in Hu', Hc', Hl'.
    subst c2. simpl. rewrite Hu, Hu', Hl'. split; [done|]. split; lia.
Qed.

Lemma visit_handlers_restored handlers :
  Forall (fun h => match h with ExceptHandler _ _ hbody => Forall restored hbody end)
         handlers →
  ∀ cur, unmark_handlers (visit_handlers handlers cur).1 = handlers
         ∧ (visit_handlers handlers cur).2 = cur + sites_handlers handlers
         ∧ length (visit_handlers handlers cur).1 = length handlers.
Proof.
  induction 1 as [|[type name hbody] l Hh _ IH]; intros cur.
  - simpl. split; [done|]. split; lia.
  - simpl. destruct (visit_body_restored hbody Hh cur) as (Hu & Hc & _).
    destruct (visit_body hbody cur) as [hbody' c1]. simpl in Hu, Hc. subst c1.
    destruct (IH (cur + sites_body hbody)) as (Hu' & Hc' & Hl').
    destruct (visit_handlers l (cur + sites_body hbody)) as [l' c2].
    simpl in Hu', Hc', Hl'. subst c2. simpl. rewrite Hu, Hu', Hl'.
    split; [done|]. split; lia.
Qed.

Lemma visit_restored node : restored node.
Proof.
  induction node using stmt_body_ind; intros cur; try (simpl; split; [done|lia]).
  all: try (destruct (visit_body_restored body H cur) as (Hu & Hc & _);
            change (visit ?node cur) with
              (let '(body', c) := visit_body body cur in
               (match node with
                | FunctionDef name args _ d r => FunctionDef name args body' d r
                | AsyncFunctionDef name args _ d r => AsyncFunctionDef name args body' d r
                | ClassDef name bases kw _ d => ClassDef name bases kw body' d
                | For t i _ o => For t i body' o
                | While t _ o => While t body' o
                | If t _ o => If t body' o
                | With items _ => With items body'
                | other => other
                end, c));
            destruct (visit_body body cur) as [body' c1]; simpl in Hu, Hc; subst c1;
            split; [|exact eq_refl];
            cbv iota beta zeta; cbn [fst];
            (change (unmark (FunctionDef name args body' decorator_list returns))
               with (FunctionDef name args (unmark_body body') decorator_list returns)
             || change (unmark (AsyncFunctionDef name args body' decorator_list returns))
               with (AsyncFunctionDef name args (unmark_body body') decorator_list returns)
             || change (unmark (ClassDef name bases keywords body' decorator_list))
               with (ClassDef name bases keywords (unmark_body body') decorator_list)
             || change (unmark (For target iter body' orelse))
               with (For target iter (unmark_body body') orelse)
             || change (unmark (While test body' orelse))
               with (While test (unmark_body body') orelse)
             || change (unmark (If test body' orelse))
               with (If test (unmark_body body') orelse)
             || change (unmark (With items body'))
               with (With items (unmark_body body')));
            by rewrite Hu).
  destruct (visit_handlers_restored handlers H0 cur) as (Hu & Hc & _).
  destruct (visit_body_restored body H (cur + sites_handlers handlers)) as (Hu' & Hc' & _).
  change (visit (Try body handlers orelse finalbody) cur) with
    (let '(handlers', c) := visit_handlers handlers cur in
     let '(body', c) := visit_body body c in
     (Try body' handlers' orelse finalbody, c)).
  destruct (visit_handlers handlers cur) as [handlers' c1]. simpl in Hu, Hc. subst c1.
  destruct (visit_body body (cur + sites_handlers handlers)) as [body' c2].
  simpl in Hu', Hc'. subst c2. cbv iota beta zeta. cbn [fst snd].
  change (unmark (Try body' handlers' orelse finalbody))
    with (Try (unmark_body body') (unmark_handlers handlers') orelse finalbody).
  change (sites (Try body handlers orelse finalbody))
    with (sites_handlers handlers + sites_body body).
  rewrite Hu, Hu'. split; [done|lia].
Qed.

(** X6: taking the markers out of an instrumented cell gives the cell
    back, whatever the template and the counter: the inserter keeps every
    statement, in its order, and changes nothing but the [body] sequences.
    The body of the module becomes twice as long, and [_cur_line_id]
    advances by the number of statements of the [body] sequences. *)
Theorem instrumented_cell_unmarks (m : module_) (cur_line_id : nat) :
  unmark_body (mod_body (visit_Module insert_stmt_template cell_counter m cur_line_id).1)
  = mod_body m
  ∧ length (mod_body (visit_Module insert_stmt_template cell_counter m cur_line_id).1)
    = 2 * length (mod_body m)
  ∧ (visit_Module insert_stmt_template cell_counter m cur_line_id).2
    = cur_line_id + sites_body (mod_body m).
Proof.
  destruct (visit_body_restored (mod_body m)) with (cur := cur_line_id) as (Hu & Hc & Hl).
  { apply Forall_forall. intros s _. apply visit_restored. }
  unfold visit_Module.
  destruct (visit_body (mod_body m) cur_line_id) as [body' c]. by simpl in *.
Qed.

End Facts.
End Unmarking.

(** ** The rewriting pass: where it returns, and what it keeps *)

Module Erasure.
Import Ast Py AttrSubTransformer.

(** The expressions on which the pass returns: every subscript it reaches
    has a plain index, and every call it rewrites has its callee in [Load]
    context.  A call whose callee is not an attribute is not gone into, nor
    are keyword arguments and indices. *)
Fixpoint supported (e : expr) {struct e} : bool :=
  let all :=
    fix go (l : list expr) {struct l} : bool :=
      match l with
      | [] => true
      | e :: l => supported e && go l
      end in
  match e with
  | Name _ _ | Constant _ => true
  | Attribute value _ _ => supported value
  | Subscript value (Index _) _ => supported value
  | Subscript _ _ _ => false
  | Call func args _ =>
      match func with
      | Attribute value _ ctx => is_Load ctx && supported value && all args
      | _ => true
      end
  | BinOp l _ r => supported l && supported r
  | List_ elts _ => all elts
  | Tuple elts _ => all elts
  | Lambda args body => supported_arguments args && supported body
  end
with supported_arguments (a : arguments) {struct a} : bool :=
  let all_args :=
    fix go (l : list arg) {struct l} : bool :=
      match l with
      | [] => true
      | x :: l => supported_arg x && go l
      end in
  let arg_opt (o : option arg) : bool :=
    match o with Some x => supported_arg x | None => true end in
  match a with
  | Arguments args vararg kwonlyargs kw_defaults kwarg defaults =>
      all_args args && arg_opt vararg && all_args kwonlyargs
      && (fix go (l : list (option expr)) {struct l} : bool :=
            match l with
            | [] => true
            | None :: l => go l
            | Some e :: l => supported e && go l
            end) kw_defaults
      && arg_opt kwarg
      && (fix go (l : list expr) {struct l} : bool :=
            match l with
            | [] => true
            | e :: l => supported e && go l
            end) defaults
  end
with supported_arg (a : arg) {struct a} : bool :=
  match a with
  | Arg _ None => true
  | Arg _ (Some ann) => supported ann
  end.

Fixpoint supported_list (l : list expr) : bool :=
  match l with
  | [] => true
  | e :: l => supported e && supported_list l
  end.

Fixpoint supported_opt_list (l : list (option expr)) : bool :=
  match l with
  | [] => true
  | None :: l => supported_opt_list l
  | Some e :: l => supported e && supported_opt_list l
  end.

Fixpoint supported_args (l : list arg) : bool :=
  match l with
  | [] => true
  | x :: l => supported_arg x && supported_args l
  end.

Definition supported_arg_opt (o : option arg) : bool :=
  match o with Some x => supported_arg x | None => true end.

(** The two exceptions of the pass. *)
Definition fails (exn : exception) : Prop :=
  exn = AssertionError ∨ exn = ValueError "unimpled slice".

Section HookNames.

(** The names of the three hooks. *)
Variables start_name end_name recorder_name : string.

Definition named (t : AttrSubTracingNodeTransformer) : Prop :=
  start_tracer t = start_name ∧ end_tracer t = end_name
  ∧ arg_recorder t = recorder_name.

Definition is_hook (id : string) : bool :=
  bool_decide (id = start_name) || bool_decide (id = end_name)
  || bool_decide (id = recorder_name).

(** No name of the expression is the name of a hook (in the parts the
    pass goes into or copies: not in indices and keyword arguments). *)
Fixpoint hook_free (e : expr) {struct e} : bool :=
  let all :=
    fix go (l : list expr) {struct l} : bool :=
      match l with
      | [] => true
      | e :: l => hook_free e && go l
      end in
  match e with
  | Name id _ => negb (is_hook id)
  | Constant _ => true
  | Attribute value _ _ => hook_free value
  | Subscript value _ _ => hook_free value
  | Call func args _ => hook_free func && all args
  | BinOp l _ r => hook_free l && hook_free r
  | List_ elts _ => all elts
  | Tuple elts _ => all elts
  | Lambda args body => hook_free_arguments args && hook_free body
  end
with hook_free_arguments (a : arguments) {struct a} : bool :=
  let all_args :=
    fix go (l : list arg) {struct l} : bool :=
      match l with
      | [] => true
      | x :: l => hook_free_arg x && go l
      end in
  let arg_opt (o : option arg) : bool :=
    match o with Some x => hook_free_arg x | None => true end in
  match a with
  | Arguments args vararg kwonlyargs kw_defaults kwarg defaults =>
      all_args args && arg_opt vararg && all_args kwonlyargs
      && (fix go (l : list (option expr)) {struct l} : bool :=
            match l with
            | [] => true
            | None :: l => go l
            | Some e :: l => hook_free e && go l
            end) kw_defaults
      && arg_opt kwarg
      && (fix go (l : list expr) {struct l} : bool :=
            match l with
            | [] => true
            | e :: l => hook_free e && go l
            end) defaults
  end
with hook_free_arg (a : arg) {struct a} : bool :=
  match a with
  | Arg _ None => true
  | Arg _ (Some ann) => hook_free ann
  end.

Fixpoint hook_free_list (l : list expr) : bool :=
  match l with
  | [] => true
  | e :: l => hook_free e && hook_free_list l
  end.

Fixpoint hook_free_opt_list (l : list (option expr)) : bool :=
  match l with
  | [] => true
  | None :: l => hook_free_opt_list l
  | Some e :: l => hook_free e && hook_free_opt_list l
  end.

Fixpoint hook_free_args (l : list arg) : bool :=
  match l with
  | [] => true
  | x :: l => hook_free_arg x && hook_free_args l
  end.

Definition hook_free_arg_opt (o : option arg) : bool :=
  match o with Some x => hook_free_arg x | None => true end.

(** A call of a hook, taken away: the end tracer has one argument, the
    node; the argument recorder two, the first is the argument; the start
    tracer six, the first is the base of the access. *)
Definition strip (func : expr) (args : list expr) (keywords : list keyword) : expr :=
  match func, args, keywords with
  | Name f _, [node], [] =>
      if decide (f = end_name) then node else Call func args keywords
  | Name f _, [a; _], [] =>
      if decide (f = recorder_name) then a else Call func args keywords
  | Name f _, [value; _; _; _; _; _], [] =>
      if decide (f = start_name) then value else Call func args keywords
  | _, _, _ => Call func args keywords
  end.

(** The calls of the hooks taken out of a rewritten expression. *)
Fixpoint erase (e : expr) {struct e} : expr :=
  let erase_list :=
    fix go (l : list expr) {struct l} : list expr :=
      match l with
      | [] => []
      | e :: l => erase e :: go l
      end in
  match e with
  | Name _ _ | Constant _ => e
  | Attribute value attr ctx => Attribute (erase value) attr ctx
  | Subscript value s ctx => Subscript (erase value) s ctx
  | Call func args keywords => strip (erase func) (erase_list args) keywords
  | BinOp l op r => BinOp (erase l) op (erase r)
  | List_ elts ctx => List_ (erase_list elts) ctx
  | Tuple elts ctx => Tuple (erase_list elts) ctx
  | Lambda args body => Lambda (erase_arguments args) (erase body)
  end
with erase_arguments (a : arguments) {struct a} : arguments :=
  let erase_args :=
    fix go (l : list arg) {struct l} : list arg :=
      match l with
      | [] => []
      | x :: l => erase_arg x :: go l
      end in
  let erase_arg_opt (o : option arg) : option arg :=
    match o with Some x => Some (erase_arg x) | None => None end in
  match a with
  | Arguments args vararg kwonlyargs kw_defaults kwarg defaults =>
      Arguments (erase_args args) (erase_arg_opt vararg) (erase_args kwonlyargs)
        ((fix go (l : list (option expr)) {struct l} : list (option expr) :=
            match l with
            | [] => []
            | None :: l => None :: go l
            | Some e :: l => Some (erase e) :: go l
            end) kw_defaults)
        (erase_arg_opt kwarg)
        ((fix go (l : list expr) {struct l} : list expr :=
            match l with
            | [] => []
            | e :: l => erase e :: go l
            end) defaults)
  end
with erase_arg (a : arg) {struct a} : arg :=
  match a with
  | Arg _ None => a
  | Arg name (Some ann) => Arg name (Some (erase ann))
  end.

Fixpoint erase_list (l : list expr) : list expr :=
  match l with
  | [] => []
  | e :: l => erase e :: erase_list l
  end.

Fixpoint erase_opt_list (l : list (option expr)) : list (option expr) :=
  match l with
  | [] => []
  | None :: l => None :: erase_opt_list l
  | Some e :: l => Some (erase e) :: erase_opt_list l
  end.

Fixpoint erase_args (l : list arg) : list arg :=
  match l with
  | [] => []
  | x :: l => erase_arg x :: erase_args l
  end.

Definition erase_arg_opt (o : option arg) : option arg :=
  match o with Some x => Some (erase_arg x) | None => None end.

(** *** The calls of the hooks, erased *)

Lemma erase_end_call node : erase (end_call end_name node) = erase node.
Proof.
  change (erase (end_call end_name node))
    with (strip (Name end_name Load) [erase node] []).
  unfold strip. by rewrite decide_True.
Qed.

Lemma erase_start_call value key is_subscript ctx cc ov :
  erase (start_call start_name value key is_subscript ctx cc ov) = erase value.
Proof.
  change (erase (start_call start_name value key is_subscript ctx cc ov))
    with (strip (Name start_name Load)
            [erase value; erase key; Constant (CBool is_subscript);
             Constant (CStr (ctx_name ctx)); Constant (CBool cc); Constant (CBool ov)] []).
  unfold strip. by rewrite decide_True.
Qed.

Lemma erase_recorder_call a key :
  erase (Call (Name recorder_name Load) [a; key] []) = erase a.
Proof.
  change (erase (Call (Name recorder_name Load) [a; key] []))
    with (strip (Name recorder_name Load) [erase a; erase key] []).
  unfold strip. by rewrite decide_True.
Qed.

Lemma strip_hook_free func args keywords :
  hook_free func = true → strip func args keywords = Call func args keywords.
Proof.
  destruct func as [id ctx| | | | | | | |]; try done.
  simpl. unfold is_hook. intros H.
  apply negb_true_iff, orb_false_elim in H as [[H1 H2]%orb_false_elim H3].
  apply bool_decide_eq_false in H1, H2, H3.
  unfold strip.
  destruct args as [|a1 [|a2 [|a3 [|a4 [|a5 [|a6 [|a7 args]]]]]]];
    destruct keywords; try done; by rewrite decide_False.
Qed.

Definition unchanged (e : expr) : Prop := hook_free e = true → erase e = e.

Lemma unchanged_list l :
  Forall unchanged l → hook_free_list l = true → erase_list l = l.
Proof.
  induction 1 as [|e l He _ IH]; [done|]. simpl.
  intros [H1 H2]%andb_prop. by rewrite He, IH.
Qed.

Lemma unchanged_opt_list l :
  Forall (ExprInduction.opt_all unchanged) l →
  hook_free_opt_list l = true → erase_opt_list l = l.
Proof.
  induction 1 as [|[e|] l He _ IH]; [done| |]; simpl.
  - intros [H1 H2]%andb_prop. by rewrite He, IH.
  - intros H. by rewrite IH.
Qed.

Lemma unchanged_arg x :
  ExprInduction.arg_all unchanged x → hook_free_arg x = true → erase_arg x = x.
Proof. destruct x as [n [ann|]]; [|done]. simpl. intros H Hf. by rewrite H. Qed.

Lemma unchanged_args l :
  Forall (ExprInduction.arg_all unchanged) l →
  hook_free_args l = true → erase_args l = l.
Proof.
  induction 1 as [|x l Hx _ IH]; [done|]. simpl.
  intros [H1 H2]%andb_prop. by rewrite unchanged_arg, IH.
Qed.

Lemma unchanged_arg_opt o :
  ExprInduction.opt_all (ExprInduction.arg_all unchanged) o →
  hook_free_arg_opt o = true → erase_arg_opt o = o.
Proof. destruct o as [x|]; [|done]. simpl. intros H Hf. by rewrite unchanged_arg. Qed.

(** An expression without hook names has no call to erase. *)
Lemma erase_hook_free e : unchanged e.
Proof.
  induction e as [id ctx|c|value attr ctx IH|value s ctx IH|func args kws IHf IHa IHk
                 |l op r IHl IHr|elts ctx IH|elts ctx IH|args body IHa IHb]
    using ExprInduction.expr_ind'; unfold unchanged in *.
  - done.
  - done.
  - simpl. intros H. by rewrite IH.
  - simpl. intros H. by rewrite IH.
  - change (hook_free (Call func args kws)) with (hook_free func && hook_free_list args).
    change (erase (Call func args kws)) with (strip (erase func) (erase_list args) kws).
    intros [H1 H2]%andb_prop. rewrite IHf, (unchanged_list args) by done.
    by apply strip_hook_free.
  - simpl. intros [H1 H2]%andb_prop. by rewrite IHl, IHr.
  - change (hook_free (List_ elts ctx)) with (hook_free_list elts).
    change (erase (List_ elts ctx)) with (List_ (erase_list elts) ctx).
    intros H. by rewrite (unchanged_list elts).
  - change (hook_free (Tuple elts ctx)) with (hook_free_list elts).
    change (erase (Tuple elts ctx)) with (Tuple (erase_list elts) ctx).
    intros H. by rewrite (unchanged_list elts).
  - destruct args as [a vararg kwonlyargs kwd kwarg dflt].
    destruct IHa as (Ha & Hva & Hko & Hkd & Hkw & Hd).
    change (hook_free (Lambda (Arguments a vararg kwonlyargs kwd kwarg dflt) body))
      with (hook_free_args a && hook_free_arg_opt vararg && hook_free_args kwonlyargs
            && hook_free_opt_list kwd && hook_free_arg_opt kwarg && hook_free_list dflt
            && hook_free body).
    change (erase (Lambda (Arguments a vararg kwonlyargs kwd kwarg dflt) body))
      with (Lambda (Arguments (erase_args a) (erase_arg_opt vararg)
                      (erase_args kwonlyargs) (erase_opt_list kwd)
                      (erase_arg_opt kwarg) (erase_list dflt))
                   (erase body)).
    intros [[[[[[H1 H2]%andb_prop H3]%andb_prop H4]%andb_prop H5]%andb_prop
              H6]%andb_prop H7]%andb_prop.
    by rewrite unchanged_args, unchanged_arg_opt, unchanged_args, unchanged_opt_list,
      unchanged_arg_opt, unchanged_list, IHb.
Qed.

(** *** Visits that return or raise

    [runs m ok Q]: on a transformer with the three hook names, the visit
    [m] returns if [ok] holds, with a result that satisfies [Q] and the
    transformer as it was before; it raises one of the two exceptions of the
    pass if [ok] does not hold. *)
Definition runs {A} (m : M A) (ok : bool) (Q : A → Prop) : Prop :=
  ∀ t, named t →
    match m t with
    | inr (a, t') => ok = true ∧ t' = t ∧ Q a
    | inl exn => ok = false ∧ fails exn
    end.

Lemma runs_ret {A} (a : A) (Q : A → Prop) : Q a → runs (ret a) true Q.
Proof. by intros HQ t _. Qed.

Lemma runs_raise {A} exn (Q : A → Prop) : fails exn → runs (raise exn) false Q.
Proof. by intros Hf t _. Qed.

Lemma runs_bind {A B} (m : M A) (k : A → M B) ok1 ok2 (Q : A → Prop) (Q' : B → Prop) :
  runs m ok1 Q → (∀ a, Q a → runs (k a) ok2 Q') → runs (bind k m) (ok1 && ok2) Q'.
Proof.
  intros Hm Hk t Ht. specialize (Hm t Ht). unfold bind.
  destruct (m t) as [exn|[a t']].
  - by destruct Hm as [-> ?].
  - destruct Hm as (-> & -> & HQ). exact (Hk a HQ t Ht).
Qed.

Lemma runs_bind_true {A B} (m : M A) (k : A → M B) ok (Q : A → Prop) (Q' : B → Prop) :
  runs m true Q → (∀ a, Q a → runs (k a) ok Q') → runs (bind k m) ok Q'.
Proof. intros Hm Hk. by apply (runs_bind m k true ok Q Q'). Qed.

Lemma runs_bind_last {A B} (m : M A) (k : A → M B) ok (Q : A → Prop) (Q' : B → Prop) :
  runs m ok Q → (∀ a, Q a → runs (k a) true Q') → runs (bind k m) ok Q'.
Proof.
  intros Hm Hk. rewrite <- (andb_true_r ok). by apply (runs_bind m k ok true Q Q').
Qed.

Lemma runs_get : runs get true named.
Proof. by intros t Ht. Qed.

Lemma named_set_inside b t : named t → named (set_inside b t).
Proof. by intros H. Qed.

Lemma runs_context {A} (b : bool) (m : M A) ok (Q : A → Prop) :
  runs m ok Q → runs (attrsub_load_context b m) ok Q.
Proof.
  intros Hm t Ht. specialize (Hm (set_inside b t) (named_set_inside b t Ht)).
  unfold attrsub_load_context.
  destruct (m (set_inside b t)) as [exn|[a t']]; [done|].
  destruct Hm as (-> & -> & HQ). split; [done|]. split; [by destruct t|done].
Qed.

(** What the pass makes of [e]: it returns exactly on the supported
    expressions, and erasing the hooks from its result gives [e] back when
    [e] has no hook name. *)
Definition sound (e : expr) : Prop :=
  runs (visit e) (supported e) (fun e' => hook_free e = true → erase e' = e).

Lemma runs_Attribute value attr ctx cc :
  sound value →
  runs (visit_Attribute_or_Subscript visit value (AttrOf attr) ctx cc) (supported value)
       (fun e' => hook_free value = true → erase e' = Attribute value attr ctx).
Proof.
  intros Hv. unfold visit_Attribute_or_Subscript.
  eapply runs_bind_true; [apply runs_get|]. intros t (Hs & _ & _). cbv beta.
  eapply runs_bind_true; [apply (runs_ret _ (fun k => k = Constant (CStr attr))); done|].
  intros key ->. cbv beta.
  eapply runs_bind_last; [apply runs_context, Hv|]. intros value' Hvalue'. cbv beta.
  eapply runs_bind_true; [apply runs_get|]. intros t' (_ & He & _). cbv beta.
  rewrite Hs, He.
  assert (Hnode : hook_free value = true →
            erase (Attribute (start_call start_name value' (Constant (CStr attr)) false ctx
                                cc (is_Load ctx || inside_attrsub_load_chain t)) attr ctx)
            = Attribute value attr ctx).
  { intros Hf.
    change (erase (Attribute ?v attr ctx)) with (Attribute (erase v) attr ctx).
    by rewrite erase_start_call, Hvalue'. }
  destruct (negb (inside_attrsub_load_chain t') && _); apply runs_ret; [|done].
  intros Hf. unfold rebuild. by rewrite erase_end_call, Hnode.
Qed.

Lemma runs_Subscript value s ctx cc :
  sound value →
  runs (visit_Attribute_or_Subscript visit value (SliceOf s) ctx cc)
       (supported (Subscript value s ctx))
       (fun e' => hook_free value = true → erase e' = Subscript value s ctx).
Proof.
  intros Hv. unfold visit_Attribute_or_Subscript.
  eapply runs_bind_true; [apply runs_get|]. intros t (Hs & _ & _). cbv beta.
  destruct s as [key|lo up st|dims].
  2,3: intros t0 Ht0; split; [done|by right].
  eapply runs_bind_true; [apply (runs_ret _ (fun k => k = key)); done|].
  intros ? ->. cbv beta.
  change (supported (Subscript value (Index key) ctx)) with (supported value).
  eapply runs_bind_last; [apply runs_context, Hv|]. intros value' Hvalue'. cbv beta.
  eapply runs_bind_true; [apply runs_get|]. intros t' (_ & He & _). cbv beta.
  rewrite Hs, He.
  assert (Hnode : hook_free value = true →
            erase (Subscript (start_call start_name value' key true ctx
                                cc (is_Load ctx || inside_attrsub_load_chain t))
                             (Index key) ctx)
            = Subscript value (Index key) ctx).
  { intros Hf.
    change (erase (Subscript ?v ?s ctx)) with (Subscript (erase v) s ctx).
    by rewrite erase_start_call, Hvalue'. }
  destruct (negb (inside_attrsub_load_chain t') && _); apply runs_ret; [|done].
  intros Hf. unfold rebuild. by rewrite erase_end_call, Hnode.
Qed.

Lemma runs_visit_list l :
  Forall sound l →
  runs (visit_list l) (supported_list l)
       (fun l' => hook_free_list l = true → erase_list l' = l).
Proof.
  induction 1 as [|e l He _ IH]; [by apply runs_ret|].
  change (visit_list (e :: l))
    with (bind (fun e' => bind (fun l' => ret (e' :: l')) (visit_list l)) (visit e)).
  change (supported_list (e :: l)) with (supported e && supported_list l).
  eapply runs_bind; [apply He|]. intros e' He'. cbv beta.
  eapply runs_bind_last; [apply IH|]. intros l' Hl'. cbv beta.
  apply runs_ret. simpl. intros [H1 H2]%andb_prop. by rewrite He', Hl'.
Qed.

Lemma runs_call_args l :
  Forall sound l →
  runs (visit_call_args l) (supported_list l)
       (fun l' => hook_free_list l = true → erase_list l' = l).
Proof.
  induction 1 as [|e l He _ IH]; [by apply runs_ret|].
  change (visit_call_args (e :: l))
    with (bind (fun e' => bind (fun l' => ret (e' :: l')) (visit_call_args l))
               (match e with
                | Name id _ =>
                    bind (fun t => ret (Call (Name (arg_recorder t) Load)
                                             [e; Constant (CStr id)] []))
                         get
                | _ => attrsub_load_context false (visit e)
                end)).
  change (supported_list (e :: l)) with (supported e && supported_list l).
  eapply (runs_bind _ _ _ _ (fun e' => hook_free e = true → erase e' = e)).
  { destruct e; try (by apply runs_context, He).
    eapply runs_bind_true; [apply runs_get|]. intros t (_ & _ & Hr). cbv beta.
    apply runs_ret. intros _. by rewrite Hr, erase_recorder_call. }
  intros e' He'. cbv beta.
  eapply runs_bind_last; [apply IH|]. intros l' Hl'. cbv beta.
  apply runs_ret. simpl. intros [H1 H2]%andb_prop. by rewrite He', Hl'.
Qed.

Lemma runs_visit_opt_list l :
  Forall (ExprInduction.opt_all sound) l →
  runs (visit_opt_list l) (supported_opt_list l)
       (fun l' => hook_free_opt_list l = true → erase_opt_list l' = l).
Proof.
  induction 1 as [|[e|] l He _ IH]; [by apply runs_ret| |].
  - change (visit_opt_list (Some e :: l))
      with (bind (fun e' => bind (fun l' => ret (Some e' :: l')) (visit_opt_list l))
                 (visit e)).
    change (supported_opt_list (Some e :: l)) with (supported e && supported_opt_list l).
    eapply runs_bind; [apply He|]. intros e' He'. cbv beta.
    eapply runs_bind_last; [apply IH|]. intros l' Hl'. cbv beta.
    apply runs_ret. simpl. intros [H1 H2]%andb_prop. by rewrite He', Hl'.
  - change (visit_opt_list (None :: l))
      with (bind (fun l' => ret (None :: l')) (visit_opt_list l)).
    change (supported_opt_list (None :: l)) with (supported_opt_list l).
    eapply runs_bind_last; [apply IH|]. intros l' Hl'. cbv beta.
    apply runs_ret. simpl. intros H. by rewrite Hl'.
Qed.

Lemma runs_visit_arg x :
  ExprInduction.arg_all sound x →
  runs (visit_arg x) (supported_arg x)
       (fun x' => hook_free_arg x = true → erase_arg x' = x).
Proof.
  destruct x as [n [ann|]]; intros Hx; [|by apply runs_ret].
  change (visit_arg (Arg n (Some ann)))
    with (bind (fun ann' => ret (Arg n (Some ann'))) (visit ann)).
  change (supported_arg (Arg n (Some ann))) with (supported ann).
  eapply runs_bind_last; [apply Hx|]. intros ann' Hann'. cbv beta.
  apply runs_ret. simpl. intros H. by rewrite Hann'.
Qed.

Lemma runs_visit_args l :
  Forall (ExprInduction.arg_all sound) l →
  runs (visit_args l) (supported_args l)
       (fun l' => hook_free_args l = true → erase_args l' = l).
Proof.
  induction 1 as [|x l Hx _ IH]; [by apply runs_ret|].
  change (visit_args (x :: l))
    with (bind (fun x' => bind (fun l' => ret (x' :: l')) (visit_args l)) (visit_arg x)).
  change (supported_args (x :: l)) with (supported_arg x && supported_args l).
  eapply runs_bind; [by apply runs_visit_arg|]. intros x' Hx'. cbv beta.
  eapply runs_bind_last; [apply IH|]. intros l' Hl'. cbv beta.
  apply runs_ret. simpl. intros [H1 H2]%andb_prop. by rewrite Hx', Hl'.
Qed.

Lemma runs_visit_arg_opt o :
  ExprInduction.opt_all (ExprInduction.arg_all sound) o →
  runs (AttrSubTransformer.visit_arg_opt o) (supported_arg_opt o)
       (fun o' => hook_free_arg_opt o = true → erase_arg_opt o' = o).
Proof.
  destruct o as [x|]; intros Ho; [|by apply runs_ret].
  change (AttrSubTransformer.visit_arg_opt (Some x))
    with (bind (fun x' => ret (Some x')) (visit_arg x)).
  change (supported_arg_opt (Some x)) with (supported_arg x).
  eapply runs_bind_last; [by apply runs_visit_arg|]. intros x' Hx'. cbv beta.
  apply runs_ret. simpl. intros H. by rewrite Hx'.
Qed.

Lemma runs_visit_arguments a :
  ExprInduction.arguments_all sound a →
  runs (visit_arguments a) (supported_arguments a)
       (fun a' => hook_free_arguments a = true → erase_arguments a' = a).
Proof.
  destruct a as [args vararg kwonlyargs kwd kwarg dflt].
  intros (Ha & Hva & Hko & Hkd & Hkw & Hd).
  change (supported_arguments (Arguments args vararg kwonlyargs kwd kwarg dflt))
    with (supported_args args && supported_arg_opt vararg && supported_args kwonlyargs
          && supported_opt_list kwd && supported_arg_opt kwarg && supported_list dflt).
  change (visit_arguments (Arguments args vararg kwonlyargs kwd kwarg dflt))
    with (bind (fun args' =>
            bind (fun vararg' =>
              bind (fun kwonlyargs' =>
                bind (fun kwd' =>
                  bind (fun kwarg' =>
                    bind (fun dflt' =>
                      ret (Arguments args' vararg' kwonlyargs' kwd' kwarg' dflt'))
                      (visit_list dflt))
                    (AttrSubTransformer.visit_arg_opt kwarg))
                  (visit_opt_list kwd))
                (visit_args kwonlyargs))
              (AttrSubTransformer.visit_arg_opt vararg))
            (visit_args args)).
  rewrite <- !andb_assoc.
  eapply runs_bind; [by apply runs_visit_args|]. intros args' E1. cbv beta.
  eapply runs_bind; [by apply runs_visit_arg_opt|]. intros vararg' E2. cbv beta.
  eapply runs_bind; [by apply runs_visit_args|]. intros kwonlyargs' E3. cbv beta.
  eapply runs_bind; [by apply runs_visit_opt_list|]. intros kwd' E4. cbv beta.
  eapply runs_bind; [by apply runs_visit_arg_opt|]. intros kwarg' E5. cbv beta.
  eapply runs_bind_last; [by apply runs_visit_list|]. intros dflt' E6. cbv beta.
  apply runs_ret.
  change (hook_free_arguments (Arguments args vararg kwonlyargs kwd kwarg dflt))
    with (hook_free_args args && hook_free_arg_opt vararg && hook_free_args kwonlyargs
          && hook_free_opt_list kwd && hook_free_arg_opt kwarg && hook_free_list dflt).
  change (erase_arguments (Arguments args' vararg' kwonlyargs' kwd' kwarg' dflt'))
    with (Arguments (erase_args args') (erase_arg_opt vararg')
            (erase_args kwonlyargs') (erase_opt_list kwd')
            (erase_arg_opt kwarg') (erase_list dflt')).
  intros [[[[[H1 H2]%andb_prop H3]%andb_prop H4]%andb_prop H5]%andb_prop H6]%andb_prop.
  f_equal; auto.
Qed.

(** What the induction proves of [e]; if [e] is an attribute access, also
    of its base (what [visit_Call] needs for its callee). *)
Definition sound_with_base (e : expr) : Prop :=
  sound e ∧ match e with Attribute value _ _ => sound value | _ => True end.

Lemma sound_list l : Forall sound_with_base l → Forall sound l.
Proof. intros H. eapply Forall_impl; [exact H|]. by intros e [He _]. Qed.

Lemma visit_sound e : sound_with_base e.
Proof.
  induction e as [id ctx|c|value attr ctx IH|value s ctx IH|func args kws IHf IHa IHk
                 |l op r IHl IHr|elts ctx IH|elts ctx IH|args body IHa IHb]
    using ExprInduction.expr_ind'; unfold sound_with_base.
  - split; [|done]. by apply runs_ret.
  - split; [|done]. by apply runs_ret.
  - destruct IH as [IH _]. split; [|exact IH]. exact (runs_Attribute value attr ctx false IH).
  - destruct IH as [IH _]. split; [|done]. exact (runs_Subscript value s ctx false IH).
  - split; [|done].
    destruct func as [| |value attr ctx| | | | | |];
      try (apply runs_ret; apply erase_hook_free).
    destruct IHf as [_ IHv]. unfold sound.
    change (supported (Call (Attribute value attr ctx) args kws))
      with (is_Load ctx && supported value && supported_list args).
    change (visit (Call (Attribute value attr ctx) args kws))
      with (if negb (is_Load ctx) then raise AssertionError else
            bind (fun func' =>
              bind (fun replacement_args =>
                bind (fun t =>
                  if inside_attrsub_load_chain t
                  then ret (Call func' replacement_args kws)
                  else ret (end_call (end_tracer t) (Call func' replacement_args kws)))
                  get)
                (visit_call_args args))
              (attrsub_load_context true
                 (visit_Attribute_or_Subscript visit value (AttrOf attr) ctx true))).
    destruct (is_Load ctx); [|apply runs_raise; by left].
    cbn [negb andb].
    eapply runs_bind; [by apply runs_context, runs_Attribute|].
    intros func' Hfunc'. cbv beta.
    eapply runs_bind_last; [by apply runs_call_args, sound_list|].
    intros args' Hargs'. cbv beta.
    eapply runs_bind_true; [apply runs_get|]. intros t (_ & He & _). cbv beta.
    assert (Hnode : hook_free (Call (Attribute value attr ctx) args kws) = true →
              erase (Call func' args' kws) = Call (Attribute value attr ctx) args kws).
    { change (hook_free (Call (Attribute value attr ctx) args kws))
        with (hook_free value && hook_free_list args).
      intros [H1 H2]%andb_prop.
      change (erase (Call func' args' kws))
        with (strip (erase func') (erase_list args') kws).
      by rewrite Hfunc', Hargs'. }
    destruct (inside_attrsub_load_chain t); apply runs_ret; [done|].
    intros Hf. by rewrite He, erase_end_call, Hnode.
  - split; [|done]. unfold sound.
    change (visit (BinOp l op r))
      with (bind (fun l' => bind (fun r' => ret (BinOp l' op r')) (visit r)) (visit l)).
    change (supported (BinOp l op r)) with (supported l && supported r).
    eapply runs_bind; [apply IHl|]. intros l' Hl'. cbv beta.
    eapply runs_bind_last; [apply IHr|]. intros r' Hr'. cbv beta.
    apply runs_ret. simpl. intros [H1 H2]%andb_prop. by rewrite Hl', Hr'.
  - split; [|done]. unfold sound.
    change (visit (List_ elts ctx))
      with (bind (fun elts' => ret (List_ elts' ctx)) (visit_list elts)).
    change (supported (List_ elts ctx)) with (supported_list elts).
    eapply runs_bind_last; [by apply runs_visit_list, sound_list|].
    intros elts' Helts'. apply runs_ret.
    change (hook_free (List_ elts ctx)) with (hook_free_list elts).
    change (erase (List_ elts' ctx)) with (List_ (erase_list elts') ctx).
    intros H. by rewrite Helts'.
  - split; [|done]. unfold sound.
    change (visit (Tuple elts ctx))
      with (bind (fun elts' => ret (Tuple elts' ctx)) (visit_list elts)).
    change (supported (Tuple elts ctx)) with (supported_list elts).
    eapply runs_bind_last; [by apply runs_visit_list, sound_list|].
    intros elts' Helts'. apply runs_ret.
    change (hook_free (Tuple elts ctx)) with (hook_free_list elts).
    change (erase (Tuple elts' ctx)) with (Tuple (erase_list elts') ctx).
    intros H. by rewrite Helts'.
  - split; [|done]. unfold sound.
    change (visit (Lambda args body))
      with (bind (fun args' => bind (fun body' => ret (Lambda args' body')) (visit body))
                 (visit_arguments args)).
    change (supported (Lambda args body))
      with (supported_arguments args && supported body).
    eapply runs_bind.
    { apply runs_visit_arguments.
      destruct args as [a vararg kwonlyargs kwd kwarg dflt].
      destruct IHa as (Ha & Hva & Hko & Hkd & Hkw & Hd).
      repeat split.
      - eapply Forall_impl; [exact Ha|]. intros [n [ann|]]; [by intros [? _]|done].
      - destruct vararg as [[n [ann|]]|]; [by destruct Hva|done..].
      - eapply Forall_impl; [exact Hko|]. intros [n [ann|]]; [by intros [? _]|done].
      - eapply Forall_impl; [exact Hkd|]. intros [e|]; [by intros [? _]|done].
      - destruct kwarg as [[n [ann|]]|]; [by destruct Hkw|done..].
      - by apply sound_list. }
    intros args' Hargs'. cbv beta.
    eapply runs_bind_last; [apply IHb|]. intros body' Hbody'. apply runs_ret.
    change (hook_free (Lambda args body))
      with (hook_free_arguments args && hook_free body).
    change (erase (Lambda args' body')) with (Lambda (erase_arguments args') (erase body')).
    intros [H1 H2]%andb_prop. by rewrite Hargs', Hbody'.
Qed.

End HookNames.
(** X7: the pass returns exactly on the supported expressions, and then
    leaves the transformer (its flag) as it was; on every other expression
    it raises [AssertionError] (a rewritten call whose callee is not in
    [Load] context) or [ValueError] (a subscript it reaches with a slice
    that is not a plain index). *)
Theorem pass_returns_or_raises (e : expr) (t : AttrSubTracingNodeTransformer) :
  (supported e = true ↔ ∃ e', visit e t = inr (e', t))
  ∧ (supported e = false ↔ ∃ exn, visit e t = inl exn ∧ fails exn).
Proof.
  pose proof (proj1 (visit_sound (start_tracer t) (end_tracer t) (arg_recorder t) e) t) as H.
  specialize (H (conj eq_refl (conj eq_refl eq_refl))).
  destruct (visit e t) as [exn|[e' t']].
  - destruct H as [-> Hf]. split; split; try done.
    + by intros [? ?].
    + intros _. by exists exn.
  - destruct H as (-> & -> & _). split; split; try done.
    + intros _. by exists e'.
    + by intros (? & ? & _).
Qed.

(** X8: on a supported expression without the names of the hooks, the
    result of the pass with the calls of the three hooks taken out again is
    the expression itself: the pass only wraps nodes, it drops and reorders
    nothing. *)
Theorem erase_rewritten (e : expr) (t : AttrSubTracingNodeTransformer) :
  supported e = true →
  hook_free (start_tracer t) (end_tracer t) (arg_recorder t) e = true →
  ∃ e', visit e t = inr (e', t)
        ∧ erase (start_tracer t) (end_tracer t) (arg_recorder t) e' = e.
Proof.
  intros Hs Hf.
  pose proof (proj1 (visit_sound (start_tracer t) (end_tracer t) (arg_recorder t) e) t) as H.
  specialize (H (conj eq_refl (conj eq_refl eq_refl))).
  destruct (visit e t) as [exn|[e' t']].
  - destruct H as [H _]. congruence.
  - destruct H as (_ & -> & H). exists e'. split; [done|]. by apply H.
Qed.

(** [a.f(x, y.z)[i]] with the hooks of nbsafety. *)
Definition rewritten_sample : expr :=
  Subscript (Call (Attribute (Name "a" Load) "f" Load)
                  [Name "x" Load; Attribute (Name "y" Load) "z" Load] [])
            (Index (Name "i" Load)) Load.

Definition sample_transformer : AttrSubTracingNodeTransformer :=
  mkTransformer "_NBSAFETY_ATTR_TRACER_START" "_NBSAFETY_ATTR_TRACER_END"
                "_NBSAFETY_ARG_RECORDER" false.

Lemma erase_rewritten_witness :
  ∃ e', visit rewritten_sample sample_transformer = inr (e', sample_transformer)
        ∧ erase "_NBSAFETY_ATTR_TRACER_START" "_NBSAFETY_ATTR_TRACER_END"
                "_NBSAFETY_ARG_RECORDER" e' = rewritten_sample.
Proof. apply (erase_rewritten rewritten_sample sample_transformer); reflexivity. Defined.

End Erasure.

(** ** The hooks and the registry of scopes *)

Module Registry.
Import Py AttrTracing FrameStack.

(** *** What the hooks give back *)

(** X9: the hooks are transparent for the instrumented expression.  When
    the start hook returns, it returns the object it was given; when it
    raises, the access is a load out of call position on an object that is
    not [None], and the exception is the one that reading the attribute or
    the item of the object raises (never [AttributeError], which the hook
    swallows).  The end hook and the argument recorder always return the
    object they were given. *)
Theorem hooks_return_their_argument :
  (∀ obj k s ctx cc ov m,
     match attrsub_tracer obj k s ctx cc ov m with
     | Returns r _ => r = obj
     | Raises e _ =>
         py_is_None obj = false ∧ ctx = "Load" ∧ cc = false ∧ e ≠ AttributeError
         ∧ (if s then getitem obj k else getattr obj k) = inl e
     end)
  ∧ (∀ obj m, ∃ m', expr_tracer obj m = Returns obj m')
  ∧ (∀ obj name m, ∃ m', arg_recorder obj name m = Returns obj m').
Proof.
  split; [|split; intros; by eexists].
  intros obj k s ctx cc ov m. unfold attrsub_tracer.
  destruct (py_is_None obj) eqn:HN; [done|].
  destruct (resolve_scope obj s m) as [scope m1].
  destruct (decide (ctx = "Load")) as [->|Hctx]; [|done].
  destruct cc; [done|].
  destruct (lookup_data_cell_by_name_this_indentation _ _ _) as [c|]; [done|].
  unfold make_data_cell.
  destruct (if s then getitem obj k else getattr obj k) as [e|v] eqn:Hread; [|done].
  destruct e; done.
Qed.

(** *** The registry of scopes and DataCells *)

(** The registry of [m'] extends that of [m]: every identity keeps the
    scope it has, no scope or DataCell object goes away, and the alias set
    of every identity keeps its DataCells. *)
Definition extends (m m' : AttributeTracingManager) : Prop :=
  namespaces m ⊆ namespaces m'
  ∧ (length (scopes m) ≤ length (scopes m'))%nat
  ∧ cells m `prefix_of` cells m'
  ∧ ∀ i, aliases_at i m ⊆ aliases_at i m'.

Lemma extends_refl m : extends m m.
Proof. by repeat split. Qed.

Lemma extends_trans m1 m2 m3 : extends m1 m2 → extends m2 m3 → extends m1 m3.
Proof.
  intros (N1 & S1 & C1 & A1) (N2 & S2 & C2 & A2).
  split; [exact (transitivity N1 N2)|].
  split; [lia|]. split; [exact (transitivity C1 C2)|].
  intros i. exact (transitivity (A1 i) (A2 i)).
Qed.

Lemma aliases_at_insert i j s m :
  aliases_at i (with_aliases (insert j s) m) = if decide (i = j) then s else aliases_at i m.
Proof.
  unfold aliases_at. simpl. destruct (decide (i = j)) as [->|Hne].
  - by rewrite lookup_insert_eq.
  - by rewrite lookup_insert_ne.
Qed.

Lemma resolve_scope_extends obj s m : extends m (resolve_scope obj s m).2.
Proof.
  unfold resolve_scope.
  destruct (namespaces m !! py_id obj) as [scope|] eqn:Hns; [apply extends_refl|].
  assert (Hnew : ∀ sc m0,
            namespaces m0 = namespaces m → cells m0 = cells m →
            (∀ i, aliases_at i m ⊆ aliases_at i m0) → length (scopes m) = length (scopes m0) →
            ∀ r, extends m (with_namespaces (insert (py_id obj) r) (new_scope sc m0).2)).
  { intros sc m0 Hn Hc Ha Hl r. split; [|split; [|split]]; simpl.
    - rewrite Hn. by apply insert_subseteq.
    - rewrite length_app. lia.
    - by rewrite Hc.
    - intros i. unfold aliases_at in *. simpl. apply Ha. }
  destruct (namespaces m !! py_class_id obj) as [class_scope|], s; simpl.
  2: { unfold clone. destruct (scopes m !! class_scope); by apply Hnew. }
  all: apply Hnew; try done; intros i; rewrite aliases_at_insert;
    by destruct (decide (i = py_id obj)) as [->|].
Qed.

Lemma make_data_cell_extends scope obj k s m :
  extends m (state_of (make_data_cell scope obj k s m)).
Proof.
  unfold make_data_cell.
  destruct (if s then getitem obj k else getattr obj k) as [e|v].
  { destruct e; apply extends_refl. }
  unfold extends, aliases_at, new_cell, put, with_aliases, with_scopes, with_cells.
  cbn [state_of scopes cells namespaces aliases fst snd].
  split; [done|]. split; [by rewrite length_alter|].
  split; [by apply prefix_app_r|].
  intros i.
  destruct (decide (i = py_id v)) as [->|Hne].
  - rewrite lookup_insert_eq. simpl. set_solver.
  - by rewrite lookup_insert_ne.
Qed.

Lemma extends_fields m m' :
  namespaces m' = namespaces m → scopes m' = scopes m → cells m' = cells m →
  aliases m' = aliases m → extends m m'.
Proof.
  intros Hn Hs Hc Ha. unfold extends, aliases_at. by rewrite Hn, Hs, Hc, Ha.
Qed.

Lemma attrsub_tracer_after_resolve obj k s ctx cc ov m :
  py_is_None obj = false →
  extends (resolve_scope obj s m).2 (state_of (attrsub_tracer obj k s ctx cc ov m)).
Proof.
  intros HN. unfold attrsub_tracer. rewrite HN.
  destruct (resolve_scope obj s m) as [scope m1]. simpl.
  set (m2 := if ov then with_active_scope scope m1 else m1).
  assert (H2 : extends m1 m2) by (subst m2; destruct ov; by apply extends_fields).
  eapply extends_trans; [exact H2|]. clearbody m2.
  destruct (decide (ctx = "Load")) as [->|Hctx].
  - destruct cc.
    + destruct (decide _); by apply extends_fields.
    + destruct (lookup_data_cell_by_name_this_indentation _ _ _) as [c|].
      * destruct (decide _); by apply extends_fields.
      * pose proof (make_data_cell_extends scope obj k s (with_mutation_candidate None m2))
          as H3.
        destruct (make_data_cell _ _ _ _ _) as [dc m3|e m3]; simpl in H3 |- *.
        -- eapply extends_trans; [|eapply extends_trans;
             [exact H3|by apply extends_fields]]. by apply extends_fields.
        -- eapply extends_trans; [|exact H3]. by apply extends_fields.
  - destruct (decide _); by apply extends_fields.
Qed.

Lemma attrsub_tracer_extends obj k s ctx cc ov m :
  extends m (state_of (attrsub_tracer obj k s ctx cc ov m)).
Proof.
  destruct (py_is_None obj) eqn:HN.
  - unfold attrsub_tracer. rewrite HN. apply extends_refl.
  - eapply extends_trans; [apply resolve_scope_extends|].
    by apply attrsub_tracer_after_resolve.
Qed.

Lemma step_extends o m : extends m (step o m).
Proof.
  destruct o; simpl.
  - apply attrsub_tracer_extends.
  - unfold expr_tracer. destruct (mutation_candidate m) as [[c i]|]; simpl;
      [destruct (_ && _)|]; by apply extends_fields.
  - by apply extends_fields.
  - by apply extends_fields.
  - unfold pop_stack. destruct (unsnoc (stack m)) as [[rest [[[[[? ?] ?] ?] ?] ?]]|];
      by apply extends_fields.
  - by apply extends_fields.
  - by apply extends_fields.
Qed.

Lemma run_extends l m : extends m (run l m).
Proof.
  revert m. induction l as [|o l IH]; intros m; [apply extends_refl|].
  change (run (o :: l) m) with (run l (step o m)).
  eapply extends_trans; [apply step_extends|apply IH].
Qed.

(** X10: whatever the hooks, the frame operations and [reset] do, in any
    order, the registry only grows: an identity that has a namespace scope
    keeps that scope, no scope or DataCell object goes away, and no DataCell
    leaves the alias set of an identity. *)
Theorem registry_only_grows (l : list operation) (m : AttributeTracingManager) :
  extends m (run l m).
Proof. apply run_extends. Qed.

(** *** The scope of an object *)

Lemma resolve_scope_registered obj s m :
  namespaces (resolve_scope obj s m).2 !! py_id obj = Some (resolve_scope obj s m).1.
Proof.
  unfold resolve_scope.
  destruct (namespaces m !! py_id obj) as [scope|] eqn:Hns; [done|].
  destruct (namespaces m !! py_class_id obj) as [class_scope|], s; simpl;
    try by rewrite lookup_insert_eq.
  unfold clone. destruct (scopes m !! class_scope); simpl; by rewrite lookup_insert_eq.
Qed.

Lemma resolve_scope_cells obj s m : cells (resolve_scope obj s m).2 = cells m.
Proof.
  unfold resolve_scope.
  destruct (namespaces m !! py_id obj) as [scope|] eqn:Hns; [done|].
  destruct (namespaces m !! py_class_id obj) as [class_scope|], s; simpl; try done.
  unfold clone. by destruct (scopes m !! class_scope).
Qed.

(** X11: a store or an augmented store through an object that is not
    [None] is only buffered: the hook returns the object, appends one entry
    to the store buffer (the scope registered for the object, the object,
    the attribute or subscript, the subscript flag) and makes no DataCell;
    the loaded set and the mutation candidate stay as they were. *)
Theorem store_is_buffered (obj : PyObject) (k : PyKey) (s : bool) (ctx : string)
    (cc ov : bool) (m : AttributeTracingManager) :
  py_is_None obj = false → ctx = "Store" ∨ ctx = "AugStore" →
  ∃ scope m',
    attrsub_tracer obj k s ctx cc ov m = Returns obj m'
    ∧ namespaces m' !! py_id obj = Some scope
    ∧ saved_store_data m' = saved_store_data m ++ [(scope, obj, k, s)]
    ∧ cells m' = cells m
    ∧ loaded_data_cells m' = loaded_data_cells m
    ∧ mutation_candidate m' = mutation_candidate m.
Proof.
  intros HN Hctx. unfold attrsub_tracer. rewrite HN.
  pose proof (resolve_scope_registered obj s m) as Hreg.
  pose proof (resolve_scope_cells obj s m) as Hcells.
  pose proof (resolve_scope_session obj s m) as (_ & _ & _ & _ & Hcand & Hload & Hsaved).
  destruct (resolve_scope obj s m) as [scope m1]. simpl in *.
  rewrite decide_False by (intros ->; by destruct Hctx).
  rewrite decide_True by done.
  exists scope. eexists. split; [done|].
  destruct ov; simpl; by rewrite Hsaved.
Qed.

Lemma store_is_buffered_witness :
  ∃ scope m',
    attrsub_tracer Hooks.bare_object (KStr "x") false "Store" false false Hooks.manager0
    = Returns Hooks.bare_object m'
    ∧ namespaces m' !! 100%Z = Some scope
    ∧ saved_store_data m' = [] ++ [(scope, Hooks.bare_object, KStr "x", false)]
    ∧ cells m' = []
    ∧ loaded_data_cells m' = ∅
    ∧ mutation_candidate m' = None.
Proof.
  apply (store_is_buffered Hooks.bare_object (KStr "x") false "Store" false false
           Hooks.manager0); [reflexivity|by left].
Defined.

(** X12: once the start hook has been called on an object that is not
    [None], the object has a namespace scope, and it keeps that very scope
    whatever operations follow. *)
Theorem object_keeps_its_scope (obj : PyObject) (k : PyKey) (s : bool) (ctx : string)
    (cc ov : bool) (m : AttributeTracingManager) (l : list operation) :
  py_is_None obj = false →
  ∃ scope,
    namespaces (step (Begin obj k s ctx cc ov) m) !! py_id obj = Some scope
    ∧ namespaces (run l (step (Begin obj k s ctx cc ov) m)) !! py_id obj = Some scope.
Proof.
  intros HN.
  assert (H : ∃ scope, namespaces (step (Begin obj k s ctx cc ov) m) !! py_id obj
                       = Some scope).
  { exists (resolve_scope obj s m).1.
    destruct (attrsub_tracer_after_resolve obj k s ctx cc ov m HN) as (Hn & _).
    eapply lookup_weaken; [apply resolve_scope_registered|exact Hn]. }
  destruct H as [scope H]. exists scope. split; [done|].
  destruct (run_extends l (step (Begin obj k s ctx cc ov) m)) as (Hn & _).
  eapply lookup_weaken; [exact H|exact Hn].
Qed.

Lemma object_keeps_its_scope_witness :
  ∃ scope,
    namespaces (step (Begin Hooks.list_object (KStr "append") false "Load" true true)
                  Hooks.manager0) !! 101%Z = Some scope
    ∧ namespaces (run [Push 0; Reset; Pop]
                    (step (Begin Hooks.list_object (KStr "append") false "Load" true true)
                       Hooks.manager0)) !! 101%Z = Some scope.
Proof.
  apply (object_keeps_its_scope Hooks.list_object (KStr "append") false "Load" true true
           Hooks.manager0 [Push 0; Reset; Pop]).
  reflexivity.
Defined.

End Registry.

(** ** Sequences of transitions of the state machine *)

Module Sequences.
Import Py TraceStateM.

(** The statement objects only progress: the node of a statement stays,
    a finished statement stays finished, the one-shot flag stays set, and
    the list of call-point dependencies only gets longer. *)
Definition progresses (st st' : TraceStatement) : Prop :=
  stmt_node st' = stmt_node st
  ∧ (finished st = true → finished st' = true)
  ∧ (lambda_call_point_deps_done_once st = true →
     lambda_call_point_deps_done_once st' = true)
  ∧ call_point_deps st `prefix_of` call_point_deps st'.

(** What the instrumented code and the tracer do to the state: an event
    of the tracer goes through [state_transition_hook]; a call of one of the
    three hooks changes the manager only (also when the hook raises). *)
Inductive action :=
| Event (event : TraceEvent) (trace_stmt : stmt_ref)
| HookBegin (obj : AttrTracing.PyObject) (attr_or_subscript : AttrTracing.PyKey)
            (is_subscript : bool) (ctx : string)
            (call_context override_active_scope : bool)
| HookEnd (obj : AttrTracing.PyObject)
| HookArg (obj : AttrTracing.PyObject) (name : string).

Definition with_manager (m : AttrTracing.AttributeTracingManager) (s : TraceState)
    : TraceState :=
  mkTraceState m (statements s) (cur_frame_scope s) (prev_trace_stmt_in_cur_frame s)
    (inside_lambda s) (stack s) (prev_trace_stmt s) (prev_event s).

(** How deep in frames a sequence of actions ends when it starts [d]
    frames deep, or [None] when it returns from a frame it has not
    entered. *)
Fixpoint depth (l : list action) (d : nat) : option nat :=
  match l with
  | [] => Some d
  | Event call _ :: l => depth l (S d)
  | Event return_ _ :: l => match d with 0 => None | S d => depth l d end
  | _ :: l => depth l d
  end.

Lemma unsnoc_length {A} (l : list A) :
  (0 < length l)%nat → ∃ l' x, l = l' ++ [x].
Proof.
  intros Hl. destruct (AttrTracing.unsnoc l) as [[l' x]|] eqn:Hu.
  - exists l', x. by apply FrameStack.unsnoc_Some.
  - apply FrameStack.unsnoc_None in Hu. subst l. simpl in Hl. lia.
Qed.

Section Runs.

Variable get_post_call_scope : TraceStatement → AttrTracing.scope_ref → AttrTracing.scope_ref.
Variable compute_rval_dependencies : TraceState → stmt_ref → gset AttrTracing.cell_ref.

#[local] Abbreviation hook :=
  (state_transition_hook get_post_call_scope compute_rval_dependencies).
#[local] Abbreviation handle_call := (_handle_call_transition get_post_call_scope).
#[local] Abbreviation handle_return := (_handle_return_transition compute_rval_dependencies).

Definition do_action (a : action) (s : TraceState) : Py.exception + TraceState :=
  match a with
  | Event event trace_stmt => hook event trace_stmt s
  | HookBegin obj k sub ctx cc ov =>
      inr (with_manager
             (AttrTracing.step (AttrTracing.Begin obj k sub ctx cc ov)
                (attr_trace_manager s)) s)
  | HookEnd obj =>
      inr (with_manager (AttrTracing.step (AttrTracing.End_ obj) (attr_trace_manager s)) s)
  | HookArg obj name =>
      inr (with_manager
             (AttrTracing.step (AttrTracing.RecordArg obj name) (attr_trace_manager s)) s)
  end.

Fixpoint run_actions (l : list action) (s : TraceState) : Py.exception + TraceState :=
  match l with
  | [] => inr s
  | a :: l =>
      match do_action a s with
      | inl e => inl e
      | inr s => run_actions l s
      end
  end.

(** *** The check of the previous statement *)

(** The check returns the state as it is or with one statement marked
    finished, and then under these conditions. *)
Lemma check_cases event trace_stmt s s1 :
  _check_prev_stmt_done_executing_hook event trace_stmt s = inr s1 →
  s1 = s
  ∨ ∃ r, s1 = finished_execution_hook r s
         ∧ (event = line ∨ event = return_)
         ∧ prev_event s ≠ Some call ∧ prev_event s ≠ Some exception
         ∧ (event = return_ → prev_trace_stmt s = Some r)
         ∧ (event = line →
            prev_trace_stmt_in_cur_frame s = Some r
            ∧ stmt_test finished r s = false
            ∧ (stmt_test (fun st => isinstance_ClassDef (stmt_node st)) r s = true →
               prev_event s = Some return_)
            ∧ (stmt_test (fun st => isinstance_ClassDef (stmt_node st)) r s = false →
               r ≠ trace_stmt)).
Proof.
  unfold _check_prev_stmt_done_executing_hook.
  destruct (negb (bool_decide (event = line ∨ event = return_))) eqn:Hev; simpl.
  { intros [= ?]; subst s1. by left. }
  apply negb_false_iff, bool_decide_eq_true in Hev.
  case_bool_decide as Hprev. { intros [= ?]; subst s1. by left. }
  assert (Hpc : prev_event s ≠ Some call) by tauto.
  assert (Hpe : prev_event s ≠ Some exception) by tauto.
  case_bool_decide as Hret.
  - subst event. destruct (prev_trace_stmt s) as [prev_overall|] eqn:Hpo.
    2: { intros [= ?]; subst s1. by left. }
    destruct (AttrTracing.unsnoc (stack s)) as [[rest [top b]]|]; [|done].
    case_bool_decide; intros [= ?]; subst s1; [|by left].
    right. exists prev_overall. by repeat split.
  - destruct Hev as [-> | ->]; [|done].
    destruct (prev_trace_stmt_in_cur_frame s) as [prev_this_frame|] eqn:Hpf.
    2: { intros [= ?]; subst s1. by left. }
    destruct (stmt_test finished prev_this_frame s) eqn:Hfin.
    { intros [= ?]; subst s1. by left. }
    destruct (stmt_test (fun st => isinstance_ClassDef (stmt_node st)) prev_this_frame s)
      eqn:Hcls.
    + case_bool_decide as Hpr; [|intros [= ?]; subst s1; by left].
      simpl. intros [= ?]; subst s1. right. exists prev_this_frame.
      split; [done|]. split; [by left|]. split; [done|]. split; [done|].
      split; [done|]. intros _. split; [done|]. split; [done|]. split; [done|].
      by rewrite Hcls.
    + case_bool_decide as Hne; intros [= ?]; subst s1; [|by left].
      right. exists prev_this_frame.
      split; [done|]. split; [by left|]. split; [done|]. split; [done|].
      split; [done|]. intros _. split; [done|]. split; [done|].
      split; [by rewrite Hcls|done].
Qed.

(** The check raises only on a return event with an empty call stack. *)
Lemma check_returns event trace_stmt s :
  event ≠ return_ ∨ stack s ≠ [] →
  ∃ s1, _check_prev_stmt_done_executing_hook event trace_stmt s = inr s1.
Proof.
  intros H. unfold _check_prev_stmt_done_executing_hook.
  destruct (negb _ || _); [by eexists|].
  case_bool_decide as Hret.
  - destruct (prev_trace_stmt s); [|by eexists].
    destruct (AttrTracing.unsnoc (stack s)) as [[rest [top b]]|] eqn:Hu.
    + case_bool_decide; by eexists.
    + apply FrameStack.unsnoc_None in Hu. by destruct H.
  - destruct (prev_trace_stmt_in_cur_frame s); [|by eexists].
    repeat (destruct (stmt_test _ _ _) || case_bool_decide || destruct (_ || _));
      by eexists.
Qed.

(** *** The statement objects along a transition *)

(** Everything but the statement objects. *)
Definition frame_of (s : TraceState) :=
  (attr_trace_manager s, cur_frame_scope s, prev_trace_stmt_in_cur_frame s,
   inside_lambda s, stack s, prev_trace_stmt s, prev_event s).

(** The assignments of [_handle_return_transition] to the statement
    objects, between [self.stack.pop()] and [pop_stack()]. *)
Definition return_updates (trace_stmt return_to_stmt : stmt_ref) (s : TraceState)
    : TraceState :=
  if bool_decide (prev_event s ≠ Some exception) then
    if stmt_test (fun st => isinstance_ClassDef (stmt_node st)) return_to_stmt s then
      update_stmt (set_class_scope (cur_frame_scope s)) return_to_stmt s
    else if stmt_test (fun st => isinstance_Return (stmt_node st)) trace_stmt s
            || inside_lambda s then
      if negb (stmt_test lambda_call_point_deps_done_once trace_stmt s) then
        let s := update_stmt set_done_once trace_stmt s in
        update_stmt (append_call_point_deps (compute_rval_dependencies s trace_stmt))
                    return_to_stmt s
      else s
    else s
  else s.

Definition with_stack (l : list (option stmt_ref * bool)) (s : TraceState) : TraceState :=
  mkTraceState (attr_trace_manager s) (statements s) (cur_frame_scope s)
    (prev_trace_stmt_in_cur_frame s) (inside_lambda s) l
    (prev_trace_stmt s) (prev_event s).

Lemma handle_return_unfold trace_stmt s :
  handle_return trace_stmt s
  = match AttrTracing.unsnoc (stack s) with
    | None => inl Py.IndexError
    | Some (rest, (None, _)) => inl Py.AssertionError
    | Some (rest, (Some return_to_stmt, return_to_inside_lambda)) =>
        let s := return_updates trace_stmt return_to_stmt (with_stack rest s) in
        match AttrTracing.pop_stack (attr_trace_manager s) with
        | AttrTracing.Raises e _ => inl e
        | AttrTracing.Returns _ m =>
            inr (mkTraceState m (statements s) (AttrTracing.active_scope m)
                   (Some return_to_stmt) return_to_inside_lambda (stack s)
                   (prev_trace_stmt s) (prev_event s))
        end
    end.
Proof.
  unfold _handle_return_transition.
  destruct (AttrTracing.unsnoc (stack s)) as [[rest [[r|] il]]|]; [|done..].
  unfold return_updates, with_stack. cbv zeta. cbn [prev_event cur_frame_scope inside_lambda].
  reflexivity.
Qed.

Lemma return_updates_frame trace_stmt return_to_stmt s :
  frame_of (return_updates trace_stmt return_to_stmt s) = frame_of s.
Proof.
  unfold return_updates.
  case_bool_decide; [|done].
  destruct (stmt_test _ return_to_stmt s); [done|].
  destruct (_ || _); [|done].
  by destruct (negb _).
Qed.

Section Related.

(** A relation between the states of a statement object that the
    assignments of the return transition keep. *)
Variable R : TraceStatement → TraceStatement → Prop.
Hypothesis R_refl : ∀ st, R st st.
Hypothesis R_trans : ∀ st1 st2 st3, R st1 st2 → R st2 st3 → R st1 st3.

Lemma related_refl l : Forall2 R l l.
Proof. induction l; by constructor. Qed.

Lemma related_trans l1 l2 l3 : Forall2 R l1 l2 → Forall2 R l2 l3 → Forall2 R l1 l3.
Proof. apply Forall2_trans, R_trans. Qed.

Lemma related_alter f r l : (∀ st, R st (f st)) → Forall2 R l (alter f r l).
Proof.
  intros Hf. apply Forall2_alter_r; [apply related_refl|].
  intros x y Hx Hy _. assert (x = y) as -> by congruence. apply Hf.
Qed.

Hypothesis R_class_scope : ∀ sc st, R st (set_class_scope sc st).
Hypothesis R_done_once : ∀ st, R st (set_done_once st).
Hypothesis R_append : ∀ d st, R st (append_call_point_deps d st).

Lemma return_updates_related trace_stmt return_to_stmt s :
  Forall2 R (statements s) (statements (return_updates trace_stmt return_to_stmt s)).
Proof.
  unfold return_updates.
  case_bool_decide; [|apply related_refl].
  destruct (stmt_test _ return_to_stmt s); [by apply related_alter|].
  destruct (_ || _); [|apply related_refl].
  destruct (negb _); [|apply related_refl].
  simpl. eapply related_trans; by apply related_alter.
Qed.

Lemma handle_return_related trace_stmt s s' :
  handle_return trace_stmt s = inr s' → Forall2 R (statements s) (statements s').
Proof.
  rewrite handle_return_unfold.
  destruct (AttrTracing.unsnoc (stack s)) as [[rest [[r|] il]]|]; [|done..].
  cbv zeta.
  destruct (AttrTracing.pop_stack _) as [[] m|]; [|done].
  intros [= ?]; subst s'. simpl.
  apply (return_updates_related trace_stmt r (with_stack rest s)).
Qed.

(** The transitions around the check and the return change no statement
    object. *)
Lemma hook_related event trace_stmt s s' :
  (∀ st, R st (set_finished st)) →
  hook event trace_stmt s = inr s' → Forall2 R (statements s) (statements s').
Proof.
  intros R_finished. unfold state_transition_hook.
  destruct (_check_prev_stmt_done_executing_hook _ _ _) as [|s1] eqn:Hcheck; [done|].
  assert (H1 : Forall2 R (statements s) (statements s1)).
  { apply check_cases in Hcheck as [->|(r & -> & _)]; [apply related_refl|].
    by apply related_alter. }
  destruct event; simpl.
  - intros [= ?]; subst s'. done.
  - intros [= ?]; subst s'. done.
  - destruct (handle_return _ _) as [|s2] eqn:Hret; [done|].
    intros [= ?]; subst s'. simpl.
    eapply related_trans; [exact H1|].
    apply handle_return_related in Hret. exact Hret.
  - intros [= ?]; subst s'. done.
Qed.

End Related.

(** *** One transition *)

Lemma hook_call trace_stmt s :
  ∃ s', hook call trace_stmt s = inr s'
    ∧ stack s' = stack s ++ [(prev_trace_stmt_in_cur_frame s, inside_lambda s)]
    ∧ AttrTracing.stack (attr_trace_manager s')
      = AttrTracing.stack (attr_trace_manager s)
        ++ [AttrTracing.saved_fields (attr_trace_manager s)]
    ∧ AttrTracing.trace_event_counter (attr_trace_manager s')
      = (AttrTracing.trace_event_counter (attr_trace_manager s) + 1)%Z
    ∧ statements s' = statements s.
Proof. eexists. split; [reflexivity|]. by repeat split. Qed.

Lemma hook_line_or_exception event trace_stmt s :
  event = line ∨ event = exception →
  ∃ s', hook event trace_stmt s = inr s'
    ∧ stack s' = stack s
    ∧ attr_trace_manager s'
      = AttrTracing.with_trace_event_counter
          (AttrTracing.trace_event_counter (attr_trace_manager s) + 1)%Z
          (attr_trace_manager s)
    ∧ inside_lambda s' = inside_lambda s
    ∧ cur_frame_scope s' = cur_frame_scope s.
Proof.
  intros Hev. unfold state_transition_hook.
  destruct (check_returns event trace_stmt (increment_counter s)) as [s1 H1].
  { left. by destruct Hev as [-> | ->]. }
  rewrite H1.
  assert (Hf : frame_of s1 = frame_of (increment_counter s)).
  { by apply check_cases in H1 as [->|(r & -> & _)]. }
  injection Hf as Hm Hc Hp Hi Hs Hpt Hpe.
  destruct Hev as [-> | ->]; eexists; (split; [reflexivity|]); by repeat split.
Qed.

Lemma hook_return trace_stmt s s' :
  hook return_ trace_stmt s = inr s' →
  ∃ rest r il mrest f,
    stack s = rest ++ [(Some r, il)]
    ∧ AttrTracing.stack (attr_trace_manager s) = mrest ++ [f]
    ∧ stack s' = rest
    ∧ AttrTracing.stack (attr_trace_manager s') = mrest
    ∧ inside_lambda s' = il
    ∧ prev_trace_stmt_in_cur_frame s' = Some r
    ∧ AttrTracing.saved_fields (attr_trace_manager s') = f
    ∧ cur_frame_scope s' = AttrTracing.active_scope (attr_trace_manager s')
    ∧ AttrTracing.trace_event_counter (attr_trace_manager s')
      = (AttrTracing.trace_event_counter (attr_trace_manager s) + 1)%Z.
Proof.
  unfold state_transition_hook.
  destruct (_check_prev_stmt_done_executing_hook _ _ _) as [|s1] eqn:H1; [done|].
  assert (Hf : frame_of s1 = frame_of (increment_counter s)).
  { by apply check_cases in H1 as [->|(r & -> & _)]. }
  injection Hf as Hm Hc Hp Hi Hs Hpt Hpe.
  cbn [bool_decide decide_rel]. simpl.
  rewrite handle_return_unfold. cbn [stack].
  rewrite Hs. simpl.
  destruct (AttrTracing.unsnoc (stack s)) as [[rest [[r|] il]]|] eqn:Hu; [|done..].
  apply FrameStack.unsnoc_Some in Hu.
  cbv zeta.
  set (sX := return_updates trace_stmt r _).
  assert (HX : frame_of sX = frame_of (with_stack rest
            (mkTraceState (attr_trace_manager s1) (statements s1) (cur_frame_scope s1)
               (prev_trace_stmt_in_cur_frame s1) (inside_lambda s1) (stack s1)
               (Some trace_stmt) (prev_event s1))))
    by apply return_updates_frame.
  injection HX as HXm _ _ _ HXs _ _. clearbody sX.
  unfold AttrTracing.pop_stack. rewrite HXm, Hm. simpl.
  destruct (AttrTracing.unsnoc (AttrTracing.stack (attr_trace_manager s)))
    as [[mrest [[[[[ssd muts] cand] rargs] act] orig]]|] eqn:Hmu; [|done].
  apply FrameStack.unsnoc_Some in Hmu.
  intros [= ?]; subst s'. simpl.
  exists rest, r, il, mrest, (ssd, muts, cand, rargs, act, orig).
  by repeat split.
Qed.

Lemma hook_return_returns trace_stmt s rest r il mrest f :
  stack s = rest ++ [(Some r, il)] →
  AttrTracing.stack (attr_trace_manager s) = mrest ++ [f] →
  ∃ s', hook return_ trace_stmt s = inr s'.
Proof.
  intros Hs Hms. unfold state_transition_hook.
  destruct (check_returns return_ trace_stmt (increment_counter s)) as [s1 H1].
  { right. simpl. rewrite Hs. by destruct rest. }
  rewrite H1.
  assert (Hf : frame_of s1 = frame_of (increment_counter s)).
  { by apply check_cases in H1 as [->|(r0 & -> & _)]. }
  injection Hf as Hm Hc Hp Hi Hst Hpt Hpe.
  simpl. rewrite handle_return_unfold. cbn [stack]. rewrite Hst. simpl.
  rewrite Hs, FrameStack.unsnoc_snoc. cbv zeta.
  set (sX := return_updates trace_stmt r _).
  assert (HX : frame_of sX = frame_of (with_stack rest
            (mkTraceState (attr_trace_manager s1) (statements s1) (cur_frame_scope s1)
               (prev_trace_stmt_in_cur_frame s1) (inside_lambda s1) (stack s1)
               (Some trace_stmt) (prev_event s1))))
    by apply return_updates_frame.
  injection HX as HXm _ _ _ HXs _ _. clearbody sX.
  destruct (FrameStack.pop_stack_snoc (attr_trace_manager sX) mrest f) as (m' & Hpop & _).
  { by rewrite HXm, Hm. }
  rewrite Hpop. by eexists.
Qed.

Lemma hook_return_asserts trace_stmt s rest il :
  stack s = rest ++ [(None, il)] →
  hook return_ trace_stmt s = inl Py.AssertionError.
Proof.
  intros Hs. unfold state_transition_hook.
  destruct (check_returns return_ trace_stmt (increment_counter s)) as [s1 H1].
  { right. simpl. rewrite Hs. by destruct rest. }
  rewrite H1.
  assert (Hf : frame_of s1 = frame_of (increment_counter s)).
  { by apply check_cases in H1 as [->|(r0 & -> & _)]. }
  injection Hf as Hm Hc Hp Hi Hst Hpt Hpe.
  simpl. rewrite handle_return_unfold. cbn [stack]. rewrite Hst. simpl.
  by rewrite Hs, FrameStack.unsnoc_snoc.
Qed.

(** *** Sequences of actions *)

(** The number of tracer events in a sequence of actions. *)
Fixpoint events (l : list action) : Z :=
  match l with
  | [] => 0
  | Event _ _ :: l => 1 + events l
  | _ :: l => events l
  end.

(** A call of a hook leaves the two stacks and the event counter alone. *)
Lemma begin_frames obj k sub ctx cc ov m :
  AttrTracing.stack (AttrTracing.state_of (AttrTracing.attrsub_tracer obj k sub ctx cc ov m))
  = AttrTracing.stack m
  ∧ AttrTracing.trace_event_counter
      (AttrTracing.state_of (AttrTracing.attrsub_tracer obj k sub ctx cc ov m))
    = AttrTracing.trace_event_counter m.
Proof.
  pose proof (Hooks.attrsub_tracer_frame obj k sub ctx cc ov m) as H.
  cbv zeta in H. destruct H as (_ & Hs & Hc & _).
  split; [exact Hs|exact Hc].
Qed.

Lemma end_frames obj m :
  AttrTracing.stack (AttrTracing.state_of (AttrTracing.expr_tracer obj m))
  = AttrTracing.stack m
  ∧ AttrTracing.trace_event_counter (AttrTracing.state_of (AttrTracing.expr_tracer obj m))
    = AttrTracing.trace_event_counter m.
Proof.
  split; [apply FrameStack.stack_expr_tracer|].
  destruct (AttrTracing.mutation_candidate m) as [[c i]|] eqn:Hc.
  - by destruct (Hooks.expr_tracer_candidate obj m c i Hc)
      as (m' & -> & _ & _ & _ & _ & _ & ?).
  - unfold AttrTracing.expr_tracer. by rewrite Hc.
Qed.

(** One action: what becomes of the two stacks and of the counter. *)
Lemma do_action_frames a s s' :
  do_action a s = inr s' →
  AttrTracing.trace_event_counter (attr_trace_manager s')
  = (AttrTracing.trace_event_counter (attr_trace_manager s) + events [a])%Z
  ∧ match a with
    | Event call _ =>
        ∃ x f, stack s' = stack s ++ [x]
               ∧ AttrTracing.stack (attr_trace_manager s')
                 = AttrTracing.stack (attr_trace_manager s) ++ [f]
    | Event return_ _ =>
        ∃ x f, stack s = stack s' ++ [x]
               ∧ AttrTracing.stack (attr_trace_manager s)
                 = AttrTracing.stack (attr_trace_manager s') ++ [f]
    | _ =>
        stack s' = stack s
        ∧ AttrTracing.stack (attr_trace_manager s')
          = AttrTracing.stack (attr_trace_manager s)
    end.
Proof.
  destruct a as [event trace_stmt|obj k sub ctx cc ov|obj|obj name]; cbn [do_action events].
  - destruct event.
    + destruct (hook_call trace_stmt s) as (s0 & H0 & Hs & Hm & Hc & _).
      rewrite H0. intros [= ?]; subst s0. split; [lia|]. by eexists _, _.
    + destruct (hook_line_or_exception line trace_stmt s) as (s0 & H0 & Hs & Hm & _);
        [by left|].
      rewrite H0. intros [= ?]; subst s0. rewrite Hm. simpl. split; [lia|done].
    + intros H.
      apply hook_return in H
        as (rest & r & il & mrest & f & Hs & Hms & Hs' & Hms' & _ & _ & _ & _ & Hc).
      split; [lia|]. exists (Some r, il), f. by rewrite Hs', Hms'.
    + destruct (hook_line_or_exception exception trace_stmt s)
        as (s0 & H0 & Hs & Hm & _); [by right|].
      rewrite H0. intros [= ?]; subst s0. rewrite Hm. simpl. split; [lia|done].
  - intros H. apply (inj inr) in H. subst s'.
    cbn [attr_trace_manager with_manager stack AttrTracing.step].
    destruct (begin_frames obj k sub ctx cc ov (attr_trace_manager s)) as [Hs Hc].
    rewrite Hs, Hc. split; [lia|done].
  - intros H. apply (inj inr) in H. subst s'.
    cbn [attr_trace_manager with_manager stack AttrTracing.step].
    destruct (end_frames obj (attr_trace_manager s)) as [Hs Hc].
    rewrite Hs, Hc. split; [lia|done].
  - intros [= ?]; subst s'. cbn [attr_trace_manager with_manager stack]. simpl.
    split; [lia|done].
Qed.

Lemma events_cons a l : events (a :: l) = (events [a] + events l)%Z.
Proof. destruct a; simpl; lia. Qed.

(** A sequence that never returns below the [d] frames it started with
    keeps the frames under them, on both stacks. *)
Lemma run_keeps_frames l : ∀ d d' s s' base extra mbase mextra,
  stack s = base ++ extra → length extra = d →
  AttrTracing.stack (attr_trace_manager s) = mbase ++ mextra → length mextra = d →
  depth l d = Some d' → run_actions l s = inr s' →
  ∃ extra' mextra',
    stack s' = base ++ extra' ∧ length extra' = d'
    ∧ AttrTracing.stack (attr_trace_manager s') = mbase ++ mextra'
    ∧ length mextra' = d'.
Proof.
  induction l as [|a l IH]; intros d d' s s' base extra mbase mextra Hs Hd Hms Hmd Hn Hrun.
  - simpl in Hn, Hrun. injection Hn as <-. injection Hrun as <-. by exists extra, mextra.
  - simpl in Hrun. destruct (do_action a s) as [|s1] eqn:Ha; [done|].
    apply do_action_frames in Ha as [_ Ha].
    destruct a as [[| | |] trace_stmt| | |]; simpl in Hn.
    + destruct Ha as (x & f & Hs1 & Hms1).
      eapply (IH (S d) d' s1 s' base (extra ++ [x]) mbase (mextra ++ [f])); try done.
      * by rewrite Hs1, Hs, app_assoc.
      * rewrite length_app. simpl. lia.
      * by rewrite Hms1, Hms, app_assoc.
      * rewrite length_app. simpl. lia.
    + destruct Ha as [Hs1 Hms1].
      eapply (IH d d' s1 s' base extra mbase mextra); try done; congruence.
    + destruct Ha as (x & f & Hs1 & Hms1).
      destruct d as [|d]; [done|].
      destruct (unsnoc_length extra) as (extra0 & x0 & ->); [lia|].
      destruct (unsnoc_length mextra) as (mextra0 & f0 & ->); [lia|].
      rewrite length_app in Hd, Hmd. simpl in Hd, Hmd.
      rewrite Hs1, app_assoc in Hs. apply app_inj_tail in Hs as [Hs _].
      rewrite Hms1, app_assoc in Hms. apply app_inj_tail in Hms as [Hms _].
      eapply (IH d d' s1 s' base extra0 mbase mextra0); try done; lia.
    + destruct Ha as [Hs1 Hms1].
      eapply (IH d d' s1 s' base extra mbase mextra); try done; congruence.
    + destruct Ha as [Hs1 Hms1].
      eapply (IH d d' s1 s' base extra mbase mextra); try done; congruence.
    + destruct Ha as [Hs1 Hms1].
      eapply (IH d d' s1 s' base extra mbase mextra); try done; congruence.
    + destruct Ha as [Hs1 Hms1].
      eapply (IH d d' s1 s' base extra mbase mextra); try done; congruence.
Qed.

(** *** The stacks and the counter *)

(** X13: along every sequence of tracer events and hook calls that goes
    through without an exception, the call stack of the state machine and
    the frame stack of the manager move together: a call event pushes one
    entry on each, a return event pops one from each, nothing else touches
    them.  So the call stack ends as deep as the nesting of the events says,
    the two stacks have the same height if they had before, and the event
    counter has gone up by the number of events. *)
Theorem stacks_stay_aligned (l : list action) (s s' : TraceState) :
  run_actions l s = inr s' →
  depth l (length (stack s)) = Some (length (stack s'))
  ∧ (length (AttrTracing.stack (attr_trace_manager s)) = length (stack s) →
     length (AttrTracing.stack (attr_trace_manager s')) = length (stack s'))
  ∧ AttrTracing.trace_event_counter (attr_trace_manager s')
    = (AttrTracing.trace_event_counter (attr_trace_manager s) + events l)%Z.
Proof.
  revert s. induction l as [|a l IH]; intros s Hrun.
  - simpl in Hrun. injection Hrun as <-. simpl. split; [done|]. split; [done|lia].
  - simpl in Hrun. destruct (do_action a s) as [|s1] eqn:Ha; [done|].
    destruct (IH s1 Hrun) as (Hd & Hal & Hc).
    apply do_action_frames in Ha as [Hc1 Ha].
    rewrite events_cons, Hc, Hc1.
    split; [|split; [|lia]].
    + destruct a as [[| | |] trace_stmt| | |]; simpl.
      * destruct Ha as (x & f & Hs1 & _). rewrite Hs1, length_app, Nat.add_1_r in Hd.
        exact Hd.
      * destruct Ha as [Hs1 _]. by rewrite <- Hs1.
      * destruct Ha as (x & f & Hs1 & _). by rewrite Hs1, length_app, Nat.add_1_r.
      * destruct Ha as [Hs1 _]. by rewrite <- Hs1.
      * destruct Ha as [Hs1 _]. by rewrite <- Hs1.
      * destruct Ha as [Hs1 _]. by rewrite <- Hs1.
      * destruct Ha as [Hs1 _]. by rewrite <- Hs1.
    + intros Heq. apply Hal.
      destruct a as [[| | |] trace_stmt| | |].
      * destruct Ha as (x & f & Hs1 & Hm1). rewrite Hs1, Hm1, !length_app. simpl. lia.
      * destruct Ha as [Hs1 Hm1]. by rewrite Hs1, Hm1.
      * destruct Ha as (x & f & Hs1 & Hm1). rewrite Hs1, Hm1, !length_app in Heq.
        simpl in Heq. lia.
      * destruct Ha as [Hs1 Hm1]. by rewrite Hs1, Hm1.
      * destruct Ha as [Hs1 Hm1]. by rewrite Hs1, Hm1.
      * destruct Ha as [Hs1 Hm1]. by rewrite Hs1, Hm1.
      * destruct Ha as [Hs1 Hm1]. by rewrite Hs1, Hm1.
Qed.

(** X14: a call event, then any sequence of events and hook calls in
    which every frame that is entered is left again, then a return event.
    If the frame of the call had a previous statement, the return event goes
    through and undoes the call event: the call stack, the inside-lambda
    flag and the previous statement of the frame are those of before the
    call, the manager has the frame stack and the six saved attributes of
    before the call, and the frame scope is the active scope the manager had
    then.  If the frame had no previous statement, the return event raises
    [AssertionError]. *)
Theorem return_undoes_call (trace_stmt trace_stmt' : stmt_ref) (l : list action)
    (s s1 s2 : TraceState) :
  hook call trace_stmt s = inr s1 →
  depth l 0 = Some 0 →
  run_actions l s1 = inr s2 →
  match prev_trace_stmt_in_cur_frame s with
  | Some r =>
      ∃ s3, hook return_ trace_stmt' s2 = inr s3
        ∧ stack s3 = stack s
        ∧ inside_lambda s3 = inside_lambda s
        ∧ prev_trace_stmt_in_cur_frame s3 = Some r
        ∧ AttrTracing.stack (attr_trace_manager s3)
          = AttrTracing.stack (attr_trace_manager s)
        ∧ AttrTracing.saved_fields (attr_trace_manager s3)
          = AttrTracing.saved_fields (attr_trace_manager s)
        ∧ cur_frame_scope s3 = AttrTracing.active_scope (attr_trace_manager s)
  | None => hook return_ trace_stmt' s2 = inl Py.AssertionError
  end.
Proof.
  intros Hcall Hd Hrun.
  destruct (hook_call trace_stmt s) as (s1' & Hcall' & Hs1 & Hm1 & _).
  assert (s1' = s1) as -> by congruence.
  destruct (run_keeps_frames l 0 0 s1 s2 (stack s1) [] (AttrTracing.stack (attr_trace_manager s1))
              [] ltac:(by rewrite app_nil_r) eq_refl ltac:(by rewrite app_nil_r) eq_refl
              Hd Hrun)
    as (extra & mextra & Hs2 & He & Hm2 & Hme).
  apply nil_length_inv in He, Hme. subst extra mextra.
  rewrite app_nil_r in Hs2, Hm2. rewrite Hs1 in Hs2. rewrite Hm1 in Hm2.
  destruct (prev_trace_stmt_in_cur_frame s) as [r|].
  - destruct (hook_return_returns trace_stmt' s2 _ _ _ _ _ Hs2 Hm2) as [s3 H3].
    exists s3. split; [done|].
    apply hook_return in H3
      as (rest & r' & il & mrest & f & Hs & Hms & Hs3 & Hms3 & Hil & Hp & Hf & Hsc & _).
    rewrite Hs2 in Hs. apply app_inj_tail in Hs as [<- [= <- <-]].
    rewrite Hm2 in Hms. apply app_inj_tail in Hms as [<- <-].
    split; [done|]. split; [done|]. split; [done|]. split; [done|]. split; [done|].
    rewrite Hsc. unfold AttrTracing.saved_fields in Hf. by injection Hf.
  - by apply (hook_return_asserts trace_stmt' s2 (stack s) (inside_lambda s)).
Qed.

(** *** The statement objects *)

Lemma progresses_refl st : progresses st st.
Proof. by repeat split. Qed.

Lemma progresses_trans st1 st2 st3 :
  progresses st1 st2 → progresses st2 st3 → progresses st1 st3.
Proof.
  intros (N1 & F1 & D1 & C1) (N2 & F2 & D2 & C2).
  split; [congruence|]. split; [auto|]. split; [auto|]. exact (transitivity C1 C2).
Qed.

(** X15: along every sequence of tracer events and hook calls that goes
    through, statement objects are neither made nor dropped, and each one
    only progresses: its node stays, once finished it stays finished, once
    its one-shot flag is set it stays set, and its list of call-point
    dependencies only gets longer. *)
Theorem statements_only_progress (l : list action) (s s' : TraceState) :
  run_actions l s = inr s' → Forall2 progresses (statements s) (statements s').
Proof.
  revert s. induction l as [|a l IH]; intros s Hrun.
  - simpl in Hrun. injection Hrun as <-. apply related_refl, progresses_refl.
  - simpl in Hrun. destruct (do_action a s) as [|s1] eqn:Ha; [done|].
    eapply related_trans; [apply progresses_trans| |apply IH, Hrun].
    destruct a as [event trace_stmt| | |]; simpl in Ha.
    + eapply (hook_related progresses progresses_refl progresses_trans); [..|exact Ha].
      * by repeat split.
      * by repeat split.
      * intros d st. split; [done|]. split; [done|]. split; [done|]. by apply prefix_app_r.
      * by repeat split.
    + apply (inj inr) in Ha. subst s1. apply related_refl, progresses_refl.
    + apply (inj inr) in Ha. subst s1. apply related_refl, progresses_refl.
    + apply (inj inr) in Ha. subst s1. apply related_refl, progresses_refl.
Qed.

(** The statement objects after a transition: those the check leaves,
    and for a return event those the assignments of the return transition
    make of them. *)
Lemma hook_statements event trace_stmt s s' :
  hook event trace_stmt s = inr s' →
  ∃ s1, _check_prev_stmt_done_executing_hook event trace_stmt (increment_counter s) = inr s1
    ∧ (event ≠ return_ → statements s' = statements s1)
    ∧ (event = return_ →
       ∃ rest r il s2,
         stack s = rest ++ [(Some r, il)]
         ∧ statements s2 = statements s1 ∧ prev_event s2 = prev_event s
         ∧ statements s' = statements (return_updates trace_stmt r s2)).
Proof.
  unfold state_transition_hook.
  destruct (_check_prev_stmt_done_executing_hook _ _ _) as [|s1] eqn:H1; [done|].
  assert (Hf : frame_of s1 = frame_of (increment_counter s)).
  { by apply check_cases in H1 as [->|(r & -> & _)]. }
  injection Hf as Hm Hc Hp Hi Hs Hpt Hpe.
  intros H. exists s1. split; [done|].
  destruct event; simpl in H.
  - injection H as <-. by split.
  - injection H as <-. by split.
  - split; [done|]. intros _.
    destruct (handle_return _ _) as [|s3] eqn:Hret; [done|]. injection H as <-.
    rewrite handle_return_unfold in Hret. cbn [stack] in Hret. rewrite Hs in Hret.
    simpl in Hret.
    destruct (AttrTracing.unsnoc (stack s)) as [[rest [[r|] il]]|] eqn:Hu; [|done..].
    apply FrameStack.unsnoc_Some in Hu. cbv zeta in Hret.
    destruct (AttrTracing.pop_stack _) as [[] m|]; [|done].
    injection Hret as <-. eexists rest, r, il, _.
    split; [done|]. split; [|split; [|reflexivity]]; [done|]. exact Hpe.
  - injection H as <-. by split.
Qed.

Lemma check_statements event trace_stmt s s1 (R : TraceStatement → TraceStatement → Prop) :
  (∀ st, R st st) → (∀ st, R st (set_finished st)) →
  _check_prev_stmt_done_executing_hook event trace_stmt s = inr s1 →
  Forall2 R (statements s) (statements s1).
Proof.
  intros R_refl R_fin H.
  apply check_cases in H as [->|(r & -> & _)]; [by apply related_refl|].
  by apply related_alter.
Qed.

(** X16: a transition marks a statement finished only from the check of
    the previous statement: on a line or a return event that does not follow
    a call or an exception event.  On a return event it is the statement of
    the previous event; on a line event it is the previous statement of the
    frame, which for a class definition is finished only after a return
    event (the end of the class body), and otherwise only when the event is
    for another statement. *)
Theorem finished_only_by_check (event : TraceEvent) (trace_stmt : stmt_ref)
    (s s' : TraceState) (r : stmt_ref) (st st' : TraceStatement) :
  hook event trace_stmt s = inr s' →
  statements s !! r = Some st → statements s' !! r = Some st' →
  finished st = false → finished st' = true →
  (event = line ∨ event = return_)
  ∧ prev_event s ≠ Some call ∧ prev_event s ≠ Some exception
  ∧ (event = return_ → prev_trace_stmt s = Some r)
  ∧ (event = line →
     prev_trace_stmt_in_cur_frame s = Some r
     ∧ (isinstance_ClassDef (stmt_node st) = true → prev_event s = Some return_)
     ∧ (isinstance_ClassDef (stmt_node st) = false → r ≠ trace_stmt)).
Proof.
  intros Hhook Hst Hst' Hf Hf'.
  destruct (hook_statements _ _ _ _ Hhook) as (s1 & H1 & Hother & Hret).
  set (same := fun a b : TraceStatement => finished b = finished a).
  assert (H1' : ∃ st1, statements s1 !! r = Some st1 ∧ finished st1 = true).
  { destruct (decide (event = return_)) as [->|Hne].
    - destruct (Hret eq_refl) as (rest & r0 & il & s2 & _ & Hs2 & _ & Hs').
      pose proof (return_updates_related same ltac:(done) ltac:(unfold same; congruence)
                    ltac:(done) ltac:(done) ltac:(done) trace_stmt r0 s2) as HR.
      rewrite <- Hs', Hs2 in HR.
      destruct (Forall2_lookup_r _ _ _ _ _ HR Hst') as (st1 & Hst1 & Hsame).
      exists st1. split; [done|]. unfold same in Hsame. congruence.
    - exists st'. split; [|done]. by rewrite <- (Hother Hne). }
  destruct H1' as (st1 & Hst1 & Hfin1).
  apply check_cases in H1 as [->|(r0 & -> & Hev & Hpc & Hpe & Hr & Hl)].
  { simpl in Hst1. congruence. }
  cbn [statements increment_counter finished_execution_hook update_stmt prev_event
       prev_trace_stmt prev_trace_stmt_in_cur_frame] in Hst1, Hr, Hl, Hpc, Hpe.
  destruct (decide (r = r0)) as [->|Hne].
  2: { rewrite list_lookup_alter_ne in Hst1 by done.
       pose proof (eq_trans (eq_sym Hst) Hst1) as E. injection E as <-. congruence. }
  split; [done|]. split; [done|]. split; [done|]. split; [done|].
  intros Hline. destruct (Hl Hline) as (Hp & _ & Hcls & Hncls).
  unfold stmt_test in Hcls, Hncls. cbn [statements increment_counter] in Hcls, Hncls.
  rewrite Hst in Hcls, Hncls.
  by repeat split.
Qed.

Lemma stmt_test_check p event trace_stmt s s1 r :
  (∀ st, p (set_finished st) = p st) →
  _check_prev_stmt_done_executing_hook event trace_stmt s = inr s1 →
  stmt_test p r s1 = stmt_test p r s.
Proof.
  intros Hp H. apply check_cases in H as [->|(r0 & -> & _)]; [done|].
  unfold stmt_test, finished_execution_hook, update_stmt. cbn [statements].
  unfold stmt_ref in *.
  destruct (decide (r = r0)) as [->|Hne].
  - rewrite list_lookup_alter_eq. destruct (statements s !! r0); simpl; [apply Hp|done].
  - by rewrite list_lookup_alter_ne.
Qed.

(** X17: the call-point dependencies of a statement change only on a
    return event that does not follow an exception event, for the statement
    the frame returns to, and only while the one-shot flag of the returning
    statement is not set; then exactly one set is appended, and the flag of
    the returning statement is set afterwards, so that a later return of the
    same statement appends nothing. *)
Theorem call_point_deps_once (event : TraceEvent) (trace_stmt : stmt_ref)
    (s s' : TraceState) (r : stmt_ref) (st st' : TraceStatement) :
  hook event trace_stmt s = inr s' →
  statements s !! r = Some st → statements s' !! r = Some st' →
  call_point_deps st' ≠ call_point_deps st →
  event = return_
  ∧ prev_event s ≠ Some exception
  ∧ (∃ rest il, stack s = rest ++ [(Some r, il)])
  ∧ stmt_test lambda_call_point_deps_done_once trace_stmt s = false
  ∧ (∃ d, call_point_deps st' = call_point_deps st ++ [d])
  ∧ (is_Some (statements s !! trace_stmt) →
     stmt_test lambda_call_point_deps_done_once trace_stmt s' = true).
Proof.
  intros Hhook Hst Hst' Hdeps.
  destruct (hook_statements _ _ _ _ Hhook) as (s1 & H1 & Hother & Hret).
  unfold stmt_ref in *.
  set (same := fun a b : TraceStatement => call_point_deps b = call_point_deps a).
  pose proof (check_statements _ _ _ _ same ltac:(done) ltac:(done) H1) as Hcheck.
  simpl in Hcheck.
  pose proof (stmt_test_check lambda_call_point_deps_done_once _ _ _ _ trace_stmt
                ltac:(done) H1) as Hdone.
  destruct (decide (event = return_)) as [->|Hne].
  2: { rewrite (Hother Hne) in Hst'.
       pose proof (Forall2_lookup_lr _ _ _ _ _ _ Hcheck Hst Hst') as Hsame.
       unfold same in Hsame. congruence. }
  destruct (Hret eq_refl) as (rest & r0 & il & s2 & Hs & Hs2 & Hpe & Hs').
  assert (Hlen : length (statements s1) = length (statements s))
    by (symmetry; by eapply Forall2_length).
  destruct (lookup_lt_is_Some_2 (statements s1) r) as [st1 Hst1].
  { rewrite Hlen. by eapply lookup_lt_Some. }
  pose proof (Forall2_lookup_lr _ _ _ _ _ _ Hcheck Hst Hst1) as Hsame1.
  unfold same in Hsame1.
  assert (Htest : ∀ p i, stmt_test p i s2 = stmt_test p i s1)
    by (intros p i; unfold stmt_test; by rewrite Hs2).
  rewrite Hs' in Hst'. unfold return_updates in Hst', Hs'.
  rewrite Hpe in Hst', Hs'.
  case_bool_decide as Hexc; [|rewrite Hs2 in Hst'; congruence].
  destruct (stmt_test _ r0 s2).
  { simpl in Hst'. rewrite Hs2 in Hst'.
    destruct (decide (r = r0)) as [->|Hne].
    - rewrite list_lookup_alter_eq, Hst1 in Hst'. simpl in Hst'.
      injection Hst' as <-. simpl in Hdeps. congruence.
    - rewrite list_lookup_alter_ne in Hst' by done. congruence. }
  destruct (_ || _); [|rewrite Hs2 in Hst'; congruence].
  rewrite Htest in Hst', Hs'.
  destruct (stmt_test lambda_call_point_deps_done_once trace_stmt s1) eqn:Hflag;
    simpl in Hst', Hs'; [rewrite Hs2 in Hst'; congruence|].
  rewrite Hs2 in Hst', Hs'.
  destruct (decide (r = r0)) as [->|Hne].
  2: { rewrite list_lookup_alter_ne in Hst' by done.
       destruct (decide (r = trace_stmt)) as [->|Hne'].
       - rewrite list_lookup_alter_eq, Hst1 in Hst'. simpl in Hst'.
         injection Hst' as <-. simpl in Hdeps. congruence.
       - rewrite list_lookup_alter_ne in Hst' by done. congruence. }
  split; [done|]. split; [done|]. split; [by eexists _, _|].
  split; [exact (eq_sym Hdone)|].
  split.
  - rewrite list_lookup_alter_eq in Hst'.
    destruct (decide (r0 = trace_stmt)) as [->|Hne'].
    + rewrite list_lookup_alter_eq, Hst1 in Hst'. simpl in Hst'.
      injection Hst' as <-. simpl. rewrite Hsame1. by eexists.
    + rewrite list_lookup_alter_ne, Hst1 in Hst' by done. simpl in Hst'.
      injection Hst' as <-. simpl. rewrite Hsame1. by eexists.
  - intros [t Ht].
    destruct (lookup_lt_is_Some_2 (statements s1) trace_stmt) as [t1 Ht1].
    { rewrite Hlen. by eapply lookup_lt_Some. }
    unfold stmt_test. rewrite Hs'.
    destruct (decide (trace_stmt = r0)) as [->|Hne'].
    + by rewrite !list_lookup_alter_eq, Ht1.
    + by rewrite list_lookup_alter_ne, list_lookup_alter_eq, Ht1 by done.
Qed.

End Runs.

(** *** A cell that calls a function

    Statement 0 is the call [f()], statement 1 the [return] in the body of
    [f], statement 2 the statement after the call. *)
Definition sample_statements : list TraceStatement :=
  [mkTraceStatement (Ast.Expr (Ast.Call (Ast.Name "f" Ast.Load) [] [])) false None [] false;
   mkTraceStatement (Ast.Return None) false None [] false;
   mkTraceStatement Ast.Pass false None [] false].

Definition sample_manager : AttrTracing.AttributeTracingManager :=
  AttrTracing.init ∅ ∅ [AttrTracing.mkScope None (AttrTracing.KStr "<module>") None []] []
    0 0.

Definition sample_start : TraceState :=
  mkTraceState sample_manager sample_statements 0 None false [] None None.

Definition sample_run (l : list action) (s : TraceState) : TraceState :=
  match run_actions (fun _ sc => sc) (fun _ _ => ∅) l s with
  | inr s' => s'
  | inl _ => s
  end.

(** The line of the call, the call, the line of the [return], a hook call
    in it, the return, and the line after the call. *)
Definition sample_trace : list action :=
  [Event line 0; Event call 1; Event line 1;
   HookArg (AttrTracing.mkObject 7 false 8 [] []) "x";
   Event return_ 1; Event line 2].

Lemma stacks_stay_aligned_witness :
  depth sample_trace (length (stack sample_start))
  = Some (length (stack (sample_run sample_trace sample_start)))
  ∧ (length (AttrTracing.stack (attr_trace_manager sample_start))
     = length (stack sample_start) →
     length (AttrTracing.stack (attr_trace_manager (sample_run sample_trace sample_start)))
     = length (stack (sample_run sample_trace sample_start)))
  ∧ AttrTracing.trace_event_counter
      (attr_trace_manager (sample_run sample_trace sample_start))
    = (AttrTracing.trace_event_counter (attr_trace_manager sample_start)
       + events sample_trace)%Z.
Proof.
  apply (stacks_stay_aligned (fun _ sc => sc) (fun _ _ => ∅) sample_trace sample_start).
  vm_compute. reflexivity.
Defined.

Lemma return_undoes_call_witness :
  ∃ s3,
    state_transition_hook (fun _ sc => sc) (fun _ _ => ∅) return_ 1
      (sample_run [Event line 0; Event call 1; Event line 1] sample_start) = inr s3
    ∧ stack s3 = stack (sample_run [Event line 0] sample_start)
    ∧ inside_lambda s3 = inside_lambda (sample_run [Event line 0] sample_start)
    ∧ prev_trace_stmt_in_cur_frame s3 = Some 0
    ∧ AttrTracing.stack (attr_trace_manager s3)
      = AttrTracing.stack (attr_trace_manager (sample_run [Event line 0] sample_start))
    ∧ AttrTracing.saved_fields (attr_trace_manager s3)
      = AttrTracing.saved_fields
          (attr_trace_manager (sample_run [Event line 0] sample_start))
    ∧ cur_frame_scope s3
      = AttrTracing.active_scope
          (attr_trace_manager (sample_run [Event line 0] sample_start)).
Proof.
  assert (H1 : state_transition_hook (fun _ sc => sc) (fun _ _ => ∅) call 1
                 (sample_run [Event line 0] sample_start)
               = inr (sample_run [Event line 0; Event call 1] sample_start))
    by (vm_compute; reflexivity).
  assert (H2 : run_actions (fun _ sc => sc) (fun _ _ => ∅) [Event line 1]
                 (sample_run [Event line 0; Event call 1] sample_start)
               = inr (sample_run [Event line 0; Event call 1; Event line 1] sample_start))
    by (vm_compute; reflexivity).
  assert (E : prev_trace_stmt_in_cur_frame (sample_run [Event line 0] sample_start)
              = Some 0) by (vm_compute; reflexivity).
  pose proof (return_undoes_call (fun _ sc => sc) (fun _ _ => ∅) 1 1 [Event line 1]
                _ _ _ H1 eq_refl H2) as H.
  rewrite E in H. exact H.
Defined.

Lemma statements_only_progress_witness :
  Forall2 progresses (statements sample_start)
    (statements (sample_run sample_trace sample_start)).
Proof.
  apply (statements_only_progress (fun _ sc => sc) (fun _ _ => ∅) sample_trace).
  vm_compute. reflexivity.
Defined.

(** The return event of the sample marks the [return] statement
    finished, and appends one dependency set to the statement of the
    call. *)
Lemma finished_only_by_check_witness :
  (return_ = line ∨ return_ = return_)
  ∧ prev_event (sample_run [Event line 0; Event call 1; Event line 1] sample_start)
    ≠ Some call
  ∧ prev_event (sample_run [Event line 0; Event call 1; Event line 1] sample_start)
    ≠ Some exception
  ∧ (return_ = return_ →
     prev_trace_stmt (sample_run [Event line 0; Event call 1; Event line 1] sample_start)
     = Some 1)
  ∧ (return_ = line →
     prev_trace_stmt_in_cur_frame
       (sample_run [Event line 0; Event call 1; Event line 1] sample_start) = Some 1
     ∧ (isinstance_ClassDef (Ast.Return None) = true →
        prev_event (sample_run [Event line 0; Event call 1; Event line 1] sample_start)
        = Some return_)
     ∧ (isinstance_ClassDef (Ast.Return None) = false → 1 ≠ 1)).
Proof.
  apply (finished_only_by_check (fun _ sc => sc) (fun _ _ => ∅) return_ 1
           (sample_run [Event line 0; Event call 1; Event line 1] sample_start)
           (sample_run [Event line 0; Event call 1; Event line 1; Event return_ 1]
              sample_start)
           1 (mkTraceStatement (Ast.Return None) false None [] false)
           (mkTraceStatement (Ast.Return None) true None [] true));
    vm_compute; reflexivity.
Defined.

Lemma call_point_deps_once_witness :
  return_ = return_
  ∧ prev_event (sample_run [Event line 0; Event call 1; Event line 1] sample_start)
    ≠ Some exception
  ∧ (∃ rest il,
       stack (sample_run [Event line 0; Event call 1; Event line 1] sample_start)
       = rest ++ [(Some 0, il)])
  ∧ stmt_test lambda_call_point_deps_done_once 1
      (sample_run [Event line 0; Event call 1; Event line 1] sample_start) = false
  ∧ (∃ d : gset AttrTracing.cell_ref, [∅] = [] ++ [d])
  ∧ (is_Some (statements
                (sample_run [Event line 0; Event call 1; Event line 1] sample_start)
              !! 1) →
     stmt_test lambda_call_point_deps_done_once 1
       (sample_run [Event line 0; Event call 1; Event line 1; Event return_ 1]
          sample_start) = true).
Proof.
  apply (call_point_deps_once (fun _ sc => sc) (fun _ _ => ∅) return_ 1
           (sample_run [Event line 0; Event call 1; Event line 1] sample_start)
           (sample_run [Event line 0; Event call 1; Event line 1; Event return_ 1]
              sample_start)
           0
           (mkTraceStatement (Ast.Expr (Ast.Call (Ast.Name "f" Ast.Load) [] []))
              false None [] false)
           (mkTraceStatement (Ast.Expr (Ast.Call (Ast.Name "f" Ast.Load) [] []))
              false None [∅] false));
    [vm_compute; reflexivity..|discriminate].
Defined.

End Sequences.

(** ** A load repeated *)

Module RepeatedLoad.
Import Py AttrTracing FrameStack Registry.

(** The scopes the registry refers to are objects of the store. *)
Definition registered (m : AttributeTracingManager) : Prop :=
  ∀ i scope, namespaces m !! i = Some scope → scope < length (scopes m).

Lemma resolve_scope_valid obj s m :
  registered m →
  (resolve_scope obj s m).1 < length (scopes (resolve_scope obj s m).2).
Proof.
  intros Hm. unfold resolve_scope.
  destruct (namespaces m !! py_id obj) as [scope|] eqn:Hns; [by eapply Hm|].
  destruct (namespaces m !! py_class_id obj) as [class_scope|], s; simpl;
    try (rewrite length_app; simpl; lia).
  unfold clone. destruct (scopes m !! class_scope); simpl; rewrite length_app; simpl; lia.
Qed.

Lemma add_twice (x : option cell_ref) (l : gset (option cell_ref)) :
  {[x]} ∪ ({[x]} ∪ l) = {[x]} ∪ l.
Proof. set_solver. Qed.

Lemma loaded_twice (x : option cell_ref) (m : AttributeTracingManager) :
  mutation_candidate m = None →
  with_loaded_data_cells (fun l => {[x]} ∪ l)
    (with_mutation_candidate None (with_loaded_data_cells (fun l => {[x]} ∪ l) m))
  = with_loaded_data_cells (fun l => {[x]} ∪ l) m.
Proof.
  intros Hc. unfold with_loaded_data_cells, with_mutation_candidate.
  cbn [scopes cells namespaces aliases original_active_scope active_scope
       trace_event_counter loaded_data_cells saved_store_data mutations
       recorded_args stack mutation_candidate].
  by rewrite add_twice, Hc.
Qed.

Lemma resolve_scope_known obj s m scope :
  namespaces m !! py_id obj = Some scope → resolve_scope obj s m = (scope, m).
Proof. intros H. unfold resolve_scope. by rewrite H. Qed.

(** X18: a load is idempotent.  When the start hook has returned from a
    load (in or out of call position), the same call again returns and
    leaves the manager exactly as it is: the scope of the object is found
    again, the DataCell found or made by the first call is found by the
    second (no second DataCell is made), and the loaded set, the candidate
    and the active scope are already what the call sets them to. *)
Theorem load_is_idempotent (obj : PyObject) (k : PyKey) (s cc ov : bool)
    (m m' : AttributeTracingManager) :
  registered m →
  attrsub_tracer obj k s "Load" cc ov m = Returns obj m' →
  attrsub_tracer obj k s "Load" cc ov m' = Returns obj m'.
Proof.
  intros Hm. unfold attrsub_tracer at 1.
  destruct (py_is_None obj) eqn:HN.
  { intros H. injection H as <-. unfold attrsub_tracer. by rewrite HN. }
  pose proof (resolve_scope_registered obj s m) as Hreg.
  pose proof (resolve_scope_valid obj s m Hm) as Hvalid.
  destruct (resolve_scope obj s m) as [scope m1]. simpl in Hreg, Hvalid.
  rewrite decide_True by done.
  set (m2 := if ov then with_active_scope scope m1 else m1).
  assert (Hn2 : namespaces m2 = namespaces m1) by (subst m2; by destruct ov).
  assert (Hs2 : scopes m2 = scopes m1) by (subst m2; by destruct ov).
  assert (Ha2 : ov = true → active_scope m2 = scope) by (subst m2; by destruct ov).
  clearbody m2.
  (* the second call, on a manager [M] that keeps the registry and the
     active scope of [m2] *)
  assert (Hagain : ∀ M,
            namespaces M = namespaces m2 → active_scope M = active_scope m2 →
            attrsub_tracer obj k s "Load" cc ov M
            = match (if cc then
                       Returns tt (with_mutation_candidate
                                     (Some (trace_event_counter M, py_id obj)) M)
                     else
                       match
                         match lookup_data_cell_by_name_this_indentation scope k
                                 (with_mutation_candidate None M) with
                         | Some c => Returns (Some c) (with_mutation_candidate None M)
                         | None => make_data_cell scope obj k s
                                     (with_mutation_candidate None M)
                         end
                       with
                       | Returns data_cell m =>
                           Returns tt (with_loaded_data_cells (fun l => {[data_cell]} ∪ l) m)
                       | Raises e m => Raises e m
                       end) with
              | Raises e m => Raises e m
              | Returns _ m => Returns obj m
              end).
  { intros M HnM HaM. unfold attrsub_tracer. rewrite HN.
    rewrite (resolve_scope_known obj s M scope) by (by rewrite HnM, Hn2).
    cbv beta iota zeta.
    assert (HM : (if ov then with_active_scope scope M else M) = M).
    { destruct ov; [|done]. rewrite <- (Ha2 eq_refl), <- HaM. by destruct M. }
    rewrite HM, decide_True by done.
    destruct cc.
    - by rewrite decide_False by (by intros [|]).
    - destruct (match lookup_data_cell_by_name_this_indentation scope k _ with
                | Some c => _ | None => _ end) as [dc m4|e m4]; [|done].
      by rewrite decide_False by (by intros [|]). }
  destruct cc.
  - rewrite decide_False by (by intros [|]).
    intros H. injection H as <-. by rewrite Hagain.
  - destruct (lookup_data_cell_by_name_this_indentation scope k
                (with_mutation_candidate None m2)) as [c|] eqn:Hlook.
    + rewrite decide_False by (by intros [|]).
      intros H. injection H as <-. rewrite Hagain by done.
      change (lookup_data_cell_by_name_this_indentation scope k
                (with_mutation_candidate None
                   (with_loaded_data_cells (fun l => {[Some c]} ∪ l)
                      (with_mutation_candidate None m2))))
        with (lookup_data_cell_by_name_this_indentation scope k
                (with_mutation_candidate None m2)).
      rewrite Hlook.
      f_equal. by apply loaded_twice.
    + unfold make_data_cell.
      destruct (if s then getitem obj k else getattr obj k) as [e|v] eqn:Hread.
      * destruct e; try done.
        rewrite decide_False by (by intros [|]).
        intros H. injection H as <-. rewrite Hagain by done.
        change (lookup_data_cell_by_name_this_indentation scope k
                  (with_mutation_candidate None
                     (with_loaded_data_cells (fun l => {[None]} ∪ l)
                        (with_mutation_candidate None m2))))
          with (lookup_data_cell_by_name_this_indentation scope k
                  (with_mutation_candidate None m2)).
        rewrite Hlook. unfold make_data_cell. rewrite Hread.
        f_equal. by apply loaded_twice.
      * cbv zeta. unfold new_cell. cbn [fst snd].
        rewrite decide_False by (by intros [|]).
        intros H. injection H as <-. rewrite Hagain by done.
        assert (Hfound : ∀ m5,
                  scopes m5
                  = alter (fun sc => mkScope (scope_obj_id sc) (scope_name sc)
                                       (parent_scope sc)
                                       ((k, length (cells m2)) :: data_cells sc))
                          scope (scopes m2) →
                  lookup_data_cell_by_name_this_indentation scope k m5
                  = Some (length (cells m2))).
        { intros m5 H5. unfold lookup_data_cell_by_name_this_indentation.
          rewrite H5, list_lookup_alter_eq.
          destruct (lookup_lt_is_Some_2 (scopes m2) scope) as [sc ->];
            [by rewrite Hs2|].
          simpl. by rewrite decide_True. }
        rewrite Hfound by done.
        f_equal. by apply loaded_twice.
Qed.

(** A load of the attribute [append] of a list-like object. *)
Lemma load_is_idempotent_witness :
  ∃ m',
    attrsub_tracer Hooks.list_object (KStr "append") false "Load" false true Hooks.manager0
    = Returns Hooks.list_object m'
    ∧ length (cells m') = 1
    ∧ attrsub_tracer Hooks.list_object (KStr "append") false "Load" false true m'
      = Returns Hooks.list_object m'.
Proof.
  eexists. split; [by vm_compute|]. split; [reflexivity|].
  apply (load_is_idempotent Hooks.list_object (KStr "append") false false true
           Hooks.manager0).
  - intros i scope H. change (namespaces Hooks.manager0) with (∅ : gmap Z scope_ref) in H.
    by rewrite lookup_empty in H.
  - by vm_compute.
Defined.

End RepeatedLoad.
